(** * lit-localize: interchange codecs and the transform pass

    A shallow embedding of
      - packages/localize/src/formatters/xliff.ts   (XLIFF codec),
      - the XLB codec (formatters/xlb.ts),
      - packages/localize/src/outputters/transform.ts (the transformer),
    together with the properties the specification states about them. *)

From Stdlib Require Import String Ascii List Bool Arith NArith Lia DecimalString DecimalNat DecimalN.
From stdpp Require Import base option list strings gmap.
Import ListNotations.
Open Scope string_scope.

#[global] Arguments String.eqb : simpl nomatch.
#[global] Arguments String.append : simpl nomatch.

(** ** Errors and results *)

(** `throw new KnownError(msg)` is a user-facing error, `throw new Error(msg)`
    an internal one; a rejected file-system promise carries an error code. *)
Inductive Error : Type :=
| KnownError (message : string)
| InternalError (message : string)
| IOError (code : string).

Inductive Result (A : Type) : Type :=
| Ok (value : A)
| Throw (err : Error).
Arguments Ok {A} value.
Arguments Throw {A} err.

Definition bindR {A B : Type} (r : Result A) (k : A -> Result B) : Result B :=
  match r with
  | Ok a => k a
  | Throw e => Throw e
  end.

Notation "'try!' x ':=' r 'in' k" := (bindR r (fun x => k))
  (at level 10, x name, r at level 100, k at level 200).

Fixpoint mapR {A B : Type} (f : A -> Result B) (l : list A) : Result (list B) :=
  match l with
  | [] => Ok []
  | a :: l' => try! b := f a in try! bs := mapR f l' in Ok (b :: bs)
  end.

(** ** Characters that cannot be written inside a literal *)

Definition nl : string := String (ascii_of_nat 10) EmptyString.
Definition dquote : string := String (ascii_of_nat 34) EmptyString.

(** `Array(n + 1).join(s)`: [n] copies of [s]. *)
Fixpoint repeatString (n : nat) (s : string) : string :=
  match n with
  | O => EmptyString
  | S n' => s ++ repeatString n' s
  end.

(** `parts.join(sep)`. *)
Fixpoint join (sep : string) (parts : list string) : string :=
  match parts with
  | [] => EmptyString
  | [p] => p
  | p :: rest => p ++ sep ++ join sep rest
  end.

(** `String(n)` for a non-negative integer. *)
Definition natToString (n : nat) : string :=
  NilZero.string_of_uint (Nat.to_uint n).

Definition isEmptyString (s : string) : bool :=
  match s with
  | EmptyString => true
  | String _ _ => false
  end.

(** ** Messages (messages.ts) *)

Inductive Content : Type :=
| Str (text : string)
| Placeholder (untranslatable : string).

Record Message : Type := mkMessage {
  name : string;
  contents : list Content
}.

Record ProgramMessage : Type := mkProgramMessage {
  pname : string;
  pcontents : list Content;
  descStack : list string
}.

Record Bundle : Type := mkBundle {
  locale : string;
  messages : list Message
}.

(** ** The DOM that xmldom builds and parses *)

#[local] Set Warnings "-register-all".

Inductive Node : Type :=
| TextNode (nodeValue : string)
| ElementNode (nodeName : string) (attributes : list (string * string))
              (childNodes : list Node)
| CDataNode (nodeValue : string)
| CommentNode (nodeValue : string)
| ProcessingInstruction (target data : string).

(** A document is the list of its top-level children. *)
Definition Document : Type := list Node.

(** `node.nodeType`, printed as the template literal prints it. *)
Definition nodeType (n : Node) : string :=
  match n with
  | ElementNode _ _ _ => "1"
  | TextNode _ => "3"
  | CDataNode _ => "4"
  | ProcessingInstruction _ _ => "7"
  | CommentNode _ => "8"
  end.

Definition nodeNameOf (n : Node) : string :=
  match n with
  | ElementNode nm _ _ => nm
  | TextNode _ => "#text"
  | CDataNode _ => "#cdata-section"
  | CommentNode _ => "#comment"
  | ProcessingInstruction t _ => t
  end.

Definition children (n : Node) : list Node :=
  match n with
  | ElementNode _ _ kids => kids
  | _ => []
  end.

Definition isElementNamed (tag : string) (n : Node) : bool :=
  match n with
  | ElementNode nm _ _ => String.eqb nm tag
  | _ => false
  end.

(** `getElementsByTagName`: every element of that name below the node, in
    document order.  [elementsFrom] also counts the node itself. *)
Fixpoint elementsFrom (tag : string) (n : Node) : list Node :=
  (if isElementNamed tag n then [n] else []) ++
  match n with
  | ElementNode _ _ kids => flat_map (elementsFrom tag) kids
  | _ => []
  end.

Definition getElementsByTagName (tag : string) (kids : list Node) : list Node :=
  flat_map (elementsFrom tag) kids.

Fixpoint getAttribute (attr : string) (attrs : list (string * string))
  : option string :=
  match attrs with
  | [] => None
  | (k, v) :: rest => if String.eqb k attr then Some v
                      else getAttribute attr rest
  end.

(** ** xml-utils *)

(** Modelled from the spec: formatters/xml-utils.ts is not among the sources.
    The spec makes absence of the expected top-level element, or more than one
    candidate, a fatal parse error; the wording of the message is not given. *)
Definition getOneElementByTagNameOrThrow (doc : list Node) (tag : string)
  : Result Node :=
  match getElementsByTagName tag doc with
  | [el] => Ok el
  | _ => Throw (KnownError ("Expected exactly one <" ++ tag ++ "> element"))
  end.

(** Modelled from the spec: formatters/xml-utils.ts is not among the sources.
    A mandatory attribute that is absent (or, as the name of the helper says,
    empty) is a fatal parse error. *)
Definition getNonEmptyAttributeOrThrow (el : Node) (attr : string)
  : Result string :=
  match el with
  | ElementNode nm attrs _ =>
      match getAttribute attr attrs with
      | Some v => if isEmptyString v
                  then Throw (KnownError ("Expected <" ++ nm ++ "> to have attribute " ++ attr))
                  else Ok v
      | None => Throw (KnownError ("Expected <" ++ nm ++ "> to have attribute " ++ attr))
      end
  | _ => Throw (KnownError ("Expected an element with attribute " ++ attr))
  end.

(** ** Reading the children of a unit (xliff.ts 122-145, xlb.ts 111-134)

    The two parsers run the same loop; only the element named in the
    `Unexpected node` message differs. *)
Definition parseChild (unitTag : string) (child : Node) : Result Content :=
  match child with
  | TextNode v => Ok (Str v)
  | ElementNode nm _ phKids =>
      if String.eqb nm "ph" then
        match phKids with
        | [TextNode v] => Ok (Placeholder v)
        | _ => Throw (KnownError "Expected <ph> to have exactly one text node")
        end
      else Throw (KnownError ("Unexpected node in <" ++ unitTag ++ ">: "
                              ++ nodeType child ++ " " ++ nodeNameOf child))
  | _ => Throw (KnownError ("Unexpected node in <" ++ unitTag ++ ">: "
                            ++ nodeType child ++ " " ++ nodeNameOf child))
  end.

Definition parseContents (unitTag : string) (kids : list Node)
  : Result (list Content) :=
  mapR (parseChild unitTag) kids.

(** ** XLB (formatters/xlb.ts) *)

Module Xlb.

(** `parseXmb`, on the parsed document. *)
Definition parseMsg (msg : Node) : Result Message :=
  try! nm := getNonEmptyAttributeOrThrow msg "name" in
  try! cs := parseContents "msg" (children msg) in
  Ok (mkMessage nm cs).

Definition parseXmb (doc : Document) : Result Bundle :=
  try! bundle := getOneElementByTagNameOrThrow doc "localizationbundle" in
  try! loc := getNonEmptyAttributeOrThrow bundle "locale" in
  try! msgs := mapR parseMsg (getElementsByTagName "msg" doc) in
  Ok (mkBundle loc msgs).

(** `indent(node, level)` appends this text node. *)
Definition indent (level : nat) : Node :=
  TextNode (nl ++ repeatString level "  ").

Definition encodeContent (c : Content) : Node :=
  match c with
  | Str s => TextNode s
  | Placeholder u => ElementNode "ph" [] [TextNode u]
  end.

Definition messageNode (m : ProgramMessage) : Node :=
  ElementNode "msg"
    (("name", pname m) ::
     match descStack m with
     | [] => []
     | _ :: _ => [("desc", join " / " (descStack m))]
     end)
    (map encodeContent (pcontents m)).

(** The document `writeOutput` hands to the serializer. *)
Definition writeOutput (sourceLocale : string) (sourceMessages : list ProgramMessage)
  : Document :=
  let messagesNode :=
    ElementNode "messages" []
      (flat_map (fun m => [indent 2; messageNode m]) sourceMessages
       ++ [indent 1]) in
  let bundle :=
    ElementNode "localizationbundle" [("locale", sourceLocale)]
      [indent 1; messagesNode; indent 0] in
  [ProcessingInstruction "xml"
     ("version=" ++ dquote ++ "1.0" ++ dquote ++ " encoding=" ++ dquote ++ "UTF-8" ++ dquote);
   indent 0; bundle; indent 0].

End Xlb.

(** ** XLIFF (formatters/xliff.ts) *)

Module Xliff.

(** `parseXlif`, one `trans-unit` of the loop: [None] is the `continue`. *)
Definition parseTransUnit (transUnit : Node) : Result (option Message) :=
  try! nm := getNonEmptyAttributeOrThrow transUnit "id" in
  match getElementsByTagName "target" (children transUnit) with
  | [] => Ok None
  | [target] =>
      try! cs := parseContents "trans-unit" (children target) in
      Ok (Some (mkMessage nm cs))
  | targets =>
      Throw (KnownError ("Expected 0 or 1 <target> in <trans-unit>, got "
                         ++ natToString (length targets)))
  end.

Definition parseXlif (doc : Document) : Result Bundle :=
  try! file := getOneElementByTagNameOrThrow doc "file" in
  try! loc := getNonEmptyAttributeOrThrow file "target-language" in
  try! units := mapR parseTransUnit
                  (getElementsByTagName "trans-unit" (children file)) in
  Ok (mkBundle loc (omap id units)).

Definition indent (level : nat) : Node :=
  TextNode (nl ++ repeatString level "  ").

(** `encodeContents`: [phIdx] counts the placeholders emitted so far. *)
Fixpoint encodeContentsFrom (phIdx : nat) (cs : list Content) : list Node :=
  match cs with
  | [] => []
  | Str s :: rest => TextNode s :: encodeContentsFrom phIdx rest
  | Placeholder u :: rest =>
      ElementNode "ph" [("id", natToString phIdx)] [TextNode u]
      :: encodeContentsFrom (S phIdx) rest
  end.

Definition encodeContents (cs : list Content) : list Node :=
  encodeContentsFrom 0 cs.

Section Encode.

(** `makeMessageIdMap` lives in messages.ts, which is not among the sources;
    the encoder is stated for whatever name-to-message lookup it builds. *)
Variable makeMessageIdMap : list Message -> gmap string Message.

Definition transUnitNode (translationsByName : gmap string Message)
  (m : ProgramMessage) : Node :=
  ElementNode "trans-unit" [("id", pname m)]
    ([indent 1]
     ++ match descStack m with
        | [] => []
        | _ :: _ =>
            [ElementNode "note" [] [TextNode (join " / " (descStack m))];
             indent 1]
        end
     ++ [ElementNode "source" [] (encodeContents (pcontents m))]
     ++ match translationsByName !! pname m with
        | Some translation =>
            [indent 1;
             ElementNode "target" [] (encodeContents (contents translation))]
        | None => []
        end
     ++ [indent 0]).

(** The document `encodeLocale` hands to the serializer. *)
Definition encodeLocale (sourceLocale : string)
  (sourceMessages : list ProgramMessage) (targetLocale : string)
  (targetMessages : list Message) : Document :=
  let translationsByName := makeMessageIdMap targetMessages in
  let body :=
    ElementNode "body" []
      (indent 0 ::
       flat_map (fun m => [transUnitNode translationsByName m; indent 0])
                sourceMessages) in
  let file :=
    ElementNode "file"
      [("target-language", targetLocale);
       ("source-language", sourceLocale);
       ("original", "lit-localize-inputs");
       ("datatype", "plaintext")]
      [indent 0; body; indent 0] in
  let xliff :=
    ElementNode "xliff"
      [("version", "1.2");
       ("xmlns", "http://www.w3.org/2001/XMLSchema-instance");
       ("xsi:schemaLocation",
        "urn:oasis:names:tc:xliff:document:1.2 xliff-core-1.2-strict.xsd")]
      [indent 0; file; indent 0] in
  [ProcessingInstruction "xml"
     ("version=" ++ dquote ++ "1.0" ++ dquote ++ " encoding=" ++ dquote ++ "UTF-8" ++ dquote);
   indent 0; xliff; indent 0].

End Encode.

End Xliff.

(** ** Serializing and parsing again

    `XMLSerializer.serializeToString` followed by `DOMParser.parseFromString`
    belongs to xmldom, not to this package.  What the codecs can observe of it
    is the tree that comes back: character data, attributes and element
    structure survive, but XML text has no boundary between two adjacent text
    nodes and no way to write an empty one, so adjacent text nodes come back
    as one and empty ones not at all. *)
Fixpoint mergeText (l : list Node) : list Node :=
  match l with
  | [] => []
  | TextNode s :: rest =>
      match mergeText rest with
      | TextNode t :: rest' => TextNode (s ++ t) :: rest'
      | rest' => if isEmptyString s then rest' else TextNode s :: rest'
      end
  | n :: rest => n :: mergeText rest
  end.

Fixpoint reparseNode (n : Node) : Node :=
  match n with
  | ElementNode nm attrs kids => ElementNode nm attrs (mergeText (map reparseNode kids))
  | _ => n
  end.

Definition reparse (doc : Document) : Document :=
  mergeText (map reparseNode doc).

(** The same re-segmentation on message contents: adjacent text runs merged,
    empty ones dropped, placeholders untouched. *)
Fixpoint mergeRuns (cs : list Content) : list Content :=
  match cs with
  | [] => []
  | Str s :: rest =>
      match mergeRuns rest with
      | Str t :: rest' => Str (s ++ t) :: rest'
      | rest' => if isEmptyString s then rest' else Str s :: rest'
      end
  | c :: rest => c :: mergeRuns rest
  end.

(** The placeholder payloads of a content sequence, in order. *)
Fixpoint placeholders (cs : list Content) : list string :=
  match cs with
  | [] => []
  | Str _ :: rest => placeholders rest
  | Placeholder u :: rest => u :: placeholders rest
  end.

(** The rendered text: every run and payload, concatenated. *)
Fixpoint renderedText (cs : list Content) : string :=
  match cs with
  | [] => EmptyString
  | Str s :: rest => s ++ renderedText rest
  | Placeholder u :: rest => u ++ renderedText rest
  end.

Definition placeholdersNonEmpty (cs : list Content) : Prop :=
  Forall (fun u => u <> EmptyString) (placeholders cs).

(** Modelled from the spec: `makeMessageIdMap` of messages.ts is not among the
    sources.  The spec describes it as the construction of a name-to-message
    mapping from an ordered list of messages and leaves the treatment of a
    repeated name open; this model inserts in list order.  It is used only to
    run the XLIFF encoder on concrete inputs. *)
Definition makeMessageIdMap (msgs : list Message) : gmap string Message :=
  fold_left (fun m msg => <[name msg := msg]> m) msgs ∅.

(** A node list that spells out a content sequence: a text node per run and a
    `ph` element holding the payload as its only child per placeholder. *)
Definition encodesOne (n : Node) (c : Content) : Prop :=
  match c with
  | Str s => n = TextNode s
  | Placeholder u => exists attrs, n = ElementNode "ph" attrs [TextNode u]
  end.

Definition encodes (ns : list Node) (cs : list Content) : Prop :=
  Forall2 encodesOne ns cs.

(** What a parsed message must share with the message it was written from:
    the identifier, every placeholder payload in order, and the rendered
    text; the segmentation of the text runs may differ. *)
Definition matchesOriginal (nm : string) (original : list Content) (msg : Message)
  : Prop :=
  name msg = nm
  /\ contents msg = mergeRuns original
  /\ placeholders (contents msg) = placeholders original
  /\ renderedText (contents msg) = renderedText original.

(** The message of the specification's scenario and its Spanish translation. *)
Definition greeting : ProgramMessage :=
  mkProgramMessage "greeting"
    [Str "Hello "; Placeholder "<b>"; Str "World"; Placeholder "</b>"] [].

Definition saludo : Message :=
  mkMessage "greeting"
    [Str "Hola "; Placeholder "<b>"; Str "Mundo"; Placeholder "</b>"].

(** Whether [needle] occurs somewhere in [hay]. *)
Fixpoint occursIn (needle hay : string) : bool :=
  String.prefix needle hay ||
  match hay with
  | EmptyString => false
  | String _ rest => occursIn needle rest
  end.




(** [descendantOf n roots]: [n] is one of [roots] or lies below one of them,
    at any depth. *)
Inductive descendantOf (n : Node) : list Node -> Prop :=
| descendant_here roots : In n roots -> descendantOf n roots
| descendant_below k roots :
    In k roots -> descendantOf n (children k) -> descendantOf n roots.

(** A `msg` element that is a sibling of the bundle element instead of lying
    inside it, and a `trans-unit` whose `target` is wrapped in another
    element. *)
Definition strayMsgDocument : Document :=
  [ElementNode "root" []
     [ElementNode "localizationbundle" [("locale", "es")] [];
      ElementNode "extra" []
        [ElementNode "msg" [("name", "greeting")] [TextNode "Hola"]]]].

Definition deepTargetDocument : Document :=
  [ElementNode "file" [("target-language", "es")]
     [ElementNode "group" []
        [ElementNode "trans-unit" [("id", "greeting")]
           [ElementNode "alt-trans" []
              [ElementNode "target" [] [TextNode "Hola"]]]]]].

(** ** The indentation convention

    [indentText level] is the text `indent(node, level)` appends.  An element
    is laid out when each of its child elements is preceded by the indentation
    text of the child's nesting depth and its closing tag by that of its own
    depth; the elements named in [leaves] hold message content and are not
    looked into.  [level] maps a nesting depth (the root element has depth 0)
    to the number of two-space steps. *)
Definition indentText (level : nat) : string := nl ++ repeatString level "  ".

Fixpoint layoutKids (check : Node -> bool) (before close : string)
  (kids : list Node) : bool :=
  match kids with
  | [TextNode s] => String.eqb s close
  | TextNode s :: child :: rest =>
      String.eqb s before && check child && layoutKids check before close rest
  | _ => false
  end.

Fixpoint laidOut (level : nat -> nat) (leaves : list string) (depth : nat)
  (n : Node) : bool :=
  match n with
  | ElementNode nm _ kids =>
      if existsb (String.eqb nm) leaves then true
      else layoutKids (laidOut level leaves (S depth))
             (indentText (level (S depth))) (indentText (level depth)) kids
  | _ => false
  end.

Definition documentLaidOut (level : nat -> nat) (leaves : list string)
  (doc : Document) : bool :=
  match doc with
  | [ProcessingInstruction _ _; TextNode s1; root; TextNode s2] =>
      String.eqb s1 nl && laidOut level leaves 0 root && String.eqb s2 nl
  | _ => false
  end.

(** Two spaces per nesting level, as the specification words the convention. *)
Definition perNestingLevel (depth : nat) : nat := depth.

(** What the XLIFF encoder does: nothing down to the `trans-unit` elements
    (depth 3), two spaces per level below them. *)
Definition belowTransUnit (depth : nat) : nat := depth - 3.

(** ** Reading the XLIFF files (xliff.ts 69-94) *)

Module XliffRead.

(** What `fsExtra.readFile(path, 'utf8')` settles to: the text of the file, or
    a rejection whose error carries a code such as `ENOENT` or `EACCES`. *)
Inductive ReadOutcome : Type :=
| Contents (xmlStr : string)
| Rejected (code : string).

(** `err.code === 'ENOENT'`. *)
Definition isMissing (outcome : ReadOutcome) : bool :=
  match outcome with
  | Rejected code => String.eqb code "ENOENT"
  | Contents _ => false
  end.

Section ReadTranslations.

(** The file system, `path.join`, `config.resolve` and xmldom's parser are
    outside this package. *)
Variable readFile : string -> ReadOutcome.
Variable pathJoin : string -> string -> string.
Variable resolve : string -> string.
Variable parseFromString : string -> Document.

Variable xliffDir : string.

Definition localePath (loc : string) : string :=
  pathJoin (resolve xliffDir) (loc ++ ".xlf").

(** One of the asynchronous tasks: the path it reads, and what it settles to
    ([Ok None] is the `return null`). *)
Definition readLocale (loc : string) : string * Result (option Bundle) :=
  let path := localePath loc in
  (path,
   match readFile path with
   | Rejected code =>
       if String.eqb code "ENOENT" then Ok None else Throw (IOError code)
   | Contents xmlStr =>
       try! b := Xliff.parseXlif (parseFromString xmlStr) in Ok (Some b)
   end).

(** `readTranslations`: every task is started before any is awaited, so every
    path is read; `Promise.all` rejects when one of the tasks rejects (with the
    rejection of the first task in list order here; which rejection wins when
    several tasks fail depends on timing and is not modelled). *)
Definition readTranslations (targetLocales : list string)
  : list string * Result (list Bundle) :=
  let tasks := map readLocale targetLocales in
  (map fst tasks,
   try! bundles := mapR snd tasks in Ok (omap id bundles)).

End ReadTranslations.

(** A file system with a Spanish file, no French file and an unreadable
    German one. *)
Definition exampleFiles (path : string) : ReadOutcome :=
  if String.eqb path "xliff/es.xlf" then Contents "es"
  else if String.eqb path "xliff/de.xlf" then Rejected "EACCES"
  else Rejected "ENOENT".

Definition examplePathJoin (dir file : string) : string := dir ++ "/" ++ file.

Definition exampleParser (xmlStr : string) : Document :=
  [ElementNode "xliff" [] [ElementNode "file" [("target-language", xmlStr)] []]].

End XliffRead.

(** ** The transform's lookup (transform.ts 66-73) *)

(** `translations.set(message.name, message)` for each message in turn. *)
Definition buildTranslations (msgs : list Message) : gmap string Message :=
  fold_left (fun translations message => <[name message := message]> translations)
            msgs ∅.

(** The last message of the list that carries the name [k]. *)
Definition lastNamed (k : string) (msgs : list Message) : option Message :=
  find (fun m => String.eqb (name m) k) (rev msgs).

(** The first one. *)
Definition firstNamed (k : string) (msgs : list Message) : option Message :=
  find (fun m => String.eqb (name m) k) msgs.

(** ** The transformer (outputters/transform.ts) *)

Module Transform.

(** The part of the TypeScript syntax tree the transformer distinguishes.  A
    template span is the pair of its expression and the literal text after
    it; every kind of node the transformer does not look at is an
    [OtherNode] with its children. *)
Inductive Expr : Type :=
| StringLiteral (text : string)
| NoSubstitutionTemplateLiteral (text : string)
| TemplateExpression (head : string) (templateSpans : list (Expr * string))
| TaggedTemplate (tag : Expr) (template : Expr)
| Identifier (text : string)
| CallExpression (expression : Expr) (arguments : list Expr)
| ArrowFunction (parameters : list string) (body : Expr)
| ObjectLiteral (properties : list (string * Expr))
| ExpressionStatement (expression : Expr)
| ImportDeclaration (moduleSpecifier : string)
| OtherNode (kind : string) (childNodes : list Expr).

(** `Array<string | ts.Expression>`. *)
Inductive Fragment : Type :=
| FString (text : string)
| FExpression (expression : Expr).

(** What `extractTemplate` and `extractOptions` of program-analysis.ts return
    when they succeed. *)
Record TemplateResult : Type := mkTemplateResult {
  resultTemplate : Expr;
  resultParams : option (list string);
  resultIsLitTemplate : bool
}.

Record Options : Type := mkOptions {
  optionsId : option string;
  optionsArgs : option (list Expr)
}.

Definition isStringLiteral (e : Expr) : bool :=
  match e with StringLiteral _ => true | _ => false end.

Definition isTemplateExpression (e : Expr) : bool :=
  match e with TemplateExpression _ _ => true | _ => false end.

Definition isTemplateLiteral (e : Expr) : bool :=
  match e with
  | NoSubstitutionTemplateLiteral _ | TemplateExpression _ _ => true
  | _ => false
  end.

Definition isArrowFunction (e : Expr) : bool :=
  match e with ArrowFunction _ _ => true | _ => false end.

(** Modelled from the spec: `isLitTemplate` of program-analysis.ts is not
    among the sources.  The spec has the markup-template constructor
    recognized structurally; it is the form [tagLit] below produces, a
    template tagged with the identifier `html`. *)
Definition isLitTemplate (e : Expr) : bool :=
  match e with
  | TaggedTemplate (Identifier tagName) t =>
      String.eqb tagName "html" && isTemplateLiteral t
  | _ => false
  end.

(** `tagLit`. *)
Definition tagLit (t : Expr) : Expr := TaggedTemplate (Identifier "html") t.

(** `strings.join('')`. *)
Definition joinStrings (parts : list string) : string :=
  fold_right String.append EmptyString parts.

(** `makeTemplateLiteral`: the loop runs over the fragments from the last to
    the first, keeping the text collected since the last expression and the
    spans built so far. *)
Fixpoint collectSpans (fragments : list Fragment) : string * list (Expr * string) :=
  match fragments with
  | [] => (EmptyString, [])
  | FString s :: rest =>
      let '(textBuf, spans) := collectSpans rest in (s ++ textBuf, spans)
  | FExpression e :: rest =>
      let '(textBuf, spans) := collectSpans rest in
      (EmptyString, (e, textBuf) :: spans)
  end.

Definition makeTemplateLiteral (fragments : list Fragment) : Expr :=
  match collectSpans fragments with
  | (textBuf, []) => NoSubstitutionTemplateLiteral textBuf
  | (textBuf, spans) => TemplateExpression textBuf spans
  end.

(** What `subsume` takes into the parent template. *)
Definition subsumable (isLit : bool) (e : Expr) : bool :=
  isStringLiteral e || isTemplateLiteral e || (isLit && isLitTemplate e).

(** The expressions among the fragments. *)
Fixpoint slots (fragments : list Fragment) : list Expr :=
  match fragments with
  | [] => []
  | FString _ :: rest => slots rest
  | FExpression e :: rest => e :: slots rest
  end.

(** What a `msg` call may be replaced by. *)
Definition isReplacement (e : Expr) : bool :=
  isStringLiteral e || isTemplateLiteral e || isLitTemplate e.

Section Transformer.

(** The type checker and the analysis the transformer consults.  They are not
    part of transform.ts: [typeProperties] gives the names of the properties
    of the type at a node, [isLitLocalizeImport] whether the module an import
    declaration names resolves to the localization library, and
    [isLocaleStatusEvent] whether the symbol at a node is the library's
    `LOCALE_STATUS_EVENT`. *)
Variable typeProperties : Expr -> list string.
Variable isLitLocalizeImport : Expr -> bool.
Variable isLocaleStatusEvent : Expr -> bool.

(** program-analysis.ts and typescript.ts are not among the sources; their
    functions are taken as they are called.  An analysis result is either the
    result or the text of its error. *)
Variable extractTemplate : option Expr -> string -> TemplateResult + string.
Variable extractOptions : option Expr -> string -> Options + string.
Variable generateMsgIdFromAstNode : Expr -> bool -> string.
Variable escapeStringToEmbedInTemplateLiteral : string -> string.

(** `ts.createSourceFile`, the statements of the parsed text. *)
Variable createSourceFile : string -> list Expr.

(** The fields of the class; [sourceFile] is the name of the file. *)
Variable translations : option (gmap string Message).
Variable locale : string.
Variable sourceFile : string.

(** `typeHasProperty`. *)
Definition typeHasProperty (node : Expr) (propertyName : string) : bool :=
  existsb (fun prop => String.eqb prop propertyName) (typeProperties node).

(** Modelled from the spec: `isMsgCall` of program-analysis.ts is not among
    the sources.  The spec has the library's calls recognized by a tag on the
    type of the callee; `_LIT_LOCALIZE_MSG_` is the tag [isLitLocalizeModule]
    looks for. *)
Definition isMsgCall (node : Expr) : bool :=
  match node with
  | CallExpression callee _ => typeHasProperty callee "_LIT_LOCALIZE_MSG_"
  | _ => false
  end.

(** `parseStringAsTemplateLiteral`. *)
Definition parseStringAsTemplateLiteral (templateLiteralBody : string)
  : Result Expr :=
  match createSourceFile ("`" ++ templateLiteralBody ++ "`") with
  | [statement] =>
      match statement with
      | ExpressionStatement expression =>
          if isTemplateLiteral expression then Ok expression
          else Throw (KnownError
                 "Internal error: expected template literal expression")
      | _ => Throw (KnownError "Internal error: expected expression statement")
      end
  | _ => Throw (KnownError "Internal error: expected 1 statement")
  end.

(** The text a translation's contents become (transform.ts 284-290). *)
Definition templateLiteralPiece (content : Content) : string :=
  match content with
  | Str s => escapeStringToEmbedInTemplateLiteral s
  | Placeholder untranslatable => untranslatable
  end.

Definition templateLiteralBody (cs : list Content) : string :=
  joinStrings (map templateLiteralPiece cs).

(** `paramValues`: a `Map` whose values may be `undefined`, when there are
    fewer arguments than parameters. *)
Fixpoint setParamValues (paramNames : list string) (args : list Expr) (i : nat)
  (paramValues : gmap string (option Expr)) : gmap string (option Expr) :=
  match paramNames with
  | [] => paramValues
  | p :: rest =>
      setParamValues rest args (S i) (<[p := nth_error args i]> paramValues)
  end.

(** `substituteIdentsInExpressions`. *)
Definition substituteSpan (paramValues : gmap string (option Expr))
  (span : Expr * string) : Result (Expr * string) :=
  match fst span with
  | Identifier ident =>
      match paramValues !! ident with
      | Some (Some value) => Ok (value, snd span)
      | _ => Throw (KnownError "No value provided")
      end
  | _ => Throw (KnownError "Expected expression to be identifier")
  end.

Definition substituteIdentsInExpressions (t : Expr)
  (paramValues : gmap string (option Expr)) : Result Expr :=
  match t with
  | TemplateExpression head spans =>
      try! spans' := mapR (substituteSpan paramValues) spans in
      Ok (TemplateExpression head spans')
  | _ => Ok t
  end.

Definition callArguments (call : Expr) : list Expr :=
  match call with
  | CallExpression _ args => args
  | _ => []
  end.

(** `options.id ?? generateMsgIdFromAstNode(template, isLitTagged)`. *)
Definition msgIdOf (templateResult : TemplateResult) (options : Options) : string :=
  match optionsId options with
  | Some i => i
  | None => generateMsgIdFromAstNode (resultTemplate templateResult)
              (resultIsLitTemplate templateResult)
  end.

(** `replaceMsgCall`, the template it goes on with (transform.ts 279-298):
    the translation when the lookup has one, the source template otherwise. *)
Definition translatedTemplate (msgId : string) (t0 : Expr) : Result Expr :=
  match translations with
  | Some lookup =>
      match lookup !! msgId with
      | Some translation =>
          parseStringAsTemplateLiteral (templateLiteralBody (contents translation))
      | None => Ok t0
      end
  | None => Ok t0
  end.

(** `replaceMsgCall`, the arguments put in place of the parameters
    (transform.ts 307-318). *)
Definition substituteArguments (templateArg : option Expr)
  (templateResult : TemplateResult) (options : Options) (t1 : Expr)
  : Result Expr :=
  if match templateArg with
     | Some a => isArrowFunction a
     | None => false
     end && isTemplateExpression t1
  then
    match resultParams templateResult, optionsArgs options with
    | Some paramNames, Some args =>
        substituteIdentsInExpressions t1 (setParamValues paramNames args 0 ∅)
    | _, _ =>
        Throw (KnownError
          "Internal error, expected paramNames and options.args to be defined")
    end
  else Ok t1.

(** The identifier `replaceMsgCall` looks up for a call, when the analysis of
    its arguments succeeds. *)
Definition effectiveId (call : Expr) : option string :=
  match extractTemplate (nth_error (callArguments call) 0) sourceFile,
        extractOptions (nth_error (callArguments call) 1) sourceFile with
  | inl templateResult, inl options => Some (msgIdOf templateResult options)
  | _, _ => None
  end.

Section OneLevel.

(** One level of the recursion: [visit] stands for `this.boundVisitNode` and
    [flatten] for the recursive calls of `recursivelyFlattenTemplate`. *)
Variable visit : Expr -> Result (option Expr).
Variable flatten : Expr -> bool -> Result (list Fragment).

(** `ts.visitNode(expression, visitor)` where a node is required. *)
Definition visitRequired (e : Expr) : Result Expr :=
  try! r := visit e in
  match r with
  | Some e' => Ok e'
  | None => Throw (InternalError "node removed where one is required")
  end.

(** `subsume`: [Some fragments] when the expression is taken into the parent,
    [None] for `return false`. *)
Definition subsume (isLit : bool) (expression : Expr)
  : Result (option (list Fragment)) :=
  match expression with
  | StringLiteral text => Ok (Some [FString text])
  | _ =>
      if isTemplateLiteral expression then
        try! fs := flatten expression false in Ok (Some fs)
      else if isLit && isLitTemplate expression then
        match expression with
        | TaggedTemplate _ t => try! fs := flatten t true in Ok (Some fs)
        | _ => Ok None
        end
      else Ok None
  end.

Definition flattenSpan (isLit : bool) (span : Expr * string)
  : Result (list Fragment) :=
  let '(expression, literal) := span in
  try! direct := subsume isLit expression in
  match direct with
  | Some fs => Ok (fs ++ [FString literal])%list
  | None =>
      try! expression' := visitRequired expression in
      try! after := subsume isLit expression' in
      match after with
      | Some fs => Ok (fs ++ [FString literal])%list
      | None => Ok [FExpression expression'; FString literal]
      end
  end.

(** The body of `recursivelyFlattenTemplate`. *)
Definition flattenTemplate (t : Expr) (isLit : bool) : Result (list Fragment) :=
  match t with
  | NoSubstitutionTemplateLiteral text => Ok [FString text]
  | TemplateExpression head spans =>
      try! pieces := mapR (flattenSpan isLit) spans in
      Ok (FString head :: concat pieces)
  | _ => Throw (InternalError "not a template literal")
  end.

(** `replaceMsgCall`, its last step (transform.ts 320-338). *)
Definition finishTemplate (isLitTagged : bool) (t2 : Expr) : Result Expr :=
  if isStringLiteral t2 then
    if isLitTagged then
      Throw (KnownError "Internal error: string literal cannot be html-tagged")
    else Ok t2
  else
    try! fragments := flatten t2 isLitTagged in
    let t3 := makeTemplateLiteral fragments in
    Ok (if isLitTagged then tagLit t3 else t3).

(** `replaceMsgCall`. *)
Definition replaceMsgCall (call : Expr) : Result Expr :=
  let templateArg := nth_error (callArguments call) 0 in
  let optionsArg := nth_error (callArguments call) 1 in
  match extractTemplate templateArg sourceFile with
  | inr err => Throw (InternalError err)
  | inl templateResult =>
      match extractOptions optionsArg sourceFile with
      | inr err => Throw (InternalError err)
      | inl options =>
          let msgId := msgIdOf templateResult options in
          try! t1 := translatedTemplate msgId (resultTemplate templateResult) in
          try! t2 := substituteArguments templateArg templateResult options t1 in
          finishTemplate (resultIsLitTemplate templateResult) t2
      end
  end.

(** `ts.visitEachChild(node, visitor, context)`: a removed node disappears
    from a list of nodes. *)
Definition visitList (l : list Expr) : Result (list Expr) :=
  try! rs := mapR visit l in Ok (omap id rs).

Definition visitEachChild (node : Expr) : Result Expr :=
  match node with
  | StringLiteral _ | NoSubstitutionTemplateLiteral _ | Identifier _
  | ImportDeclaration _ => Ok node
  | TemplateExpression head spans =>
      try! spans' := mapR (fun span : Expr * string =>
                             try! e := visitRequired (fst span) in
                             Ok (e, snd span)) spans in
      Ok (TemplateExpression head spans')
  | TaggedTemplate tag t =>
      try! tag' := visitRequired tag in
      try! t' := visitRequired t in
      Ok (TaggedTemplate tag' t')
  | CallExpression callee args =>
      try! callee' := visitRequired callee in
      try! args' := visitList args in
      Ok (CallExpression callee' args')
  | ArrowFunction params body =>
      try! body' := visitRequired body in
      Ok (ArrowFunction params body')
  | ObjectLiteral props =>
      try! props' := mapR (fun prop : string * Expr =>
                             try! e := visitRequired (snd prop) in
                             Ok (fst prop, e)) props in
      Ok (ObjectLiteral props')
  | ExpressionStatement e =>
      try! e' := visitRequired e in
      Ok (ExpressionStatement e')
  | OtherNode kind kids =>
      try! kids' := visitList kids in
      Ok (OtherNode kind kids')
  end.

(** The body of `visitNode`; [None] is `return undefined`. *)
Definition visitNodeBody (node : Expr) : Result (option Expr) :=
  if isMsgCall node then
    try! r := replaceMsgCall node in Ok (Some r)
  else if isLitTemplate node then
    match node with
    | TaggedTemplate _ t =>
        try! fragments := flatten t true in
        Ok (Some (tagLit (makeTemplateLiteral fragments)))
    | _ => Ok (Some node)
    end
  else if match node with
          | ImportDeclaration _ => isLitLocalizeImport node
          | _ => false
          end
  then Ok None
  else
    match
      match node with
      | CallExpression callee args =>
          if typeHasProperty callee "_LIT_LOCALIZE_CONFIGURE_TRANSFORM_LOCALIZATION_"
          then Some (Ok (Some
                 (ObjectLiteral
                    [("getLocale", ArrowFunction [] (StringLiteral locale))])))
          else if typeHasProperty callee "_LIT_LOCALIZE_CONFIGURE_LOCALIZATION_"
          then Some (Throw (KnownError
                 ("Cannot use configureLocalization in transform mode. "
                  ++ "Use configureTransformLocalization instead.")))
          else if typeHasProperty callee "_LIT_LOCALIZE_LOCALIZED_"
          then
            match args with
            | [arg] => Some (Ok (Some arg))
            | _ => Some (Throw (KnownError
                     ("Expected Localized mixin call to have one argument, got "
                      ++ natToString (length args))))
            end
          else None
      | _ => None
      end
    with
    | Some outcome => outcome
    | None =>
        if isLocaleStatusEvent node
        then Ok (Some (StringLiteral "lit-localize-status"))
        else try! r := visitEachChild node in Ok (Some r)
    end.

End OneLevel.

(** The recursion itself.  A visit may flatten the result of another visit,
    so the recursion is not on the structure of the tree; [fuel] bounds its
    depth, and running out of it is the error [InternalError "fuel"]. *)
Fixpoint visitNode (fuel : nat) (node : Expr) : Result (option Expr) :=
  match fuel with
  | O => Throw (InternalError "fuel")
  | S n => visitNodeBody (visitNode n) (recursivelyFlattenTemplate n) node
  end
with recursivelyFlattenTemplate (fuel : nat) (t : Expr) (isLit : bool)
  : Result (list Fragment) :=
  match fuel with
  | O => Throw (InternalError "fuel")
  | S n => flattenTemplate (visitNode n) (recursivelyFlattenTemplate n) t isLit
  end.

End Transformer.

End Transform.

(** ** A small program to run the transformer on

    The analysis below stands in for the type checker and for
    program-analysis.ts when the transformer is run on concrete inputs: the
    library's functions are imported under their own names, identifiers are
    always given explicitly or taken from the template's text, and the
    parser knows template bodies without substitutions. *)
Module TransformExample.

Import Transform.

Definition typeProperties (e : Expr) : list string :=
  match e with
  | Identifier nm =>
      if String.eqb nm "msg" then ["_LIT_LOCALIZE_MSG_"]
      else if String.eqb nm "configureLocalization"
           then ["_LIT_LOCALIZE_CONFIGURE_LOCALIZATION_"]
      else if String.eqb nm "configureTransformLocalization"
           then ["_LIT_LOCALIZE_CONFIGURE_TRANSFORM_LOCALIZATION_"]
      else if String.eqb nm "Localized" then ["_LIT_LOCALIZE_LOCALIZED_"]
      else []
  | _ => []
  end.

Definition isLitLocalizeImport (e : Expr) : bool :=
  match e with
  | ImportDeclaration m => String.eqb m "@lit/localize"
  | _ => false
  end.

Definition isLocaleStatusEvent (e : Expr) : bool :=
  match e with
  | Identifier nm => String.eqb nm "LOCALE_STATUS_EVENT"
  | _ => false
  end.

Definition templateOf (e : Expr) : option (Expr * bool) :=
  match e with
  | StringLiteral _ | NoSubstitutionTemplateLiteral _ | TemplateExpression _ _ =>
      Some (e, false)
  | TaggedTemplate _ t => if isLitTemplate e then Some (t, true) else None
  | _ => None
  end.

(** Modelled from the spec: `extractTemplate` of program-analysis.ts is not
    among the sources.  The spec has it give the template's shape: whether it
    is a plain string or a rich template, whether it is a closure over named
    parameters, and the template itself. *)
Definition extractTemplate (templateArg : option Expr) (file : string)
  : TemplateResult + string :=
  match templateArg with
  | Some (ArrowFunction params body) =>
      match templateOf body with
      | Some (t, lit) => inl (mkTemplateResult t (Some params) lit)
      | None => inr "Expected function to return a template"
      end
  | Some e =>
      match templateOf e with
      | Some (t, lit) => inl (mkTemplateResult t None lit)
      | None => inr "Expected a string, template or function"
      end
  | None => inr "Expected a template argument"
  end.

Definition optionId (props : list (string * Expr)) : option string :=
  match find (fun p => String.eqb (fst p) "id") props with
  | Some (_, StringLiteral i) => Some i
  | _ => None
  end.

Definition optionArgs (props : list (string * Expr)) : option (list Expr) :=
  match find (fun p => String.eqb (fst p) "args") props with
  | Some (_, OtherNode _ elements) => Some elements
  | _ => None
  end.

(** Modelled from the spec: `extractOptions` of program-analysis.ts is not
    among the sources.  The spec has it give an optional explicit identifier
    and the ordered list of argument expressions. *)
Definition extractOptions (optionsArg : option Expr) (file : string)
  : Options + string :=
  match optionsArg with
  | None => inl (mkOptions None None)
  | Some (ObjectLiteral props) => inl (mkOptions (optionId props) (optionArgs props))
  | Some _ => inr "Expected options to be an object literal"
  end.

(** Modelled from the spec: `generateMsgIdFromAstNode` of program-analysis.ts
    is not among the sources.  The spec asks for a deterministic function of
    the template's shape and of the rich-content flag; this one prefixes the
    template's leading text. *)
Definition generateMsgIdFromAstNode (t : Expr) (isLit : bool) : string :=
  (if isLit then "h" else "s") ++
  match t with
  | StringLiteral s | NoSubstitutionTemplateLiteral s | TemplateExpression s _ => s
  | _ => EmptyString
  end.

(** Texts without a backslash, a backtick or a dollar sign need no escape. *)
Definition escapeStringToEmbedInTemplateLiteral (s : string) : string := s.

Fixpoint plainBody (s : string) : bool :=
  match s with
  | EmptyString => true
  | String c rest =>
      negb (Ascii.eqb c "`" || Ascii.eqb c "$" || Ascii.eqb c "\")%char
      && plainBody rest
  end.

(** The parser on a backtick-quoted body without substitutions. *)
Definition createSourceFile (text : string) : list Expr :=
  let body := String.substring 1 (String.length text - 2) text in
  if plainBody body
  then [ExpressionStatement (NoSubstitutionTemplateLiteral body)]
  else [].

Definition visitNode (translations : option (gmap string Message))
  (locale sourceFile : string) : nat -> Expr -> Result (option Expr) :=
  Transform.visitNode typeProperties isLitLocalizeImport isLocaleStatusEvent
    extractTemplate extractOptions generateMsgIdFromAstNode
    escapeStringToEmbedInTemplateLiteral createSourceFile
    translations locale sourceFile.

Definition recursivelyFlattenTemplate (translations : option (gmap string Message))
  (locale sourceFile : string) : nat -> Expr -> bool -> Result (list Fragment) :=
  Transform.recursivelyFlattenTemplate typeProperties isLitLocalizeImport
    isLocaleStatusEvent extractTemplate extractOptions generateMsgIdFromAstNode
    escapeStringToEmbedInTemplateLiteral createSourceFile
    translations locale sourceFile.

(** `html\`...\`` and `msg(template, {id, args})`. *)
Definition html (t : Expr) : Expr := tagLit t.

Definition msg (template : Expr) (msgId : string) (args : list Expr) : Expr :=
  CallExpression (Identifier "msg")
    [template;
     ObjectLiteral [("id", StringLiteral msgId);
                    ("args", OtherNode "ArrayLiteralExpression" args)]].

End TransformExample.

(** ** Inputs the properties are run on *)

Module Scenario.

Import Transform TransformExample.

(** `msg(html\`Hello <b>World</b>\`, {id: 'greeting'})`. *)
Definition greetingCall : Expr :=
  msg (html (NoSubstitutionTemplateLiteral "Hello <b>World</b>")) "greeting" [].

(** A translation of `greeting` whose placeholder is not one of the source
    message's. *)
Definition italicSaludo : Message :=
  mkMessage "greeting" [Str "Hola "; Placeholder "<i>"; Str "Mundo"].




(** A bundle that translates `farewell` only. *)
Definition farewellOnly : gmap string Message :=
  buildTranslations [mkMessage "farewell" [Str "Adios"]].

(** `msg((x) => \`Hello ${x}!\`, {id: 'outer', args: [msg('World', {id: 'inner'})]})`
    and a bundle that translates `inner` only. *)
Definition nestedCall : Expr :=
  msg (ArrowFunction ["x"] (TemplateExpression "Hello " [(Identifier "x", "!")]))
      "outer" [msg (StringLiteral "World") "inner" []].

Definition innerOnly : gmap string Message :=
  buildTranslations [mkMessage "inner" [Str "Mundo"]].

(** `configureLocalization({})`. *)
Definition configureCall : Expr :=
  CallExpression (Identifier "configureLocalization") [ObjectLiteral []].

Definition configureMessage : string :=
  "Cannot use configureLocalization in transform mode. Use configureTransformLocalization instead.".

(** The body of html`a${`b${html`c`}`}`: a plain template with an `html`
    template in it, inside a rich template. *)
Definition nestedTemplate : Expr :=
  TemplateExpression "a"
    [(TemplateExpression "b" [(html (NoSubstitutionTemplateLiteral "c"), EmptyString)],
      EmptyString)].

(** The body of html`Hello ${name}!`. *)
Definition helloName : Expr :=
  TemplateExpression "Hello " [(Identifier "name", "!")].

End Scenario.

(** ** More of the transformer: observations on templates and fragments *)

Module TransformMore.

Import Transform.

(** The fragments a template literal consists of, as the first lines of
    `recursivelyFlattenTemplate` read them off: the head, then for each span
    its expression and the text after it. *)
Definition fragmentsOf (t : Expr) : list Fragment :=
  match t with
  | NoSubstitutionTemplateLiteral text => [FString text]
  | TemplateExpression head spans =>
      FString head ::
      flat_map (fun span => [FExpression (fst span); FString (snd span)]) spans
  | _ => []
  end.

(** A template literal as the TypeScript parser produces it: a template
    without substitution, or a template expression with at least one span. *)
Definition isParsedTemplate (t : Expr) : bool :=
  match t with
  | NoSubstitutionTemplateLiteral _ => true
  | TemplateExpression _ (_ :: _) => true
  | _ => false
  end.

(** The expressions of a template, in order. *)
Definition templateSlots (t : Expr) : list Expr :=
  match t with
  | TemplateExpression _ spans => map fst spans
  | _ => []
  end.

(** Neither a string literal nor a template literal. *)
Definition notLiteral (e : Expr) : Prop :=
  isStringLiteral e = false /\ isTemplateLiteral e = false.

Section Plain.

Variable typeProperties : Expr -> list string.
Variable isLitLocalizeImport : Expr -> bool.
Variable isLocaleStatusEvent : Expr -> bool.

(** None of the special cases of `visitNode` applies to the node itself, so
    that it reaches the final `ts.visitEachChild`. *)
Definition passedOver (node : Expr) : bool :=
  negb (isMsgCall typeProperties node)
  && negb (isLitTemplate node)
  && negb (match node with
           | ImportDeclaration _ => isLitLocalizeImport node
           | _ => false
           end)
  && negb (match node with
           | CallExpression callee _ =>
               typeHasProperty typeProperties callee
                 "_LIT_LOCALIZE_CONFIGURE_TRANSFORM_LOCALIZATION_"
               || typeHasProperty typeProperties callee
                    "_LIT_LOCALIZE_CONFIGURE_LOCALIZATION_"
               || typeHasProperty typeProperties callee "_LIT_LOCALIZE_LOCALIZED_"
           | _ => false
           end)
  && negb (isLocaleStatusEvent node).

(** Code that does not use the library or `html` templates anywhere. *)
Fixpoint plain (e : Expr) : bool :=
  passedOver e &&
  match e with
  | TemplateExpression _ spans => forallb (fun span => plain (fst span)) spans
  | TaggedTemplate tag t => plain tag && plain t
  | CallExpression callee args => plain callee && forallb plain args
  | ArrowFunction _ body => plain body
  | ObjectLiteral props => forallb (fun prop => plain (snd prop)) props
  | ExpressionStatement e' => plain e'
  | OtherNode _ kids => forallb plain kids
  | _ => true
  end.

(** An import declaration that `visitNode` removes. *)
Definition removedImport (node : Expr) : bool :=
  match node with
  | ImportDeclaration _ => isLitLocalizeImport node
  | _ => false
  end.

End Plain.

(** The depth of a tree. *)
Fixpoint height (e : Expr) : nat :=
  match e with
  | TemplateExpression _ spans =>
      S (list_max (map (fun span => height (fst span)) spans))
  | TaggedTemplate tag t => S (Nat.max (height tag) (height t))
  | CallExpression callee args =>
      S (Nat.max (height callee) (list_max (map height args)))
  | ArrowFunction _ body => S (height body)
  | ObjectLiteral props =>
      S (list_max (map (fun prop => height (snd prop)) props))
  | ExpressionStatement e' => S (height e')
  | OtherNode _ kids => S (list_max (map height kids))
  | _ => 0
  end.

(** An expression slot that `substituteIdentsInExpressions` can fill: a bare
    reference to a parameter for which there is an argument at the same
    position. *)
Definition hasArgument (paramNames : list string) (args : list Expr) (e : Expr)
  : Prop :=
  exists p j v,
    e = Identifier p /\ nth_error paramNames j = Some p /\ nth_error args j = Some v.

(** A span after substitution: the text is the same, the expression is the
    argument at the position of the parameter the span referred to. *)
Definition substituted (paramNames : list string) (args : list Expr)
  (span span' : Expr * string) : Prop :=
  snd span' = snd span
  /\ exists p j,
       fst span = Identifier p /\ nth_error paramNames j = Some p
       /\ nth_error args j = Some (fst span').

End TransformMore.

(** ** `transformOutput` (transform.ts 45-79) *)

Module TransformOutput.

(** One `program.emit`: the output directory set for it and the arguments of
    `litLocalizeTransform`. *)
Record Pass : Type := mkPass {
  passOutDir : string;
  passTranslations : option (gmap string Message);
  passLocale : string
}.

Section Emit.

(** `pathLib.join` of three segments and `writeLocaleCodesModule` of
    locales.ts are outside transform.ts. *)
Variable pathJoin3 : string -> string -> string -> string.
Variable writeLocaleCodesModule : string -> list string -> string -> Result unit.

(** The lookup of one pass (transform.ts 67-73). *)
Definition translationsFor (translationsByLocale : gmap string (list Message))
  (sourceLocale loc : string) : option (gmap string Message) :=
  if String.eqb loc sourceLocale then None
  else Some (buildTranslations
               (match translationsByLocale !! loc with
                | Some msgs => msgs
                | None => []
                end)).

(** `transformOutput`: the passes it runs, in order.  [localeCodesModule] and
    [outDir] are optional strings; an empty one counts as absent. *)
Definition transformOutput (translationsByLocale : gmap string (list Message))
  (sourceLocale : string) (targetLocales : list string)
  (localeCodesModule : option string) (outDir : option string)
  : Result (list Pass) :=
  try! written :=
    match localeCodesModule with
    | Some file =>
        if isEmptyString file then Ok tt
        else writeLocaleCodesModule sourceLocale targetLocales file
    | None => Ok tt
    end in
  let outRoot :=
    match outDir with
    | Some dir => if isEmptyString dir then "." else dir
    | None => "."
    end in
  Ok (map (fun loc =>
             mkPass (pathJoin3 outRoot "/" loc)
                    (translationsFor translationsByLocale sourceLocale loc)
                    loc)
          (sourceLocale :: targetLocales)).

End Emit.

End TransformOutput.

(** ** More of the codecs *)

Module CodecMore.

(** The `id` attributes of the `ph` elements of a node list, in order. *)
Fixpoint phIds (nodes : list Node) : list (option string) :=
  match nodes with
  | [] => []
  | ElementNode nm attrs _ :: rest =>
      if String.eqb nm "ph" then getAttribute "id" attrs :: phIds rest
      else phIds rest
  | _ :: rest => phIds rest
  end.

(** A translated unit; a unit whose translation comes with an alternative
    (`alt-trans`, which XLIFF 1.2 allows in a `trans-unit`, has a `target` of
    its own); a file with the second between two of the first. *)
Definition translatedUnit : Node :=
  ElementNode "trans-unit" [("id", "greeting")]
    [ElementNode "source" [] [TextNode "Hello"];
     ElementNode "target" [] [TextNode "Hola"]].

Definition alternativesUnit : Node :=
  ElementNode "trans-unit" [("id", "farewell")]
    [ElementNode "source" [] [TextNode "Bye"];
     ElementNode "target" [] [TextNode "Adios"];
     ElementNode "alt-trans" [] [ElementNode "target" [] [TextNode "Chao"]]].

Definition alternativesDocument : Document :=
  [ElementNode "file" [("target-language", "es")]
     [translatedUnit; alternativesUnit; translatedUnit]].

(** The `target` element the XLIFF encoder writes for a translation. *)
Definition targetNode (translation : Message) : Node :=
  ElementNode "target" [] (Xliff.encodeContents (contents translation)).

End CodecMore.

(** ** Writing the XLIFF files (xliff.ts 156-189) *)

Module XliffWrite.

Section WriteOutput.

(** The file system, `path.join`, `config.resolve` and xmldom's serializer
    are outside this package.  [ensureDir] and [writeFile] give [None] when the
    promise resolves and the `message` of the error when it rejects. *)
Variable ensureDir : string -> option string.
Variable writeFile : string -> string -> option string.
Variable serializeToString : Document -> string.
Variable pathJoin : string -> string -> string.
Variable resolve : string -> string.
Variable makeMessageIdMap : list Message -> gmap string Message.

Variable sourceLocale : string.
Variable targetLocales : list string.
Variable xliffDirConfig : string.

(** The path and the text of the file for one target locale. *)
Definition localeFile (sourceMessages : list ProgramMessage)
  (translations : gmap string (list Message)) (xliffDir targetLocale : string)
  : string * string :=
  let xmlStr :=
    serializeToString
      (Xliff.encodeLocale makeMessageIdMap sourceLocale sourceMessages targetLocale
         (match translations !! targetLocale with
          | Some msgs => msgs
          | None => []
          end)) in
  (pathJoin xliffDir (targetLocale ++ ".xlf"), xmlStr).

(** What one `writeFile` promise settles to, with the `catch` applied. *)
Definition writeOne (file : string * string) : Result unit :=
  match writeFile (fst file) (snd file) with
  | None => Ok tt
  | Some message =>
      Throw (KnownError ("Error creating XLIFF file: " ++ fst file ++ nl
                         ++ "Do you have write permission?" ++ nl ++ message))
  end.

(** `writeOutput`: the `writeFile` calls it issues, in order, and what it
    settles to.  Every write is issued before any is awaited; `Promise.all`
    rejects when one of them rejects (with the first rejection in list order
    here). *)
Definition writeOutput (sourceMessages : list ProgramMessage)
  (translations : gmap string (list Message))
  : list (string * string) * Result unit :=
  let xliffDir := resolve xliffDirConfig in
  match ensureDir xliffDir with
  | Some message =>
      ([], Throw (KnownError ("Error creating XLIFF directory: " ++ xliffDir ++ nl
                              ++ "Do you have write permission?" ++ nl ++ message)))
  | None =>
      let writes := map (localeFile sourceMessages translations xliffDir)
                        targetLocales in
      (writes, try! done := mapR writeOne writes in Ok tt)
  end.

End WriteOutput.

(** A disk on which the German file cannot be written. *)
Definition exampleWriteFile (path content : string) : option string :=
  if String.eqb path "xliff/de.xlf" then Some "EACCES: permission denied"
  else None.

End XliffWrite.

(** ** Reading the XLB files (xlb.ts 73-97) *)

Module XlbRead.

Section ReadTranslations.

(** `glob`, the file system and xmldom's parser are outside this package. *)
Variable glob : string -> string -> Result (list string).
Variable readFile : string -> XliffRead.ReadOutcome.
Variable parseFromString : string -> Document.

(** One of the asynchronous tasks. *)
Definition readBundle (file : string) : Result Bundle :=
  match readFile file with
  | XliffRead.Rejected code => Throw (IOError code)
  | XliffRead.Contents xmlStr => Xlb.parseXmb (parseFromString xmlStr)
  end.

(** `readTranslations`: `Promise.all` over the files the pattern matches. *)
Definition readTranslations (translationsGlob baseDir : string)
  : Result (list Bundle) :=
  try! files := glob translationsGlob baseDir in
  mapR readBundle files.

End ReadTranslations.

(** A directory with a Spanish bundle and a file that has disappeared. *)
Definition exampleGlob (pattern cwd : string) : Result (list string) :=
  Ok ["data/es.xlb"; "data/fr.xlb"].

Definition exampleFiles (path : string) : XliffRead.ReadOutcome :=
  if String.eqb path "data/es.xlb" then XliffRead.Contents "es"
  else XliffRead.Rejected "ENOENT".

Definition exampleParser (xmlStr : string) : Document :=
  [ElementNode "localizationbundle" [("locale", xmlStr)] []].

End XlbRead.

(** ** The `classMap` directive (lit-html/src/directives/class-map.ts) *)

Module ClassMapDirective.

(** `PartType` of directive.ts. *)
Inductive PartType : Type :=
| ATTRIBUTE | CHILD | PROPERTY | BOOLEAN_ATTRIBUTE | EVENT | ELEMENT.

Record PartInfo : Type := mkPartInfo {
  partType : PartType;
  partName : option string;
  partStrings : option (list string)
}.

(** A `ClassInfo` object as the directive reads it: its own enumerable
    properties in enumeration order, and the enumerable properties it
    inherits (those no property that is not enumerable shadows), nearest
    prototype first, each with the truthiness of its value, which is all the
    directive looks at.  Properties with a symbol key are visited neither by
    `Object.keys` nor by `for...in`. *)
Record ClassInfo : Type := mkClassInfo {
  ownProperties : list (string * bool);
  inheritedProperties : list (string * bool)
}.

Definition enumerable (classInfo : ClassInfo) : list (string * bool) :=
  (ownProperties classInfo ++ inheritedProperties classInfo)%list.

(** A `Set<string>` and a `DOMTokenList`, both kept in insertion order. *)
Definition setHas (name : string) (s : list string) : bool :=
  existsb (String.eqb name) s.

Definition setAdd (name : string) (s : list string) : list string :=
  if setHas name s then s else (s ++ [name])%list.

Definition setDelete (name : string) (s : list string) : list string :=
  List.filter (fun other => negb (String.eqb name other)) s.

(** `Object.keys(classInfo)`: the own enumerable names. *)
Definition keys (classInfo : ClassInfo) : list string :=
  map fst (ownProperties classInfo).

(** `for (const name in classInfo)`: the own names, then the inherited ones,
    each name once. *)
Fixpoint distinctNames (seen : list string) (names : list string) : list string :=
  match names with
  | [] => []
  | name :: rest =>
      if setHas name seen then distinctNames seen rest
      else name :: distinctNames (name :: seen) rest
  end.

Definition forIn (classInfo : ClassInfo) : list string :=
  distinctNames [] (map fst (enumerable classInfo)).

(** The truthiness of `classInfo[name]`: the own property, or else the
    nearest inherited one; `undefined` is falsy. *)
Definition truthy (classInfo : ClassInfo) (name : string) : bool :=
  match find (fun entry => String.eqb name (fst entry)) (enumerable classInfo) with
  | Some entry => snd entry
  | None => false
  end.

(** The exceptions of `DOMTokenList`. *)
Inductive DOMException : Type :=
| SyntaxError
| InvalidCharacterError.

(** ASCII whitespace: tab, line feed, form feed, carriage return, space. *)
Definition isAsciiWhitespace (c : ascii) : bool :=
  existsb (Nat.eqb (nat_of_ascii c)) [9; 10; 12; 13; 32].

Fixpoint containsWhitespace (token : string) : bool :=
  match token with
  | EmptyString => false
  | String c rest => isAsciiWhitespace c || containsWhitespace rest
  end.

(** What `classList.add` and `classList.remove` check before they change
    anything: an empty token is a `SyntaxError`, one with whitespace an
    `InvalidCharacterError`. *)
Definition validateToken (token : string) : option DOMException :=
  if isEmptyString token then Some SyntaxError
  else if containsWhitespace token then Some InvalidCharacterError
  else None.

Definition classListAdd (token : string) (classList : list string)
  : list string + DOMException :=
  match validateToken token with
  | Some exception => inr exception
  | None => inl (setAdd token classList)
  end.

Definition classListRemove (token : string) (classList : list string)
  : list string + DOMException :=
  match validateToken token with
  | Some exception => inr exception
  | None => inl (setDelete token classList)
  end.

(** The constructor. *)
Definition construct (partInfo : PartInfo) : Result unit :=
  if negb (match partType partInfo with ATTRIBUTE => true | _ => false end)
     || negb (match partName partInfo with
              | Some n => String.eqb n "class"
              | None => false
              end)
     || match partStrings partInfo with
        | Some strings => Nat.ltb 2 (length strings)
        | None => false
        end
  then Throw (InternalError
         ("The `classMap` directive must be used in the `class` attribute "
          ++ "and must be the only part in the attribute."))
  else Ok tt.

(** `render`. *)
Definition render (classInfo : ClassInfo) : string :=
  join " " (List.filter (truthy classInfo) (keys classInfo)).

(** What `update` returns, or the exception it throws. *)
Inductive UpdateResult : Type :=
| Rendered (value : string)
| NoChange
| Threw (exception : DOMException).

(** A loop over [items] whose body may throw: the state when the loop ends
    and the exception that ended it, if any.  In both loops of `update` the
    call that may throw comes before any change the body makes, so the state
    at the exception is the state before that turn. *)
Fixpoint forEach {A S : Type} (body : S -> A -> S + DOMException)
  (items : list A) (state : S) : S * option DOMException :=
  match items with
  | [] => (state, None)
  | item :: rest =>
      match body state item with
      | inl state' => forEach body rest state'
      | inr exception => (state, Some exception)
      end
  end.

Section Update.

(** `name in classInfo` also finds the properties that are not enumerable,
    own or inherited, such as `toString`; [nonEnumerable] tells which names
    those are. *)
Variable nonEnumerable : string -> bool.

Definition inClassInfo (name : string) (classInfo : ClassInfo) : bool :=
  existsb (fun entry => String.eqb name (fst entry)) (enumerable classInfo)
  || nonEnumerable name.

(** The first loop of a later update: old classes that no longer apply.  The
    state is `this.previousClasses` and the element's `classList`. *)
Definition removeOld (classInfo : ClassInfo)
  (state : list string * list string) (name : string)
  : list string * list string + DOMException :=
  if negb (inClassInfo name classInfo) then
    match classListRemove name (snd state) with
    | inr exception => inr exception
    | inl classList' => inl (setDelete name (fst state), classList')
    end
  else inl state.

(** The second loop: a class is added or removed when its value differs from
    what is remembered. *)
Definition applyEntry (classInfo : ClassInfo)
  (state : list string * list string) (name : string)
  : list string * list string + DOMException :=
  let value := truthy classInfo name in
  if negb (Bool.eqb value (setHas name (fst state))) then
    if value then
      match classListAdd name (snd state) with
      | inr exception => inr exception
      | inl classList' => inl (setAdd name (fst state), classList')
      end
    else
      match classListRemove name (snd state) with
      | inr exception => inr exception
      | inl classList' => inl (setDelete name (fst state), classList')
      end
  else inl state.

(** `update`: `this.previousClasses` and the `classList` of the element
    afterwards, and the value returned or the exception thrown. *)
Definition update (previousClasses : option (list string))
  (classList : list string) (classInfo : ClassInfo)
  : option (list string) * list string * UpdateResult :=
  match previousClasses with
  | None =>
      (Some (fold_left (fun (prev : list string) (name : string) =>
                          if truthy classInfo name then setAdd name prev else prev)
                       (forIn classInfo) []),
       classList, Rendered (render classInfo))
  | Some prev =>
      match forEach (removeOld classInfo) prev (prev, classList) with
      | (state, Some exception) => (Some (fst state), snd state, Threw exception)
      | (state, None) =>
          match forEach (applyEntry classInfo) (forIn classInfo) state with
          | (state', Some exception) =>
              (Some (fst state'), snd state', Threw exception)
          | (state', None) => (Some (fst state'), snd state', NoChange)
          end
      end
  end.

End Update.

(** The names every plain object inherits from `Object.prototype`, none of
    them enumerable. *)
Definition objectPrototypeNames : list string :=
  ["constructor"; "hasOwnProperty"; "isPrototypeOf"; "propertyIsEnumerable";
   "toLocaleString"; "toString"; "valueOf"; "__proto__"; "__defineGetter__";
   "__defineSetter__"; "__lookupGetter__"; "__lookupSetter__"].

Definition inheritedFromObject (name : string) : bool :=
  existsb (String.eqb name) objectPrototypeNames.

(** An object literal, and an object created from a prototype that has an
    enumerable property. *)
Definition buttonClasses : ClassInfo :=
  mkClassInfo [("active", true); ("hidden", false); ("large", true)] [].

Definition themedClasses : ClassInfo :=
  mkClassInfo [("active", true); ("hidden", false)] [("themed", true)].

End ClassMapDirective.

(** ** The `query` decorator (reactive-element/src/decorators/query.ts) *)

Module QueryDecorator.

(** The values the getter handles: `undefined` (also what
    `this.renderRoot?.querySelector(selector)` gives without a render root),
    `null` (nothing matches), or anything else, such as the element found. *)
Inductive Queried : Type :=
| QUndefined
| QNull
| QElement (element : nat).






(** The getter without a cache. *)
Definition get (querySelector : Queried) : Queried := querySelector.


End QueryDecorator.

(** ** Test helpers (lit-element/src/test/test-helpers.ts) *)

Module TestHelpers.

(** `count` is a JavaScript number.  Starting from 0 it takes the integer
    values up to 2^53, where `count++` leaves it as it is: 2^53 + 1 is not a
    double and rounds back to 2^53. *)
Definition maxCount : N := 9007199254740992.

Definition increment (count : N) : N :=
  if (count <? maxCount)%N then (count + 1)%N else count.

(** `String(count)` for an integer below 10^21. *)
Definition numberToString (count : N) : string :=
  NilZero.string_of_uint (N.to_uint count).

(** `generateElementName`: the name returned and the counter afterwards. *)
Definition generateElementName (count : N) : string * N :=
  ("x-" ++ numberToString count, increment count).

(** The names of [k] successive calls. *)
Fixpoint generateElementNames (k : nat) (count : N) : list string :=
  match k with
  | O => []
  | S k' =>
      let '(name, count') := generateElementName count in
      name :: generateElementNames k' count'
  end.

End TestHelpers.

(** * Properties *)

(** ** Induction on nodes, through the child lists *)

Lemma Node_ind' (P : Node -> Prop) :
  (forall v, P (TextNode v)) ->
  (forall nm attrs kids, Forall P kids -> P (ElementNode nm attrs kids)) ->
  (forall v, P (CDataNode v)) ->
  (forall v, P (CommentNode v)) ->
  (forall t d, P (ProcessingInstruction t d)) ->
  forall n, P n.
Proof.
  intros HT HE HC HM HP.
  fix IH 1. intros [v | nm attrs kids | v | v | t d];
    [apply HT | | apply HC | apply HM | apply HP].
  apply HE. induction kids as [| k kids IHk]; constructor;
    [apply IH | exact IHk].
Qed.

(** ** Results *)

Lemma mapR_map_ok {A B C : Type} (f : B -> Result C) (g : A -> B) (h : A -> C)
  (l : list A) :
  Forall (fun a => f (g a) = Ok (h a)) l ->
  mapR f (map g l) = Ok (map h l).
Proof.
  induction 1 as [| a l Ha _ IH]; simpl; [reflexivity |].
  rewrite Ha. simpl. rewrite IH. reflexivity.
Qed.

Lemma omap_id_map {A B : Type} (f : A -> option B) (l : list A) :
  omap id (map f l) = omap f l.
Proof.
  induction l as [| a l IH]; [reflexivity |].
  simpl. change (list_omap (option B) B id (map f l)) with (omap id (map f l)).
  rewrite IH. reflexivity.
Qed.

(** ** Reparsing and `getElementsByTagName` *)

Lemma elements_mergeText tag (l : list Node) :
  getElementsByTagName tag (mergeText l) = getElementsByTagName tag l.
Proof.
  unfold getElementsByTagName.
  induction l as [| n l IH]; [reflexivity |].
  destruct n as [s | nm attrs kids | v | v | t d]; simpl;
    try (rewrite IH; reflexivity).
  rewrite <- IH.
  destruct (mergeText l) as [| [t | | | |] rest]; simpl;
    destruct (isEmptyString s); reflexivity.
Qed.

Lemma elementsFrom_reparseNode tag (n : Node) :
  elementsFrom tag (reparseNode n) = map reparseNode (elementsFrom tag n).
Proof.
  induction n as [v | nm attrs kids IH | v | v | t d] using Node_ind';
    try reflexivity.
  simpl. rewrite map_app. f_equal.
  - destruct (String.eqb nm tag); reflexivity.
  - change (flat_map (elementsFrom tag) (mergeText (map reparseNode kids)))
      with (getElementsByTagName tag (mergeText (map reparseNode kids))).
    rewrite elements_mergeText. unfold getElementsByTagName.
    induction IH as [| k kids Hk _ IHk]; [reflexivity |].
    simpl. rewrite map_app, Hk, IHk. reflexivity.
Qed.

Lemma elements_map_reparseNode tag (l : list Node) :
  getElementsByTagName tag (map reparseNode l)
  = map reparseNode (getElementsByTagName tag l).
Proof.
  unfold getElementsByTagName.
  induction l as [| n l IH]; [reflexivity |].
  simpl. rewrite map_app, elementsFrom_reparseNode, IH. reflexivity.
Qed.

Lemma elements_reparse tag (doc : Document) :
  getElementsByTagName tag (reparse doc)
  = map reparseNode (getElementsByTagName tag doc).
Proof.
  unfold reparse. rewrite elements_mergeText. apply elements_map_reparseNode.
Qed.

Lemma elements_children_reparseNode tag (n : Node) :
  getElementsByTagName tag (children (reparseNode n))
  = map reparseNode (getElementsByTagName tag (children n)).
Proof.
  destruct n; try reflexivity.
  simpl. rewrite elements_mergeText. apply elements_map_reparseNode.
Qed.

(** ** Content sequences as node lists *)

Lemma xlb_encodes (cs : list Content) :
  encodes (map Xlb.encodeContent cs) cs.
Proof.
  induction cs as [| [s | u] cs IH]; constructor; simpl; eauto.
Qed.

Lemma xliff_encodes (cs : list Content) (i : nat) :
  encodes (Xliff.encodeContentsFrom i cs) cs.
Proof.
  revert i. induction cs as [| [s | u] cs IH]; intros i; simpl.
  - constructor.
  - constructor; [reflexivity | apply IH].
  - constructor; [simpl; eauto | apply IH].
Qed.

Lemma encodes_parse tag (ns : list Node) (cs : list Content) :
  encodes ns cs -> parseContents tag ns = Ok cs.
Proof.
  unfold parseContents.
  induction 1 as [| n c ns cs Hn _ IH]; [reflexivity |].
  simpl. destruct c as [s | u]; simpl in Hn.
  - subst n. simpl. rewrite IH. reflexivity.
  - destruct Hn as [attrs ->]. simpl. rewrite IH. reflexivity.
Qed.

Lemma encodes_no_elements tag (ns : list Node) (cs : list Content) :
  tag <> "ph" -> encodes ns cs -> getElementsByTagName tag ns = [].
Proof.
  intros Htag. unfold getElementsByTagName.
  induction 1 as [| n c ns cs Hn _ IH]; [reflexivity |].
  simpl. rewrite IH. destruct c as [s | u]; simpl in Hn.
  - subst n. reflexivity.
  - destruct Hn as [attrs ->]. simpl.
    destruct (String.eqb_spec "ph" tag) as [E | _]; [congruence | reflexivity].
Qed.

Lemma encodes_reparse (ns : list Node) (cs : list Content) :
  encodes ns cs -> placeholdersNonEmpty cs ->
  encodes (mergeText (map reparseNode ns)) (mergeRuns cs).
Proof.
  unfold placeholdersNonEmpty.
  induction 1 as [| n c ns cs Hn _ IH]; intros Hne; [constructor |].
  destruct c as [s | u]; simpl in Hn, Hne.
  - subst n. specialize (IH Hne). simpl.
    inversion IH as [| n' c' ns' cs' Hn' Hrest E1 E2].
    + destruct (isEmptyString s); constructor; [reflexivity | constructor].
    + destruct c' as [t | v]; simpl in Hn'.
      * subst n'. constructor; [reflexivity | exact Hrest].
      * destruct Hn' as [attrs ->].
        destruct (isEmptyString s); [constructor; simpl; eauto |].
        constructor; [reflexivity |]. constructor; simpl; eauto.
  - destruct Hn as [attrs ->]. inversion Hne as [| ? ? Hu Hrest]; subst.
    specialize (IH Hrest). simpl.
    destruct u as [| a u]; [congruence |]. simpl.
    constructor; [simpl; eauto | exact IH].
Qed.

Lemma placeholders_mergeRuns (cs : list Content) :
  placeholders (mergeRuns cs) = placeholders cs.
Proof.
  induction cs as [| [s | u] cs IH]; simpl; [reflexivity | | congruence].
  rewrite <- IH.
  destruct (mergeRuns cs) as [| [t | v] rest];
    destruct (isEmptyString s); reflexivity.
Qed.

Lemma append_empty_r (s : string) : s ++ EmptyString = s.
Proof. induction s as [| a s IH]; simpl; congruence. Qed.

Lemma append_assoc (s t u : string) : (s ++ t) ++ u = s ++ t ++ u.
Proof. induction s as [| a s IH]; simpl; congruence. Qed.

Lemma renderedText_mergeRuns (cs : list Content) :
  renderedText (mergeRuns cs) = renderedText cs.
Proof.
  induction cs as [| [s | u] cs IH]; simpl; [reflexivity | | congruence].
  rewrite <- IH.
  destruct (mergeRuns cs) as [| [t | v] rest]; simpl.
  - destruct s; reflexivity.
  - apply append_assoc.
  - destruct s; reflexivity.
Qed.

(** ** XLB: writing, serializing, parsing *)

Lemma xlb_messageNode_elements tag (m : ProgramMessage) :
  tag <> "ph" ->
  elementsFrom tag (Xlb.messageNode m)
  = if String.eqb "msg" tag then [Xlb.messageNode m] else [].
Proof.
  intros Htag. unfold Xlb.messageNode. simpl.
  change (flat_map (elementsFrom tag) (map Xlb.encodeContent (pcontents m)))
    with (getElementsByTagName tag (map Xlb.encodeContent (pcontents m))).
  rewrite (encodes_no_elements tag _ _ Htag (xlb_encodes _)).
  rewrite app_nil_r. reflexivity.
Qed.

Lemma xlb_messages_elements tag (msgs : list ProgramMessage) :
  tag <> "ph" ->
  flat_map (elementsFrom tag)
    (flat_map (fun m => [Xlb.indent 2; Xlb.messageNode m]) msgs ++ [Xlb.indent 1])
  = if String.eqb "msg" tag then map Xlb.messageNode msgs else [].
Proof.
  intros Htag. induction msgs as [| m msgs IH].
  - simpl. destruct (String.eqb "msg" tag); reflexivity.
  - cbn [flat_map app]. rewrite IH.
    change (elementsFrom tag (Xlb.indent 2)) with (@nil Node).
    rewrite (xlb_messageNode_elements tag m Htag).
    destruct (String.eqb "msg" tag); reflexivity.
Qed.

Lemma xlb_msg_elements loc (msgs : list ProgramMessage) :
  getElementsByTagName "msg" (Xlb.writeOutput loc msgs)
  = map Xlb.messageNode msgs.
Proof.
  unfold getElementsByTagName, Xlb.writeOutput.
  cbn [flat_map elementsFrom isElementNamed app].
  rewrite (xlb_messages_elements "msg") by discriminate.
  simpl. rewrite !app_nil_r. reflexivity.
Qed.

Lemma xlb_bundle_elements loc (msgs : list ProgramMessage) :
  exists kids,
    getElementsByTagName "localizationbundle" (Xlb.writeOutput loc msgs)
    = [ElementNode "localizationbundle" [("locale", loc)] kids].
Proof.
  eexists. unfold getElementsByTagName, Xlb.writeOutput.
  cbn [flat_map elementsFrom isElementNamed app].
  rewrite (xlb_messages_elements "localizationbundle") by discriminate.
  simpl. reflexivity.
Qed.

Lemma nonEmpty_attribute nm attr v attrs kids :
  v <> EmptyString ->
  getAttribute attr attrs = Some v ->
  getNonEmptyAttributeOrThrow (ElementNode nm attrs kids) attr = Ok v.
Proof.
  intros Hv Hget. unfold getNonEmptyAttributeOrThrow. rewrite Hget.
  destruct v; [congruence | reflexivity].
Qed.

Lemma xlb_parseMsg_reparse (m : ProgramMessage) :
  pname m <> EmptyString ->
  placeholdersNonEmpty (pcontents m) ->
  Xlb.parseMsg (reparseNode (Xlb.messageNode m))
  = Ok (mkMessage (pname m) (mergeRuns (pcontents m))).
Proof.
  intros Hname Hph. unfold Xlb.parseMsg, Xlb.messageNode.
  cbn [reparseNode children].
  rewrite (nonEmpty_attribute _ _ (pname m)); [| exact Hname | reflexivity].
  cbn [bindR].
  rewrite (encodes_parse "msg" _ (mergeRuns (pcontents m))).
  - reflexivity.
  - apply encodes_reparse; [apply xlb_encodes | exact Hph].
Qed.

Lemma xlb_round_trip loc (msgs : list ProgramMessage) :
  loc <> EmptyString ->
  Forall (fun m => pname m <> EmptyString /\ placeholdersNonEmpty (pcontents m)) msgs ->
  Xlb.parseXmb (reparse (Xlb.writeOutput loc msgs))
  = Ok (mkBundle loc
          (map (fun m => mkMessage (pname m) (mergeRuns (pcontents m))) msgs)).
Proof.
  intros Hloc Hmsgs. unfold Xlb.parseXmb, getOneElementByTagNameOrThrow.
  rewrite !elements_reparse.
  destruct (xlb_bundle_elements loc msgs) as [kids ->].
  cbn [map reparseNode bindR].
  rewrite (nonEmpty_attribute _ _ loc); [| exact Hloc | reflexivity].
  cbn [bindR]. rewrite xlb_msg_elements, map_map.
  rewrite (mapR_map_ok Xlb.parseMsg _
             (fun m => mkMessage (pname m) (mergeRuns (pcontents m)))).
  - reflexivity.
  - eapply Forall_impl; [exact Hmsgs |].
    intros m [Hn Hp]. apply xlb_parseMsg_reparse; assumption.
Qed.

(** ** XLIFF: writing, serializing, parsing *)

Lemma xliff_contents_no_elements tag (cs : list Content) :
  tag <> "ph" ->
  flat_map (elementsFrom tag) (Xliff.encodeContents cs) = [].
Proof.
  intros Htag.
  exact (encodes_no_elements tag _ cs Htag (xliff_encodes cs 0)).
Qed.

Lemma xliff_transUnit_targets (tb : gmap string Message) (m : ProgramMessage) :
  getElementsByTagName "target" (children (Xliff.transUnitNode tb m))
  = match tb !! pname m with
    | Some t => [ElementNode "target" [] (Xliff.encodeContents (contents t))]
    | None => []
    end.
Proof.
  unfold getElementsByTagName, Xliff.transUnitNode. cbn [children].
  rewrite !flat_map_app.
  destruct (descStack m) as [| d ds]; destruct (tb !! pname m) as [t |];
    cbn [flat_map elementsFrom isElementNamed app Xliff.indent];
    rewrite ?xliff_contents_no_elements by discriminate; reflexivity.
Qed.

Lemma xliff_transUnit_elements tag (tb : gmap string Message) (m : ProgramMessage) :
  tag = "trans-unit" \/ tag = "file" ->
  elementsFrom tag (Xliff.transUnitNode tb m)
  = if String.eqb "trans-unit" tag then [Xliff.transUnitNode tb m] else [].
Proof.
  intros Htag. unfold Xliff.transUnitNode.
  cbn [elementsFrom isElementNamed]. rewrite !flat_map_app.
  destruct Htag as [-> | ->];
    destruct (descStack m) as [| d ds]; destruct (tb !! pname m) as [t |];
    cbn [flat_map elementsFrom isElementNamed app Xliff.indent];
    rewrite ?xliff_contents_no_elements by discriminate; reflexivity.
Qed.

Lemma xliff_body_elements tag (tb : gmap string Message) (msgs : list ProgramMessage) :
  tag = "trans-unit" \/ tag = "file" ->
  flat_map (elementsFrom tag)
    (flat_map (fun m => [Xliff.transUnitNode tb m; Xliff.indent 0]) msgs)
  = if String.eqb "trans-unit" tag then map (Xliff.transUnitNode tb) msgs else [].
Proof.
  intros Htag. induction msgs as [| m msgs IH].
  - simpl. destruct (String.eqb "trans-unit" tag); reflexivity.
  - cbn [flat_map app]. rewrite IH.
    rewrite (xliff_transUnit_elements tag tb m Htag).
    change (elementsFrom tag (Xliff.indent 0)) with (@nil Node).
    destruct (String.eqb "trans-unit" tag); reflexivity.
Qed.

Lemma xliff_file_elements mk srcLoc tgtLoc msgs tmsgs :
  exists attrs kids,
    getElementsByTagName "file" (Xliff.encodeLocale mk srcLoc msgs tgtLoc tmsgs)
    = [ElementNode "file" (("target-language", tgtLoc) :: attrs) kids]
    /\ getElementsByTagName "trans-unit" kids
       = map (Xliff.transUnitNode (mk tmsgs)) msgs.
Proof.
  exists [("source-language", srcLoc); ("original", "lit-localize-inputs");
          ("datatype", "plaintext")].
  exists [Xliff.indent 0;
          ElementNode "body" []
            (Xliff.indent 0 ::
             flat_map (fun m => [Xliff.transUnitNode (mk tmsgs) m; Xliff.indent 0])
                      msgs);
          Xliff.indent 0].
  unfold getElementsByTagName, Xliff.encodeLocale.
  cbn [flat_map elementsFrom isElementNamed app Xliff.indent].
  rewrite (xliff_body_elements "file") by (right; reflexivity).
  rewrite (xliff_body_elements "trans-unit") by (left; reflexivity).
  simpl. rewrite ?app_nil_r. split; reflexivity.
Qed.

Lemma xliff_parseTransUnit_reparse (tb : gmap string Message) (m : ProgramMessage) :
  pname m <> EmptyString ->
  (forall t, tb !! pname m = Some t -> placeholdersNonEmpty (contents t)) ->
  Xliff.parseTransUnit (reparseNode (Xliff.transUnitNode tb m))
  = Ok ((fun t => mkMessage (pname m) (mergeRuns (contents t))) <$> tb !! pname m).
Proof.
  intros Hname Hph. unfold Xliff.parseTransUnit.
  rewrite elements_children_reparseNode, xliff_transUnit_targets.
  unfold Xliff.transUnitNode at 1. cbn [reparseNode].
  rewrite (nonEmpty_attribute _ _ (pname m)); [| exact Hname | reflexivity].
  cbn [bindR].
  destruct (tb !! pname m) as [t |] eqn:Hlook; [| reflexivity].
  cbn [map reparseNode children].
  rewrite (encodes_parse "trans-unit" _ (mergeRuns (contents t))).
  - reflexivity.
  - apply encodes_reparse; [apply xliff_encodes | apply Hph; reflexivity].
Qed.

Lemma xliff_round_trip mk srcLoc tgtLoc msgs tmsgs :
  tgtLoc <> EmptyString ->
  Forall (fun m => pname m <> EmptyString /\
                   forall t, mk tmsgs !! pname m = Some t ->
                             placeholdersNonEmpty (contents t)) msgs ->
  Xliff.parseXlif (reparse (Xliff.encodeLocale mk srcLoc msgs tgtLoc tmsgs))
  = Ok (mkBundle tgtLoc
          (omap (fun m => (fun t => mkMessage (pname m) (mergeRuns (contents t)))
                            <$> mk tmsgs !! pname m) msgs)).
Proof.
  intros Hloc Hmsgs. unfold Xliff.parseXlif, getOneElementByTagNameOrThrow.
  rewrite elements_reparse.
  destruct (xliff_file_elements mk srcLoc tgtLoc msgs tmsgs)
    as (attrs & kids & -> & Hunits).
  cbn [map bindR].
  rewrite elements_children_reparseNode. cbn [children]. rewrite Hunits.
  cbn [reparseNode].
  rewrite (nonEmpty_attribute _ _ tgtLoc); [| exact Hloc | reflexivity].
  cbn [bindR]. rewrite map_map.
  rewrite (mapR_map_ok Xliff.parseTransUnit _
             (fun m => (fun t => mkMessage (pname m) (mergeRuns (contents t)))
                         <$> mk tmsgs !! pname m)).
  - cbn [bindR]. rewrite omap_id_map. reflexivity.
  - eapply Forall_impl; [exact Hmsgs |].
    intros m [Hn Hp]. apply xliff_parseTransUnit_reparse; assumption.
Qed.

(** With XLIFF and nothing translated yet, a message is written as a unit
    without `target`, and the reader skips it: the bundle has no message. *)
Example xliff_untranslated_skipped :
  Xliff.parseXlif
    (reparse (Xliff.encodeLocale makeMessageIdMap "en" [greeting] "es" []))
  = Ok (mkBundle "es" []).
Proof. vm_compute. reflexivity. Qed.

(** C1 (as stated, refuted).  Writing and reading back does not always give
    a bundle.  A placeholder whose payload is empty is written as a `ph`
    element around an empty text node, which does not survive serialization:
    the element comes back without a child and both readers reject it.  A
    message whose name is empty, or an empty locale, is written as an empty
    attribute, which the reader rejects as well. *)
Lemma round_trip_counterexample :
  Xlb.parseXmb
    (reparse (Xlb.writeOutput "en"
                [mkProgramMessage "greeting" [Str "Hello "; Placeholder EmptyString] []]))
  = Throw (KnownError "Expected <ph> to have exactly one text node")
  /\ Xliff.parseXlif
       (reparse (Xliff.encodeLocale makeMessageIdMap "en" [greeting] "es"
                   [mkMessage "greeting" [Str "Hola "; Placeholder EmptyString]]))
     = Throw (KnownError "Expected <ph> to have exactly one text node")
  /\ (exists e,
        Xlb.parseXmb
          (reparse (Xlb.writeOutput "en"
                      [mkProgramMessage EmptyString [Str "Hello"] []]))
        = Throw e)
  /\ (exists e,
        Xlb.parseXmb (reparse (Xlb.writeOutput EmptyString [greeting])) = Throw e).
Proof.
  split; [vm_compute; reflexivity |].
  split; [vm_compute; reflexivity |].
  split; eexists; vm_compute; reflexivity.
Qed.

(** C1 (amended).  When the locale and the message names are not empty and no
    placeholder payload is empty, writing and reading back succeeds.  XLB
    gives back one message per source message, in order, with the same name,
    the same placeholder payloads and the same rendered text (adjacent text
    runs merged, empty ones dropped).  XLIFF gives back, in order, one message
    per source message that has a translation under its name, carrying the
    source message's name and the translation's content in the same sense;
    source messages without a translation give no message. *)
Theorem codec_round_trip
  (mk : list Message -> gmap string Message)
  (sourceLocale targetLocale : string)
  (sourceMessages : list ProgramMessage) (targetMessages : list Message) :
  sourceLocale <> EmptyString ->
  targetLocale <> EmptyString ->
  Forall (fun m => pname m <> EmptyString) sourceMessages ->
  Forall (fun m => placeholdersNonEmpty (pcontents m)) sourceMessages ->
  (forall nm t, mk targetMessages !! nm = Some t -> placeholdersNonEmpty (contents t)) ->
  (exists b,
     Xlb.parseXmb (reparse (Xlb.writeOutput sourceLocale sourceMessages)) = Ok b
     /\ locale b = sourceLocale
     /\ Forall2 (fun m msg => matchesOriginal (pname m) (pcontents m) msg)
                sourceMessages (messages b))
  /\ (exists b,
        Xliff.parseXlif
          (reparse (Xliff.encodeLocale mk sourceLocale sourceMessages
                      targetLocale targetMessages)) = Ok b
        /\ locale b = targetLocale
        /\ Forall2 (fun mt msg => matchesOriginal (pname (fst mt)) (contents (snd mt)) msg)
             (omap (fun m => (fun t => (m, t)) <$> mk targetMessages !! pname m)
                   sourceMessages)
             (messages b)).
Proof.
  intros Hsrc Htgt Hnames Hph Htr. split.
  - eexists. split; [| split].
    + apply xlb_round_trip; [exact Hsrc |].
      clear -Hnames Hph. induction Hnames; inversion Hph; subst; constructor; auto.
    + reflexivity.
    + cbn [messages]. clear. induction sourceMessages as [| m l IH]; constructor.
      * repeat split; cbn [name contents];
          [apply placeholders_mergeRuns | apply renderedText_mergeRuns].
      * exact IH.
  - eexists. split; [| split].
    + apply xliff_round_trip; [exact Htgt |].
      clear -Hnames Htr. induction Hnames; constructor; eauto.
    + reflexivity.
    + cbn [messages]. clear. induction sourceMessages as [| m l IH]; [constructor |].
      cbn [omap list_omap].
      change (list_omap ?A ?B ?f l) with (omap f l).
      destruct (mk targetMessages !! pname m) as [t |]; cbn [fmap option_fmap option_map];
        [| exact IH].
      constructor; [| exact IH].
      repeat split; cbn [name contents fst snd];
        [apply placeholders_mergeRuns | apply renderedText_mergeRuns].
Qed.

Lemma codec_round_trip_witness :
  (exists b,
     Xlb.parseXmb (reparse (Xlb.writeOutput "en" [greeting])) = Ok b
     /\ locale b = "en"
     /\ Forall2 (fun m msg => matchesOriginal (pname m) (pcontents m) msg)
                [greeting] (messages b))
  /\ (exists b,
        Xliff.parseXlif
          (reparse (Xliff.encodeLocale makeMessageIdMap "en" [greeting] "es" [saludo]))
        = Ok b
        /\ locale b = "es"
        /\ Forall2 (fun mt msg => matchesOriginal (pname (fst mt)) (contents (snd mt)) msg)
             (omap (fun m => (fun t => (m, t)) <$> makeMessageIdMap [saludo] !! pname m)
                   [greeting])
             (messages b)).
Proof.
  apply (codec_round_trip makeMessageIdMap "en" "es" [greeting] [saludo]).
  - discriminate.
  - discriminate.
  - repeat constructor; discriminate.
  - repeat constructor; discriminate.
  - intros nm t Hlook. unfold makeMessageIdMap in Hlook. simpl in Hlook.
    destruct (decide (nm = "greeting")) as [-> | Hne].
    + rewrite lookup_insert_eq in Hlook. injection Hlook as <-.
      repeat constructor; discriminate.
    + rewrite lookup_insert_ne in Hlook by congruence.
      rewrite lookup_empty in Hlook. discriminate.
Defined.

(** ** Parse errors *)

Lemma mapR_throws {A B : Type} (f : A -> Result B) (l : list A) (x : A) (e : Error) :
  In x l -> f x = Throw e -> exists e', mapR f l = Throw e'.
Proof.
  induction l as [| a l IH]; intros Hin Hx; [destruct Hin |].
  simpl. destruct (f a) as [b |] eqn:Ha; [| eauto].
  destruct Hin as [-> | Hin]; [congruence |].
  destruct (IH Hin Hx) as [e' ->]. simpl. eauto.
Qed.

















(** ** Units are found by tag name at any depth *)

Lemma no_descendant_of_nil (x : Node) : ~ descendantOf x [].
Proof.
  intros H. inversion H as [roots Hin | k roots Hk Hd]; subst;
    [destruct Hin | destruct Hk].
Qed.

Lemma elementsFrom_spec tag (n x : Node) :
  In x (elementsFrom tag n) <->
  isElementNamed tag x = true /\ (x = n \/ descendantOf x (children n)).
Proof.
  revert x. induction n as [v | nm attrs kids IH | v | v | t d] using Node_ind';
    intros x.
  2: {
    cbn [elementsFrom isElementNamed children].
    rewrite in_app_iff, in_flat_map. rewrite Forall_forall in IH. split.
    - intros [Hhere | (k & Hk & Hin)].
      + destruct (String.eqb nm tag) eqn:E; [| destruct Hhere].
        destruct Hhere as [<- | []]. simpl. rewrite E. auto.
      + apply (proj1 (IH k (proj2 (list_elem_of_In _ _) Hk) x)) in Hin.
        destruct Hin as [Hx [-> | Hd]]; split; auto; right.
        * apply descendant_here. exact Hk.
        * eapply descendant_below; eauto.
    - intros [Hx [-> | Hd]].
      + left. simpl in Hx. rewrite Hx. left. reflexivity.
      + right. inversion Hd as [? Hin | k ? Hk Hbelow]; subst.
        * exists x. split; [exact Hin |].
          apply (IH x (proj2 (list_elem_of_In _ _) Hin) x). auto.
        * exists k. split; [exact Hk |].
          apply (IH k (proj2 (list_elem_of_In _ _) Hk) x). auto. }
  all: cbn [elementsFrom isElementNamed children app]; split;
    [ intros []
    | intros [Hx [-> | Hd]];
      [discriminate Hx | destruct (no_descendant_of_nil _ Hd)] ].
Qed.

Lemma getElementsByTagName_spec tag (roots : list Node) (x : Node) :
  In x (getElementsByTagName tag roots) <->
  isElementNamed tag x = true /\ descendantOf x roots.
Proof.
  unfold getElementsByTagName. rewrite in_flat_map. split.
  - intros (k & Hk & Hin). apply elementsFrom_spec in Hin.
    destruct Hin as [Hx [-> | Hd]]; split; auto.
    + apply descendant_here. exact Hk.
    + eapply descendant_below; eauto.
  - intros [Hx Hd]. inversion Hd as [? Hin | k ? Hk Hbelow]; subst.
    + exists x. split; [exact Hin |]. apply elementsFrom_spec. auto.
    + exists k. split; [exact Hk |]. apply elementsFrom_spec. auto.
Qed.

Lemma mapR_ok_in {A B : Type} (f : A -> Result B) (l : list A) (ys : list B) (x : A) :
  mapR f l = Ok ys -> In x l -> exists y, f x = Ok y /\ In y ys.
Proof.
  revert ys. induction l as [| a l IH]; intros ys Hok Hin; [destruct Hin |].
  simpl in Hok. destruct (f a) as [b |] eqn:Ha; [| discriminate].
  simpl in Hok. destruct (mapR f l) as [bs |]; [| discriminate].
  injection Hok as <-. destruct Hin as [-> | Hin].
  - exists b. split; [exact Ha | left; reflexivity].
  - destruct (IH bs eq_refl Hin) as (y & Hy & Hiny).
    exists y. split; [exact Hy | right; exact Hiny].
Qed.

Lemma in_omap_id {A : Type} (l : list (option A)) (x : A) :
  In (Some x) l -> In x (omap id l).
Proof.
  induction l as [| [a |] l IH]; intros H; [destruct H | |].
  - destruct H as [[= ->] | H]; [left; reflexivity | right; apply IH; exact H].
  - destruct H as [[=] | H]. apply IH. exact H.
Qed.

(** C10.  The XLB parser reads every `msg` element that occurs anywhere in
    the document, inside the bundle element or not; the XLIFF parser reads
    every `trans-unit` that occurs at any depth below the `file` element and
    takes the `target` that occurs at any depth below the unit.  Whenever the
    parse succeeds, each such unit has its message in the bundle. *)
Theorem units_found_at_any_depth :
  (forall doc b msg,
     Xlb.parseXmb doc = Ok b ->
     descendantOf msg doc -> isElementNamed "msg" msg = true ->
     exists m, In m (messages b)
               /\ getNonEmptyAttributeOrThrow msg "name" = Ok (name m)
               /\ parseContents "msg" (children msg) = Ok (contents m))
  /\ (forall doc b file transUnit target,
        Xliff.parseXlif doc = Ok b ->
        descendantOf file doc -> isElementNamed "file" file = true ->
        descendantOf transUnit (children file) ->
        isElementNamed "trans-unit" transUnit = true ->
        descendantOf target (children transUnit) ->
        isElementNamed "target" target = true ->
        exists m, In m (messages b)
                  /\ getNonEmptyAttributeOrThrow transUnit "id" = Ok (name m)
                  /\ parseContents "trans-unit" (children target) = Ok (contents m)).
Proof.
  split.
  - intros doc b msg Hparse Hdesc Hname. unfold Xlb.parseXmb in Hparse.
    destruct (getOneElementByTagNameOrThrow doc "localizationbundle") as [bundle |];
      [| discriminate].
    simpl in Hparse.
    destruct (getNonEmptyAttributeOrThrow bundle "locale") as [loc |]; [| discriminate].
    simpl in Hparse.
    destruct (mapR Xlb.parseMsg (getElementsByTagName "msg" doc)) as [msgs |] eqn:Hmsgs;
      [| discriminate].
    injection Hparse as <-.
    destruct (mapR_ok_in _ _ _ msg Hmsgs) as (m & Hm & Hin).
    { apply getElementsByTagName_spec. auto. }
    exists m. split; [exact Hin |].
    unfold Xlb.parseMsg in Hm.
    destruct (getNonEmptyAttributeOrThrow msg "name") as [nm |]; [| discriminate].
    simpl in Hm.
    destruct (parseContents "msg" (children msg)) as [cs |]; [| discriminate].
    injection Hm as <-. auto.
  - intros doc b file transUnit target Hparse Hfile Hfname Hunit Huname Htarget Htname.
    unfold Xliff.parseXlif, getOneElementByTagNameOrThrow in Hparse.
    assert (In file (getElementsByTagName "file" doc)) as Hin
      by (apply getElementsByTagName_spec; auto).
    destruct (getElementsByTagName "file" doc) as [| f [| f' rest]];
      try discriminate.
    destruct Hin as [-> | []]. simpl in Hparse.
    destruct (getNonEmptyAttributeOrThrow file "target-language") as [loc |];
      [| discriminate].
    simpl in Hparse.
    destruct (mapR Xliff.parseTransUnit
                (getElementsByTagName "trans-unit" (children file)))
      as [units |] eqn:Hunits; [| discriminate].
    injection Hparse as <-.
    destruct (mapR_ok_in _ _ _ transUnit Hunits) as (om & Hom & Hinu).
    { apply getElementsByTagName_spec. auto. }
    unfold Xliff.parseTransUnit in Hom.
    destruct (getNonEmptyAttributeOrThrow transUnit "id") as [nm |]; [| discriminate].
    simpl in Hom.
    assert (In target (getElementsByTagName "target" (children transUnit))) as Hint
      by (apply getElementsByTagName_spec; auto).
    destruct (getElementsByTagName "target" (children transUnit))
      as [| t [| t' rest]]; [destruct Hint | | discriminate].
    destruct Hint as [-> | []].
    destruct (parseContents "trans-unit" (children target)) as [cs |];
      [| discriminate].
    injection Hom as <-.
    exists (mkMessage nm cs). split; [| auto].
    cbn [messages]. apply in_omap_id. exact Hinu.
Qed.

Lemma units_found_at_any_depth_witness :
  (exists b, Xlb.parseXmb strayMsgDocument = Ok b
             /\ In (mkMessage "greeting" [Str "Hola"]) (messages b))
  /\ (exists b, Xliff.parseXlif deepTargetDocument = Ok b
                /\ In (mkMessage "greeting" [Str "Hola"]) (messages b)).
Proof.
  destruct units_found_at_any_depth as [Hxlb Hxliff]. split.
  - eexists. split; [vm_compute; reflexivity |].
    destruct (Hxlb strayMsgDocument _
                (ElementNode "msg" [("name", "greeting")] [TextNode "Hola"])
                eq_refl) as (m & Hin & Hname & Hcontents).
    + eapply descendant_below; [left; reflexivity |].
      eapply descendant_below; [right; left; reflexivity |].
      apply descendant_here. left. reflexivity.
    + reflexivity.
    + destruct m as [nm cs]. simpl in Hname, Hcontents.
      vm_compute in Hname. vm_compute in Hcontents.
      injection Hname as <-. injection Hcontents as <-. exact Hin.
  - eexists. split; [vm_compute; reflexivity |].
    destruct (Hxliff deepTargetDocument _
                (ElementNode "file" [("target-language", "es")]
                   [ElementNode "group" []
                      [ElementNode "trans-unit" [("id", "greeting")]
                         [ElementNode "alt-trans" []
                            [ElementNode "target" [] [TextNode "Hola"]]]]])
                (ElementNode "trans-unit" [("id", "greeting")]
                   [ElementNode "alt-trans" []
                      [ElementNode "target" [] [TextNode "Hola"]]])
                (ElementNode "target" [] [TextNode "Hola"])
                eq_refl) as (m & Hin & Hname & Hcontents).
    + apply descendant_here. left. reflexivity.
    + reflexivity.
    + eapply descendant_below; [left; reflexivity |].
      apply descendant_here. left. reflexivity.
    + reflexivity.
    + eapply descendant_below; [left; reflexivity |].
      apply descendant_here. left. reflexivity.
    + reflexivity.
    + destruct m as [nm cs]. simpl in Hname, Hcontents.
      vm_compute in Hname. vm_compute in Hcontents.
      injection Hname as <-. injection Hcontents as <-. exact Hin.
Defined.

(** ** Indentation *)

Lemma layoutKids_cons check before close s child rest :
  layoutKids check before close (TextNode s :: child :: rest)
  = String.eqb s before && check child && layoutKids check before close rest.
Proof. reflexivity. Qed.

Lemma xlb_messages_laidOut (msgs : list ProgramMessage) :
  layoutKids (laidOut perNestingLevel ["msg"] 2) (indentText 2) (indentText 1)
    (flat_map (fun m => [Xlb.indent 2; Xlb.messageNode m]) msgs ++ [Xlb.indent 1])
  = true.
Proof.
  induction msgs as [| m msgs IH]; [reflexivity |].
  cbn [flat_map app]. unfold Xlb.indent at 1. cbn [layoutKids].
  rewrite IH. unfold indentText. rewrite String.eqb_refl. reflexivity.
Qed.

Lemma xliff_transUnit_laidOut (tb : gmap string Message) (m : ProgramMessage) :
  laidOut belowTransUnit ["note"; "source"; "target"] 3 (Xliff.transUnitNode tb m)
  = true.
Proof.
  unfold Xliff.transUnitNode.
  destruct (descStack m) as [| d ds]; destruct (tb !! pname m) as [t |];
    reflexivity.
Qed.

Lemma xliff_body_laidOut (tb : gmap string Message) (msgs : list ProgramMessage) :
  layoutKids (laidOut belowTransUnit ["note"; "source"; "target"] 3)
    (indentText 0) (indentText 0)
    (Xliff.indent 0 ::
     flat_map (fun m => [Xliff.transUnitNode tb m; Xliff.indent 0]) msgs)
  = true.
Proof.
  induction msgs as [| m msgs IH]; [reflexivity |].
  cbn [flat_map app]. unfold Xliff.indent at 1.
  rewrite layoutKids_cons, xliff_transUnit_laidOut, IH. reflexivity.
Qed.

(** C9 (as stated, refuted).  The XLIFF encoder does not indent by nesting
    level: the `file` element is nested one level inside `xliff`, yet the text
    node written before it is a bare newline. *)
Lemma xliff_indentation_counterexample :
  documentLaidOut perNestingLevel ["note"; "source"; "target"]
    (Xliff.encodeLocale makeMessageIdMap "en" [greeting] "es" [saludo]) = false
  /\ (exists attrs file rest,
        nth_error (Xliff.encodeLocale makeMessageIdMap "en" [greeting] "es" [saludo]) 2
        = Some (ElementNode "xliff" attrs (TextNode nl :: file :: rest))
        /\ isElementNamed "file" file = true
        /\ nl <> indentText 1).
Proof.
  split; [vm_compute; reflexivity |].
  do 3 eexists. split; [vm_compute; reflexivity |].
  split; [reflexivity | discriminate].
Qed.

(** C9 (amended).  The document each encoder builds is a function of its
    inputs alone, and every text node it inserts between elements is one
    newline followed by a whole number of two-space steps.  In XLB the number
    of steps is the nesting depth.  In XLIFF it is the nesting depth below the
    `trans-unit` elements: the `xliff`, `file`, `body` and `trans-unit`
    boundaries get a bare newline, the children of a `trans-unit` one step. *)
Theorem encoders_indentation
  (mk : list Message -> gmap string Message)
  (sourceLocale targetLocale : string)
  (sourceMessages : list ProgramMessage) (targetMessages : list Message) :
  documentLaidOut perNestingLevel ["msg"]
    (Xlb.writeOutput sourceLocale sourceMessages) = true
  /\ documentLaidOut belowTransUnit ["note"; "source"; "target"]
       (Xliff.encodeLocale mk sourceLocale sourceMessages targetLocale targetMessages)
     = true.
Proof.
  split.
  - unfold Xlb.writeOutput.
    generalize (xlb_messages_laidOut sourceMessages).
    generalize (flat_map (fun m => [Xlb.indent 2; Xlb.messageNode m]) sourceMessages
                ++ [Xlb.indent 1])%list.
    intros kids Hkids. unfold Xlb.indent. cbn. cbn in Hkids.
    rewrite Hkids. reflexivity.
  - unfold Xliff.encodeLocale.
    generalize (xliff_body_laidOut (mk targetMessages) sourceMessages).
    generalize (flat_map (fun m => [Xliff.transUnitNode (mk targetMessages) m;
                                    Xliff.indent 0]) sourceMessages).
    intros kids Hkids. unfold Xliff.indent in *. cbn. cbn in Hkids.
    rewrite Hkids. reflexivity.
Qed.

(** ** Reading translations *)

Section ReadFacts.

Variable readFile : string -> XliffRead.ReadOutcome.
Variable pathJoin : string -> string -> string.
Variable resolve : string -> string.
Variable parseFromString : string -> Document.
Variable xliffDir : string.

#[local] Abbreviation readLocale := (XliffRead.readLocale readFile pathJoin resolve parseFromString xliffDir).
#[local] Abbreviation readTranslations := (XliffRead.readTranslations readFile pathJoin resolve parseFromString xliffDir).
#[local] Abbreviation localePath := (XliffRead.localePath pathJoin resolve xliffDir).

Lemma readTranslations_paths (targetLocales : list string) :
  fst (readTranslations targetLocales) = map localePath targetLocales.
Proof.
  unfold XliffRead.readTranslations. cbn [fst]. rewrite map_map.
  apply map_ext. reflexivity.
Qed.

Lemma readTranslations_cons (loc : string) (rest : list string) :
  snd (readTranslations (loc :: rest))
  = try! b := snd (readLocale loc) in
    try! bs := snd (readTranslations rest) in
    Ok (match b with Some x => x :: bs | None => bs end).
Proof.
  unfold XliffRead.readTranslations. cbn [snd map mapR].
  destruct (snd (readLocale loc)) as [b |]; [| reflexivity].
  cbn [bindR].
  destruct (mapR snd (map readLocale rest)) as [bs |]; [| reflexivity].
  cbn [bindR]. destruct b; reflexivity.
Qed.

Lemma readTranslations_missing (loc : string) (rest : list string) :
  readFile (localePath loc) = XliffRead.Rejected "ENOENT" ->
  snd (readTranslations (loc :: rest)) = snd (readTranslations rest).
Proof.
  intros Hmiss. rewrite readTranslations_cons.
  unfold XliffRead.readLocale at 1. cbn [snd]. rewrite Hmiss.
  rewrite String.eqb_refl. cbn [bindR].
  destruct (snd (readTranslations rest)); reflexivity.
Qed.

Lemma readTranslations_skips_missing (targetLocales : list string) :
  snd (readTranslations targetLocales)
  = snd (readTranslations
           (List.filter (fun loc => negb (XliffRead.isMissing (readFile (localePath loc))))
                        targetLocales)).
Proof.
  induction targetLocales as [| loc rest IH]; [reflexivity |].
  cbn [List.filter].
  destruct (XliffRead.isMissing (readFile (localePath loc))) eqn:Hloc; cbn [negb].
  - rewrite readTranslations_missing, IH; [reflexivity |].
    unfold XliffRead.isMissing in Hloc.
    destruct (readFile (localePath loc)) as [x | code]; [discriminate |].
    apply String.eqb_eq in Hloc. congruence.
  - rewrite !readTranslations_cons, IH. reflexivity.
Qed.

Lemma readTranslations_failure (targetLocales : list string) (loc code : string) :
  In loc targetLocales ->
  readFile (localePath loc) = XliffRead.Rejected code ->
  code <> "ENOENT" ->
  exists e, snd (readTranslations targetLocales) = Throw e.
Proof.
  intros Hin Hread Hcode.
  induction targetLocales as [| l rest IH]; [destruct Hin |].
  rewrite readTranslations_cons.
  destruct Hin as [-> | Hin].
  - unfold XliffRead.readLocale at 1. cbn [snd]. rewrite Hread.
    destruct (String.eqb_spec code "ENOENT") as [E | _]; [contradiction |].
    cbn. eauto.
  - destruct (IH Hin) as [e ->].
    destruct (snd (readLocale l)); cbn; eauto.
Qed.

End ReadFacts.

(** C5.  For the configured target locales the reader attempts exactly the
    paths `join(resolve(xliffDir), locale + '.xlf')`, one per locale; a locale
    whose file is missing (`ENOENT`) contributes nothing and is no error, so
    the result is that of reading the other locales alone; a rejection with
    any other code for some locale makes the whole read fail. *)
Theorem xliff_read_translations
  (readFile : string -> XliffRead.ReadOutcome)
  (pathJoin : string -> string -> string) (resolve : string -> string)
  (parseFromString : string -> Document) (xliffDir : string)
  (targetLocales : list string) :
  fst (XliffRead.readTranslations readFile pathJoin resolve parseFromString
         xliffDir targetLocales)
  = map (fun loc => pathJoin (resolve xliffDir) (loc ++ ".xlf")) targetLocales
  /\ snd (XliffRead.readTranslations readFile pathJoin resolve parseFromString
            xliffDir targetLocales)
     = snd (XliffRead.readTranslations readFile pathJoin resolve parseFromString
              xliffDir
              (List.filter
                 (fun loc => negb (XliffRead.isMissing
                                     (readFile (pathJoin (resolve xliffDir) (loc ++ ".xlf")))))
                 targetLocales))
  /\ (forall loc code,
        In loc targetLocales ->
        readFile (pathJoin (resolve xliffDir) (loc ++ ".xlf")) = XliffRead.Rejected code ->
        code <> "ENOENT" ->
        exists e, snd (XliffRead.readTranslations readFile pathJoin resolve
                         parseFromString xliffDir targetLocales) = Throw e).
Proof.
  split; [| split].
  - apply readTranslations_paths.
  - apply readTranslations_skips_missing.
  - intros loc code. apply readTranslations_failure.
Qed.

Lemma xliff_read_translations_witness :
  XliffRead.readTranslations XliffRead.exampleFiles XliffRead.examplePathJoin id
    XliffRead.exampleParser "xliff" ["es"; "fr"]
  = (["xliff/es.xlf"; "xliff/fr.xlf"], Ok [mkBundle "es" []])
  /\ (exists e,
        snd (XliffRead.readTranslations XliffRead.exampleFiles
               XliffRead.examplePathJoin id XliffRead.exampleParser "xliff"
               ["es"; "de"; "fr"]) = Throw e).
Proof.
  split; [vm_compute; reflexivity |].
  destruct (xliff_read_translations XliffRead.exampleFiles
              XliffRead.examplePathJoin id XliffRead.exampleParser "xliff"
              ["es"; "de"; "fr"]) as (_ & _ & Hfail).
  apply (Hfail "de" "EACCES").
  - simpl. right. left. reflexivity.
  - vm_compute. reflexivity.
  - discriminate.
Defined.

(** ** The transform's lookup *)

Lemma buildTranslations_snoc (msgs : list Message) (m : Message) :
  buildTranslations (msgs ++ [m]) = <[name m := m]> (buildTranslations msgs).
Proof. unfold buildTranslations. rewrite fold_left_app. reflexivity. Qed.

(** C3 (as stated, refuted).  When two messages of a bundle carry the same
    name, the transform's lookup neither rejects the later one nor keeps the
    first: the later one replaces the earlier. *)
Lemma duplicate_lookup_counterexample :
  buildTranslations [mkMessage "greeting" [Str "Hola"];
                     mkMessage "greeting" [Str "Buenos dias"]] !! "greeting"
  = Some (mkMessage "greeting" [Str "Buenos dias"])
  /\ firstNamed "greeting" [mkMessage "greeting" [Str "Hola"];
                            mkMessage "greeting" [Str "Buenos dias"]]
     = Some (mkMessage "greeting" [Str "Hola"])
  /\ buildTranslations [mkMessage "greeting" [Str "Hola"];
                        mkMessage "greeting" [Str "Buenos dias"]] !! "greeting"
     <> firstNamed "greeting" [mkMessage "greeting" [Str "Hola"];
                               mkMessage "greeting" [Str "Buenos dias"]].
Proof.
  split; [vm_compute; reflexivity |].
  split; [reflexivity |].
  vm_compute. discriminate.
Qed.

(** C3 (amended).  The lookup the transform builds from a bundle's message
    list is a function of that list which never rejects a message: under each
    name it holds the last message of the list with that name, and nothing
    under a name no message carries. *)
Theorem transform_lookup_last_wins (msgs : list Message) (k : string) :
  buildTranslations msgs !! k = lastNamed k msgs.
Proof.
  unfold lastNamed.
  induction msgs as [| m msgs IH] using rev_ind; [apply lookup_empty |].
  rewrite buildTranslations_snoc, rev_app_distr. cbn [rev app find].
  destruct (String.eqb_spec (name m) k) as [<- | Hne].
  - apply lookup_insert_eq.
  - rewrite lookup_insert_ne by exact Hne. exact IH.
Qed.

(** ** The transformer *)

Section TransformFacts.

Import Transform.

Variable typeProperties : Expr -> list string.
Variable isLitLocalizeImport : Expr -> bool.
Variable isLocaleStatusEvent : Expr -> bool.
Variable extractTemplate : option Expr -> string -> TemplateResult + string.
Variable extractOptions : option Expr -> string -> Options + string.
Variable generateMsgIdFromAstNode : Expr -> bool -> string.
Variable escapeStringToEmbedInTemplateLiteral : string -> string.
Variable createSourceFile : string -> list Expr.

#[local] Abbreviation visitNode' :=
  (Transform.visitNode typeProperties isLitLocalizeImport isLocaleStatusEvent
     extractTemplate extractOptions generateMsgIdFromAstNode
     escapeStringToEmbedInTemplateLiteral createSourceFile).
#[local] Abbreviation flatten' :=
  (Transform.recursivelyFlattenTemplate typeProperties isLitLocalizeImport
     isLocaleStatusEvent extractTemplate extractOptions generateMsgIdFromAstNode
     escapeStringToEmbedInTemplateLiteral createSourceFile).
#[local] Abbreviation replaceMsgCall' :=
  (Transform.replaceMsgCall extractTemplate extractOptions generateMsgIdFromAstNode
     escapeStringToEmbedInTemplateLiteral createSourceFile).
#[local] Abbreviation translatedTemplate' :=
  (Transform.translatedTemplate escapeStringToEmbedInTemplateLiteral createSourceFile).
#[local] Abbreviation effectiveId' :=
  (Transform.effectiveId extractTemplate extractOptions generateMsgIdFromAstNode).
#[local] Abbreviation body' :=
  (Transform.templateLiteralBody escapeStringToEmbedInTemplateLiteral).

Lemma visitNode_S translations locale sourceFile (fuel : nat) (node : Expr) :
  visitNode' translations locale sourceFile (S fuel) node
  = visitNodeBody typeProperties isLitLocalizeImport isLocaleStatusEvent
      extractTemplate extractOptions generateMsgIdFromAstNode
      escapeStringToEmbedInTemplateLiteral createSourceFile
      translations locale sourceFile
      (visitNode' translations locale sourceFile fuel)
      (flatten' translations locale sourceFile fuel) node.
Proof. reflexivity. Qed.

Lemma recursivelyFlattenTemplate_S translations locale sourceFile (fuel : nat)
  (t : Expr) (isLit : bool) :
  flatten' translations locale sourceFile (S fuel) t isLit
  = flattenTemplate (visitNode' translations locale sourceFile fuel)
      (flatten' translations locale sourceFile fuel) t isLit.
Proof. reflexivity. Qed.

(** *** The run-time configuration call *)

Lemma configureLocalization_rejected
  (translations : option (gmap string Message)) (locale sourceFile : string)
  (fuel : nat) (callee : Expr) (args : list Expr) :
  typeHasProperty typeProperties callee "_LIT_LOCALIZE_MSG_" = false ->
  typeHasProperty typeProperties callee
    "_LIT_LOCALIZE_CONFIGURE_TRANSFORM_LOCALIZATION_" = false ->
  typeHasProperty typeProperties callee "_LIT_LOCALIZE_CONFIGURE_LOCALIZATION_" = true ->
  visitNode' translations locale sourceFile (S fuel) (CallExpression callee args)
  = Throw (KnownError
      "Cannot use configureLocalization in transform mode. Use configureTransformLocalization instead.").
Proof.
  intros Hmsg Htransform Hconfigure.
  rewrite visitNode_S. unfold visitNodeBody.
  cbn [isMsgCall isLitTemplate]. rewrite Hmsg, Htransform, Hconfigure.
  reflexivity.
Qed.

(** *** Translations and their placeholders *)




(** *** A missing translation *)

Lemma translatedTemplate_missing (lookup : gmap string Message) (msgId : string)
  (t0 : Expr) :
  lookup !! msgId = None ->
  translatedTemplate' (Some lookup) msgId t0 = translatedTemplate' None msgId t0.
Proof. intros Hmiss. unfold translatedTemplate. rewrite Hmiss. reflexivity. Qed.

Lemma replaceMsgCall_missing (lookup : gmap string Message) (sourceFile : string)
  (flatten : Expr -> bool -> Result (list Fragment)) (call : Expr) :
  (forall i, effectiveId' sourceFile call = Some i -> lookup !! i = None) ->
  replaceMsgCall' (Some lookup) sourceFile flatten call
  = replaceMsgCall' None sourceFile flatten call.
Proof.
  intros Hmiss. unfold replaceMsgCall, effectiveId in *.
  destruct (extractTemplate _ sourceFile) as [tr | err]; [| reflexivity].
  destruct (extractOptions _ sourceFile) as [opts | err]; [| reflexivity].
  rewrite translatedTemplate_missing by (apply Hmiss; reflexivity).
  reflexivity.
Qed.

Lemma makeTemplateLiteral_isTemplateLiteral (fragments : list Fragment) :
  isTemplateLiteral (makeTemplateLiteral fragments) = true.
Proof.
  unfold makeTemplateLiteral.
  destruct (collectSpans fragments) as [textBuf [| span spans]]; reflexivity.
Qed.

Lemma replaceMsgCall_replaces (translations : option (gmap string Message))
  (sourceFile : string) (flatten : Expr -> bool -> Result (list Fragment))
  (call e : Expr) :
  replaceMsgCall' translations sourceFile flatten call = Ok e ->
  isReplacement e = true.
Proof.
  unfold replaceMsgCall.
  destruct (extractTemplate _ sourceFile) as [tr | err]; [| discriminate].
  destruct (extractOptions _ sourceFile) as [opts | err]; [| discriminate].
  destruct (translatedTemplate' translations _ _) as [t1 |]; [| discriminate].
  cbn [bindR].
  destruct (substituteArguments _ _ _ t1) as [t2 |]; [| discriminate].
  cbn [bindR]. unfold finishTemplate, isReplacement.
  destruct (isStringLiteral t2) eqn:Hstr.
  - destruct (resultIsLitTemplate tr); [discriminate |].
    intros [= <-]. rewrite Hstr. reflexivity.
  - destruct (flatten t2 _) as [fragments |]; [| discriminate].
    cbn [bindR]. intros [= <-].
    destruct (resultIsLitTemplate tr).
    + unfold tagLit. cbn [isLitTemplate isStringLiteral isTemplateLiteral].
      rewrite makeTemplateLiteral_isTemplateLiteral. reflexivity.
    + rewrite makeTemplateLiteral_isTemplateLiteral, orb_true_r. reflexivity.
Qed.

Lemma visitNodeBody_missing (lookup : gmap string Message)
  (locale sourceFile : string)
  (visit : Expr -> Result (option Expr))
  (flatten : Expr -> bool -> Result (list Fragment)) (node : Expr) :
  (forall i, effectiveId' sourceFile node = Some i -> lookup !! i = None) ->
  visitNodeBody typeProperties isLitLocalizeImport isLocaleStatusEvent
    extractTemplate extractOptions generateMsgIdFromAstNode
    escapeStringToEmbedInTemplateLiteral createSourceFile
    (Some lookup) locale sourceFile visit flatten node
  = visitNodeBody typeProperties isLitLocalizeImport isLocaleStatusEvent
      extractTemplate extractOptions generateMsgIdFromAstNode
      escapeStringToEmbedInTemplateLiteral createSourceFile
      None locale sourceFile visit flatten node.
Proof.
  intros Hmiss. unfold visitNodeBody.
  destruct (isMsgCall typeProperties node); [| reflexivity].
  rewrite replaceMsgCall_missing by exact Hmiss. reflexivity.
Qed.

(** The bodies depend on [visit] and [flatten] only through their values. *)
Lemma mapR_ext {A B : Type} (f g : A -> Result B) (l : list A) :
  (forall a, f a = g a) -> mapR f l = mapR g l.
Proof.
  intros Hfg. induction l as [| a l IH]; [reflexivity |].
  cbn [mapR]. rewrite Hfg, IH. reflexivity.
Qed.

Section Extensionality.

Variables visit1 visit2 : Expr -> Result (option Expr).
Variables flatten1 flatten2 : Expr -> bool -> Result (list Fragment).
Hypothesis visit_ext : forall e, visit1 e = visit2 e.
Hypothesis flatten_ext : forall t isLit, flatten1 t isLit = flatten2 t isLit.

Lemma visitRequired_ext (e : Expr) :
  visitRequired visit1 e = visitRequired visit2 e.
Proof. unfold visitRequired. rewrite visit_ext. reflexivity. Qed.

Lemma subsume_ext (isLit : bool) (e : Expr) :
  subsume flatten1 isLit e = subsume flatten2 isLit e.
Proof. unfold subsume. destruct e; rewrite ?flatten_ext; reflexivity. Qed.

Lemma flattenSpan_ext (isLit : bool) (span : Expr * string) :
  flattenSpan visit1 flatten1 isLit span = flattenSpan visit2 flatten2 isLit span.
Proof.
  destruct span as [e literal]. unfold flattenSpan.
  rewrite subsume_ext. destruct (subsume flatten2 isLit e) as [[fs |] |];
    cbn [bindR]; try reflexivity.
  rewrite visitRequired_ext. destruct (visitRequired visit2 e) as [e' |];
    cbn [bindR]; [| reflexivity].
  rewrite subsume_ext. reflexivity.
Qed.

Lemma flattenTemplate_ext (t : Expr) (isLit : bool) :
  flattenTemplate visit1 flatten1 t isLit = flattenTemplate visit2 flatten2 t isLit.
Proof.
  unfold flattenTemplate. destruct t; try reflexivity.
  rewrite (mapR_ext _ (flattenSpan visit2 flatten2 isLit)); [reflexivity |].
  apply flattenSpan_ext.
Qed.

Lemma replaceMsgCall_ext translations sourceFile (call : Expr) :
  replaceMsgCall' translations sourceFile flatten1 call
  = replaceMsgCall' translations sourceFile flatten2 call.
Proof.
  unfold replaceMsgCall.
  destruct (extractTemplate _ sourceFile) as [tr | err]; [| reflexivity].
  destruct (extractOptions _ sourceFile) as [opts | err]; [| reflexivity].
  destruct (translatedTemplate' translations _ _) as [t1 |]; [| reflexivity].
  cbn [bindR].
  destruct (substituteArguments _ _ _ t1) as [t2 |]; [| reflexivity].
  cbn [bindR]. unfold finishTemplate. rewrite flatten_ext. reflexivity.
Qed.

Lemma visitList_ext (l : list Expr) : visitList visit1 l = visitList visit2 l.
Proof. unfold visitList. rewrite (mapR_ext _ visit2 l visit_ext). reflexivity. Qed.

Lemma visitEachChild_ext (node : Expr) :
  visitEachChild visit1 node = visitEachChild visit2 node.
Proof.
  unfold visitEachChild.
  destruct node as [s | s | head spans | tag t | s | callee args | params body
                   | props | e | m | kind kids]; try reflexivity.
  - rewrite (mapR_ext _ (fun span : Expr * string =>
                           try! e := visitRequired visit2 (fst span) in
                           Ok (e, snd span))); [reflexivity |].
    intros span. rewrite visitRequired_ext. reflexivity.
  - rewrite !visitRequired_ext. reflexivity.
  - rewrite visitRequired_ext, visitList_ext. reflexivity.
  - rewrite visitRequired_ext. reflexivity.
  - rewrite (mapR_ext _ (fun prop : string * Expr =>
                           try! e := visitRequired visit2 (snd prop) in
                           Ok (fst prop, e))); [reflexivity |].
    intros prop. rewrite visitRequired_ext. reflexivity.
  - rewrite visitRequired_ext. reflexivity.
  - rewrite visitList_ext. reflexivity.
Qed.

Lemma visitNodeBody_ext translations locale sourceFile (node : Expr) :
  visitNodeBody typeProperties isLitLocalizeImport isLocaleStatusEvent
    extractTemplate extractOptions generateMsgIdFromAstNode
    escapeStringToEmbedInTemplateLiteral createSourceFile
    translations locale sourceFile visit1 flatten1 node
  = visitNodeBody typeProperties isLitLocalizeImport isLocaleStatusEvent
      extractTemplate extractOptions generateMsgIdFromAstNode
      escapeStringToEmbedInTemplateLiteral createSourceFile
      translations locale sourceFile visit2 flatten2 node.
Proof.
  unfold visitNodeBody.
  rewrite replaceMsgCall_ext, visitEachChild_ext.
  destruct node; rewrite ?flatten_ext; reflexivity.
Qed.

End Extensionality.

Lemma visit_without_translations (lookup : gmap string Message)
  (locale sourceFile : string) (fuel : nat) :
  (forall k, lookup !! k = None) ->
  (forall node,
     visitNode' (Some lookup) locale sourceFile fuel node
     = visitNode' None locale sourceFile fuel node)
  /\ (forall t isLit,
        flatten' (Some lookup) locale sourceFile fuel t isLit
        = flatten' None locale sourceFile fuel t isLit).
Proof.
  intros Hempty. induction fuel as [| n [IHv IHf]]; [split; reflexivity |].
  split.
  - intros node. rewrite !visitNode_S.
    rewrite visitNodeBody_missing by (intros i _; apply Hempty).
    apply visitNodeBody_ext; assumption.
  - intros t isLit. rewrite !recursivelyFlattenTemplate_S.
    apply flattenTemplate_ext; assumption.
Qed.

(** C4 (amended).  When the lookup of a target-locale pass does not contain a
    call site's effective identifier, the call site is replaced exactly as if
    there were no lookup: what the source template becomes once the arguments
    are substituted and the result is flattened.  The expressions embedded in
    it are transformed under the pass's own lookup, so the replacement equals
    that of the source-locale pass whenever those are transformed alike, as
    they are when the lookup holds no translation at all.  Whenever the call
    is replaced, it is by a string literal, a template literal or an `html`
    template, never by the call itself. *)
Theorem missing_translation_fallback (lookup : gmap string Message)
  (locale sourceFile : string) (call : Expr) :
  (forall i, effectiveId' sourceFile call = Some i -> lookup !! i = None) ->
  (forall fuel,
     visitNode' (Some lookup) locale sourceFile (S fuel) call
     = visitNodeBody typeProperties isLitLocalizeImport isLocaleStatusEvent
         extractTemplate extractOptions generateMsgIdFromAstNode
         escapeStringToEmbedInTemplateLiteral createSourceFile
         None locale sourceFile
         (visitNode' (Some lookup) locale sourceFile fuel)
         (flatten' (Some lookup) locale sourceFile fuel) call)
  /\ (forall flatten,
        replaceMsgCall' (Some lookup) sourceFile flatten call
        = replaceMsgCall' None sourceFile flatten call)
  /\ (forall translations flatten e,
        replaceMsgCall' translations sourceFile flatten call = Ok e ->
        isReplacement e = true)
  /\ ((forall k, lookup !! k = None) ->
      forall fuel node,
        visitNode' (Some lookup) locale sourceFile fuel node
        = visitNode' None locale sourceFile fuel node).
Proof.
  intros Hmiss. split; [| split; [| split]].
  - intros fuel. rewrite visitNode_S.
    apply visitNodeBody_missing. exact Hmiss.
  - intros flatten. apply replaceMsgCall_missing. exact Hmiss.
  - intros translations flatten e. apply replaceMsgCall_replaces.
  - intros Hempty fuel node.
    apply (visit_without_translations lookup locale sourceFile fuel Hempty).
Qed.



(** *** Flattening twice *)

Lemma subsume_not_subsumable
  (flatten : Expr -> bool -> Result (list Fragment)) (isLit : bool) (e : Expr) :
  subsumable isLit e = false -> subsume flatten isLit e = Ok None.
Proof.
  unfold subsumable, subsume. intros H.
  apply orb_false_elim in H. destruct H as [H Hlit].
  apply orb_false_elim in H. destruct H as [Hstr Htpl].
  rewrite Htpl, Hlit. destruct e; try reflexivity. discriminate Hstr.
Qed.

Lemma flattenSpan_kept (visit : Expr -> Result (option Expr))
  (flatten : Expr -> bool -> Result (list Fragment)) (isLit : bool)
  (e : Expr) (literal : string) :
  subsumable isLit e = false -> visit e = Ok (Some e) ->
  flattenSpan visit flatten isLit (e, literal)
  = Ok [FExpression e; FString literal].
Proof.
  intros Hsub Hvisit. unfold flattenSpan, visitRequired.
  rewrite (subsume_not_subsumable flatten isLit e Hsub). cbn [bindR].
  rewrite Hvisit. cbn [bindR].
  rewrite (subsume_not_subsumable flatten isLit e Hsub). reflexivity.
Qed.

Lemma collectSpans_slots (fragments : list Fragment) :
  map fst (snd (collectSpans fragments)) = slots fragments.
Proof.
  induction fragments as [| [s | e] rest IH]; [reflexivity | |];
    cbn [collectSpans slots]; destruct (collectSpans rest) as [textBuf spans];
    cbn [snd map fst] in *; congruence.
Qed.

Lemma flatten_kept_spans (visit : Expr -> Result (option Expr))
  (flatten : Expr -> bool -> Result (list Fragment)) (isLit : bool)
  (spans : list (Expr * string)) :
  Forall (fun e => subsumable isLit e = false /\ visit e = Ok (Some e))
         (map fst spans) ->
  mapR (flattenSpan visit flatten isLit) spans
  = Ok (map (fun span => [FExpression (fst span); FString (snd span)]) spans).
Proof.
  induction spans as [| [e literal] spans IH]; intros Hall; [reflexivity |].
  inversion Hall as [| ? ? [Hsub Hvisit] Hrest]; subst.
  cbn [mapR map fst snd]. rewrite flattenSpan_kept by assumption.
  cbn [bindR]. rewrite IH by assumption. reflexivity.
Qed.

Lemma collectSpans_kept (spans : list (Expr * string)) :
  collectSpans
    (concat (map (fun span => [FExpression (fst span); FString (snd span)]) spans))
  = (EmptyString, spans).
Proof.
  induction spans as [| [e literal] spans IH]; [reflexivity |].
  cbn [map concat app fst snd collectSpans]. rewrite IH.
  rewrite append_empty_r. reflexivity.
Qed.

Lemma flattenTemplate_again (visit : Expr -> Result (option Expr))
  (flatten : Expr -> bool -> Result (list Fragment)) (isLit : bool)
  (fragments : list Fragment) :
  Forall (fun e => subsumable isLit e = false /\ visit e = Ok (Some e))
         (slots fragments) ->
  exists fragments',
    flattenTemplate visit flatten (makeTemplateLiteral fragments) isLit
    = Ok fragments'
    /\ makeTemplateLiteral fragments' = makeTemplateLiteral fragments.
Proof.
  intros Hall. rewrite <- collectSpans_slots in Hall.
  unfold makeTemplateLiteral at 1 3.
  destruct (collectSpans fragments) as [textBuf [| span spans]]; cbn [snd] in Hall.
  - eexists. split; [reflexivity |].
    unfold makeTemplateLiteral. cbn [collectSpans].
    rewrite append_empty_r. reflexivity.
  - eexists. cbn [flattenTemplate].
    rewrite (flatten_kept_spans visit flatten isLit (span :: spans) Hall).
    cbn [bindR]. split; [reflexivity |].
    unfold makeTemplateLiteral. cbn [collectSpans].
    rewrite (collectSpans_kept (span :: spans)), append_empty_r. reflexivity.
Qed.

(** C8 (amended).  Let a template be flattened and rebuilt.  If each
    expression slot that remains is one the transformer leaves as it is, and
    is not itself a string literal, a template literal or (in a rich
    template) an `html` template, then flattening and rebuilding the result
    once more succeeds and gives the same template. *)
Theorem flattening_idempotent (translations : option (gmap string Message))
  (locale sourceFile : string) (fuel fuel' : nat) (t : Expr) (isLit : bool)
  (fragments : list Fragment) :
  flatten' translations locale sourceFile fuel t isLit = Ok fragments ->
  Forall (fun e => subsumable isLit e = false
                   /\ visitNode' translations locale sourceFile fuel' e = Ok (Some e))
         (slots fragments) ->
  exists fragments',
    flatten' translations locale sourceFile (S fuel')
      (makeTemplateLiteral fragments) isLit = Ok fragments'
    /\ makeTemplateLiteral fragments' = makeTemplateLiteral fragments.
Proof.
  intros _ Hall. rewrite recursivelyFlattenTemplate_S.
  apply flattenTemplate_again. exact Hall.
Qed.

End TransformFacts.

(** ** The properties on concrete programs *)

Import Transform.

(** C7.  A call of `configureLocalization` is a fatal user-facing error and
    is never rewritten, but the error does not identify the file: it is the
    same fixed message whatever the file, and the file's name does not occur
    in it. *)
Theorem configureLocalization_error_names_no_file :
  TransformExample.visitNode None "es" "src/app.ts" 1 Scenario.configureCall
  = Throw (KnownError Scenario.configureMessage)
  /\ TransformExample.visitNode None "es" "src/other.ts" 1 Scenario.configureCall
     = TransformExample.visitNode None "es" "src/app.ts" 1 Scenario.configureCall
  /\ occursIn "src/app.ts" Scenario.configureMessage = false
  /\ occursIn "app" Scenario.configureMessage = false.
Proof.
  assert (forall file,
            TransformExample.visitNode None "es" file 1 Scenario.configureCall
            = Throw (KnownError Scenario.configureMessage)) as H.
  { intros file. apply configureLocalization_rejected; reflexivity. }
  rewrite !H. repeat split; vm_compute; reflexivity.
Qed.

(** The assumption is needed: a translation that was not validated is
    emitted as it is.  The `greeting` call site has the placeholders `<b>`
    and `</b>` in its source message; with a translation whose only
    placeholder is `<i>`, the rewrite emits `<i>` and no `<b>`. *)
Example unvalidated_translation_emitted :
  TransformExample.visitNode
    (Some (buildTranslations [Scenario.italicSaludo])) "es" "src/app.ts" 3
    Scenario.greetingCall
  = Ok (Some (TransformExample.html (NoSubstitutionTemplateLiteral "Hola <i>Mundo")))
  /\ ~ In "<i>" (placeholders (pcontents greeting))
  /\ In "<b>" (placeholders (pcontents greeting))
  /\ occursIn "<b>" "Hola <i>Mundo" = false.
Proof.
  split; [vm_compute; reflexivity |].
  split; [simpl; intros [H | [H | []]]; discriminate |].
  split; [simpl; auto |].
  vm_compute; reflexivity.
Qed.


(** C4 (as stated, refuted).  The lookup does not contain `outer`, the
    identifier of the call site, but it translates `inner`, a call site among
    its arguments: the target-locale replacement reads `Hello Mundo!` where
    the source-locale replacement reads `Hello World!`. *)
Lemma missing_translation_counterexample :
  Scenario.innerOnly !! "outer" = None
  /\ TransformExample.visitNode (Some Scenario.innerOnly) "es" "src/app.ts" 6
       Scenario.nestedCall
     = Ok (Some (NoSubstitutionTemplateLiteral "Hello Mundo!"))
  /\ TransformExample.visitNode None "es" "src/app.ts" 6 Scenario.nestedCall
     = Ok (Some (NoSubstitutionTemplateLiteral "Hello World!")).
Proof.
  split; [| split]; vm_compute; reflexivity.
Qed.

Lemma missing_translation_fallback_witness :
  TransformExample.visitNode (Some Scenario.farewellOnly) "fr" "src/app.ts" 3
    Scenario.greetingCall
  = Ok (Some (TransformExample.html
                (NoSubstitutionTemplateLiteral "Hello <b>World</b>")))
  /\ TransformExample.visitNode None "fr" "src/app.ts" 3 Scenario.greetingCall
     = Ok (Some (TransformExample.html
                   (NoSubstitutionTemplateLiteral "Hello <b>World</b>"))).
Proof.
  destruct (missing_translation_fallback
              TransformExample.typeProperties TransformExample.isLitLocalizeImport
              TransformExample.isLocaleStatusEvent TransformExample.extractTemplate
              TransformExample.extractOptions TransformExample.generateMsgIdFromAstNode
              TransformExample.escapeStringToEmbedInTemplateLiteral
              TransformExample.createSourceFile
              Scenario.farewellOnly "fr" "src/app.ts" Scenario.greetingCall)
    as (Hvisit & _).
  - intros i Hid. vm_compute in Hid. injection Hid as <-.
    unfold Scenario.farewellOnly, buildTranslations. simpl.
    rewrite lookup_insert_ne by discriminate. apply lookup_empty.
  - split.
    + unfold TransformExample.visitNode. rewrite (Hvisit 2).
      vm_compute. reflexivity.
    + vm_compute. reflexivity.
Defined.

(** C8 (as stated, refuted).  Flattening html`a${`b${html`c`}`}` keeps the
    inner `html` template as an expression slot, because it was met inside a
    plain template; the result is html`ab${html`c`}`.  Flattening that result
    takes the slot in: html`abc`. *)
Lemma flattening_counterexample :
  exists fragments fragments',
    TransformExample.recursivelyFlattenTemplate None "en" "src/app.ts" 5
      Scenario.nestedTemplate true = Ok fragments
    /\ makeTemplateLiteral fragments
       = TemplateExpression "ab"
           [(TransformExample.html (NoSubstitutionTemplateLiteral "c"), EmptyString)]
    /\ TransformExample.recursivelyFlattenTemplate None "en" "src/app.ts" 5
         (makeTemplateLiteral fragments) true = Ok fragments'
    /\ makeTemplateLiteral fragments' = NoSubstitutionTemplateLiteral "abc"
    /\ makeTemplateLiteral fragments' <> makeTemplateLiteral fragments.
Proof.
  do 2 eexists.
  split; [vm_compute; reflexivity |].
  split; [vm_compute; reflexivity |].
  split; [vm_compute; reflexivity |].
  split; [vm_compute; reflexivity |].
  vm_compute. discriminate.
Qed.

Lemma flattening_idempotent_witness :
  exists fragments',
    TransformExample.recursivelyFlattenTemplate None "en" "src/app.ts" 3
      (makeTemplateLiteral [FString "Hello "; FExpression (Identifier "name"); FString "!"])
      true = Ok fragments'
    /\ makeTemplateLiteral fragments'
       = makeTemplateLiteral
           [FString "Hello "; FExpression (Identifier "name"); FString "!"].
Proof.
  apply (flattening_idempotent
           TransformExample.typeProperties TransformExample.isLitLocalizeImport
           TransformExample.isLocaleStatusEvent TransformExample.extractTemplate
           TransformExample.extractOptions TransformExample.generateMsgIdFromAstNode
           TransformExample.escapeStringToEmbedInTemplateLiteral
           TransformExample.createSourceFile
           None "en" "src/app.ts" 3 2 Scenario.helloName true).
  - vm_compute. reflexivity.
  - repeat constructor.
Defined.

(** The specification's scenario: `greeting`, written as XLIFF for `es`
    together with its translation and read back, is exactly the translated
    message. *)
Example greeting_scenario :
  Xliff.parseXlif
    (reparse (Xliff.encodeLocale makeMessageIdMap "en" [greeting] "es" [saludo]))
  = Ok (mkBundle "es" [saludo]).
Proof. vm_compute. reflexivity. Qed.

(** * Further properties of the code *)

(** ** `makeTemplateLiteral` *)

Section MakeTemplateLiteralFacts.

Import Transform TransformMore.

Lemma collectSpans_app_string (pre : list Fragment)
  (post post' : list Fragment) :
  collectSpans post = collectSpans post' ->
  collectSpans (pre ++ post) = collectSpans (pre ++ post').
Proof.
  intros Hpost. induction pre as [| [s | e] pre IH]; cbn [app collectSpans];
    [exact Hpost | rewrite IH; reflexivity | rewrite IH; reflexivity].
Qed.

(** X1.  `makeTemplateLiteral` undoes the deconstruction of a template: built
    from the head, the expressions and the texts of a parsed template literal,
    the result is that template. *)
Theorem makeTemplateLiteral_fragmentsOf (t : Expr) :
  isParsedTemplate t = true ->
  makeTemplateLiteral (fragmentsOf t) = t.
Proof.
  destruct t as [s | s | head spans | tag t | s | callee args | params body
                | props | e | m | kind kids]; try discriminate.
  - intros _. unfold makeTemplateLiteral. cbn [fragmentsOf collectSpans].
    rewrite append_empty_r. reflexivity.
  - destruct spans as [| span spans]; [discriminate |]. intros _.
    unfold makeTemplateLiteral. cbn [fragmentsOf collectSpans].
    assert (forall l : list (Expr * string),
              collectSpans
                (flat_map (fun span => [FExpression (fst span); FString (snd span)]) l)
              = (EmptyString, l)) as Hspans.
    { induction l as [| [e literal] l IH]; [reflexivity |].
      cbn [flat_map app fst snd collectSpans]. rewrite IH, append_empty_r.
      reflexivity. }
    rewrite Hspans, append_empty_r. reflexivity.
Qed.

Lemma makeTemplateLiteral_fragmentsOf_witness :
  makeTemplateLiteral (fragmentsOf Scenario.helloName) = Scenario.helloName.
Proof. apply makeTemplateLiteral_fragmentsOf. reflexivity. Defined.

(** X2.  `makeTemplateLiteral` collapses contiguous strings and keeps the
    expressions: two adjacent string fragments give the same template as
    their concatenation, an empty string fragment next to another string
    changes nothing, and the expressions of the result are those of the
    fragment list, in order. *)
Theorem makeTemplateLiteral_collapses (pre post : list Fragment) (a b : string) :
  makeTemplateLiteral (pre ++ FString a :: FString b :: post)
  = makeTemplateLiteral (pre ++ FString (a ++ b) :: post)
  /\ makeTemplateLiteral (pre ++ FString EmptyString :: FString b :: post)
     = makeTemplateLiteral (pre ++ FString b :: post)
  /\ templateSlots (makeTemplateLiteral (pre ++ FString a :: post))
     = (slots pre ++ slots post)%list.
Proof.
  split; [| split].
  - unfold makeTemplateLiteral.
    rewrite (collectSpans_app_string pre _ (FString (a ++ b) :: post));
      [reflexivity |].
    cbn [collectSpans]. destruct (collectSpans post) as [textBuf spans].
    rewrite append_assoc. reflexivity.
  - unfold makeTemplateLiteral.
    rewrite (collectSpans_app_string pre _ (FString b :: post));
      [reflexivity |].
    cbn [collectSpans]. destruct (collectSpans post) as [textBuf spans].
    reflexivity.
  - assert (forall l, templateSlots (makeTemplateLiteral l) = slots l) as Hslots.
    { intros l. rewrite <- collectSpans_slots. unfold makeTemplateLiteral.
      destruct (collectSpans l) as [textBuf [| span spans]]; reflexivity. }
    rewrite Hslots. clear Hslots.
    induction pre as [| [s | e] pre IH]; cbn [app slots]; [reflexivity | exact IH |].
    rewrite IH. reflexivity.
Qed.

End MakeTemplateLiteralFacts.

(** ** More of the transformer *)

Section TransformMoreFacts.

Import Transform TransformMore.

Variable typeProperties : Expr -> list string.
Variable isLitLocalizeImport : Expr -> bool.
Variable isLocaleStatusEvent : Expr -> bool.
Variable extractTemplate : option Expr -> string -> TemplateResult + string.
Variable extractOptions : option Expr -> string -> Options + string.
Variable generateMsgIdFromAstNode : Expr -> bool -> string.
Variable escapeStringToEmbedInTemplateLiteral : string -> string.
Variable createSourceFile : string -> list Expr.

#[local] Abbreviation visitNode'' :=
  (Transform.visitNode typeProperties isLitLocalizeImport isLocaleStatusEvent
     extractTemplate extractOptions generateMsgIdFromAstNode
     escapeStringToEmbedInTemplateLiteral createSourceFile).
#[local] Abbreviation flatten'' :=
  (Transform.recursivelyFlattenTemplate typeProperties isLitLocalizeImport
     isLocaleStatusEvent extractTemplate extractOptions generateMsgIdFromAstNode
     escapeStringToEmbedInTemplateLiteral createSourceFile).
#[local] Abbreviation replaceMsgCall'' :=
  (Transform.replaceMsgCall extractTemplate extractOptions generateMsgIdFromAstNode
     escapeStringToEmbedInTemplateLiteral createSourceFile).
#[local] Abbreviation effectiveId'' :=
  (Transform.effectiveId extractTemplate extractOptions generateMsgIdFromAstNode).

(** *** What flattening keeps as an expression *)

Lemma slots_app (l1 l2 : list Fragment) :
  slots (l1 ++ l2) = (slots l1 ++ slots l2)%list.
Proof.
  induction l1 as [| [s | e] l1 IH]; cbn [app slots]; [reflexivity | exact IH |].
  rewrite IH. reflexivity.
Qed.

Lemma mapR_ok_Forall {A B : Type} (f : A -> Result B) (P : B -> Prop)
  (l : list A) (ys : list B) :
  (forall a b, f a = Ok b -> P b) -> mapR f l = Ok ys -> Forall P ys.
Proof.
  intros Hf. revert ys. induction l as [| a l IH]; intros ys; cbn [mapR].
  - intros [= <-]. constructor.
  - destruct (f a) as [b |] eqn:Ha; [| discriminate]. cbn [bindR].
    destruct (mapR f l) as [bs |]; [| discriminate]. cbn [bindR].
    intros [= <-]. constructor; [eapply Hf; exact Ha | apply IH; reflexivity].
Qed.

Lemma slots_concat (P : Expr -> Prop) (pieces : list (list Fragment)) :
  Forall (fun piece => Forall P (slots piece)) pieces ->
  Forall P (slots (concat pieces)).
Proof.
  induction 1 as [| piece pieces Hpiece _ IH]; [constructor |].
  cbn [concat]. rewrite slots_app. apply Forall_app. split; assumption.
Qed.

Lemma subsume_none_notLiteral
  (flatten : Expr -> bool -> Result (list Fragment)) (isLit : bool) (e : Expr) :
  subsume flatten isLit e = Ok None -> notLiteral e.
Proof.
  unfold subsume, notLiteral.
  destruct e as [s | s | head spans | tag t | s | callee args | params body
                | props | e' | m | kind kids];
    cbn [isTemplateLiteral isStringLiteral]; try (intros _; split; reflexivity);
    try discriminate.
  - destruct (flatten _ false); discriminate.
  - destruct (flatten _ false); discriminate.
Qed.

Lemma subsume_some_slots
  (flatten : Expr -> bool -> Result (list Fragment)) (P : Expr -> Prop)
  (isLit : bool) (e : Expr) (fs : list Fragment) :
  (forall t b frags, flatten t b = Ok frags -> Forall P (slots frags)) ->
  subsume flatten isLit e = Ok (Some fs) -> Forall P (slots fs).
Proof.
  intros Hflatten. unfold subsume.
  destruct e as [s | s | head spans | tag t | s | callee args | params body
                | props | e' | m | kind kids];
    cbn [isTemplateLiteral];
    try (destruct (isLit && isLitTemplate _); discriminate).
  - intros [= <-]. constructor.
  - destruct (flatten _ false) as [frags |] eqn:Hf; [| discriminate].
    cbn [bindR]. intros [= <-]. eapply Hflatten. exact Hf.
  - destruct (flatten _ false) as [frags |] eqn:Hf; [| discriminate].
    cbn [bindR]. intros [= <-]. eapply Hflatten. exact Hf.
  - destruct (isLit && isLitTemplate (TaggedTemplate tag t)); [| discriminate].
    destruct (flatten t true) as [frags |] eqn:Hf; [| discriminate].
    cbn [bindR]. intros [= <-]. eapply Hflatten. exact Hf.
Qed.

Lemma flattenSpan_slots (visit : Expr -> Result (option Expr))
  (flatten : Expr -> bool -> Result (list Fragment))
  (isLit : bool) (span : Expr * string) (fs : list Fragment) :
  (forall t b frags, flatten t b = Ok frags -> Forall notLiteral (slots frags)) ->
  flattenSpan visit flatten isLit span = Ok fs -> Forall notLiteral (slots fs).
Proof.
  intros Hflatten. destruct span as [e literal]. unfold flattenSpan.
  destruct (subsume flatten isLit e) as [[direct |] |] eqn:Hdirect;
    cbn [bindR]; [| | discriminate].
  - intros [= <-]. rewrite slots_app. apply Forall_app. split; [| constructor].
    eapply subsume_some_slots; eassumption.
  - destruct (visitRequired visit e) as [e' |]; cbn [bindR]; [| discriminate].
    destruct (subsume flatten isLit e') as [[after |] |] eqn:Hafter;
      cbn [bindR]; [| | discriminate].
    + intros [= <-]. rewrite slots_app. apply Forall_app. split; [| constructor].
      eapply subsume_some_slots; eassumption.
    + intros [= <-]. cbn [slots]. constructor; [| constructor].
      eapply subsume_none_notLiteral. exact Hafter.
Qed.

(** X3.  Whatever `recursivelyFlattenTemplate` keeps as an expression among
    the fragments is neither a string literal nor a template literal: those
    are always taken into the text. *)
Theorem flatten_keeps_no_literal (translations : option (gmap string Message))
  (locale sourceFile : string) (fuel : nat) (t : Expr) (isLit : bool)
  (fragments : list Fragment) :
  flatten'' translations locale sourceFile fuel t isLit = Ok fragments ->
  Forall notLiteral (slots fragments).
Proof.
  revert t isLit fragments.
  induction fuel as [| n IH]; intros t isLit fragments; [discriminate |].
  rewrite recursivelyFlattenTemplate_S. unfold flattenTemplate.
  destruct t as [s | s | head spans | tag t | s | callee args | params body
                | props | e' | m | kind kids]; try discriminate.
  - intros [= <-]. constructor.
  - destruct (mapR _ spans) as [pieces |] eqn:Hpieces; [| discriminate].
    cbn [bindR]. intros [= <-]. cbn [slots].
    apply slots_concat.
    eapply mapR_ok_Forall; [| exact Hpieces].
    intros span fs. apply flattenSpan_slots. exact IH.
Qed.

(** *** A translated call site *)

Lemma parseStringAsTemplateLiteral_template (body : string) (t : Expr) :
  parseStringAsTemplateLiteral createSourceFile body = Ok t ->
  isTemplateLiteral t = true.
Proof.
  unfold parseStringAsTemplateLiteral.
  destruct (createSourceFile _) as [| statement [| other rest]]; try discriminate.
  destruct statement; try discriminate.
  destruct (isTemplateLiteral _) eqn:Ht; [| discriminate].
  intros [= <-]. exact Ht.
Qed.

Lemma substituteArguments_template (templateArg : option Expr)
  (templateResult : TemplateResult) (options : Options) (t1 t2 : Expr) :
  isTemplateLiteral t1 = true ->
  substituteArguments templateArg templateResult options t1 = Ok t2 ->
  isTemplateLiteral t2 = true.
Proof.
  intros Ht1. unfold substituteArguments.
  destruct (_ && isTemplateExpression t1) eqn:Hcond; [| intros [= <-]; exact Ht1].
  apply andb_true_iff in Hcond. destruct Hcond as [_ Hexpr].
  destruct t1; try discriminate Hexpr.
  destruct (resultParams templateResult); [| discriminate].
  destruct (optionsArgs options); [| discriminate].
  cbn [substituteIdentsInExpressions].
  destruct (mapR _ _); [| discriminate]. cbn [bindR]. intros [= <-]. reflexivity.
Qed.

(** X4.  A call site that has a translation is never replaced by a string
    literal, even when its source template is one: the translation is parsed
    as a template literal, and the replacement is a template literal or an
    `html` template. *)
Theorem translated_call_is_template (lookup : gmap string Message)
  (sourceFile : string) (flatten : Expr -> bool -> Result (list Fragment))
  (call : Expr) (msgId : string) (translation : Message) (e : Expr) :
  effectiveId'' sourceFile call = Some msgId ->
  lookup !! msgId = Some translation ->
  replaceMsgCall'' (Some lookup) sourceFile flatten call = Ok e ->
  isStringLiteral e = false
  /\ (isTemplateLiteral e = true \/ isLitTemplate e = true).
Proof.
  unfold effectiveId, replaceMsgCall. intros Hid Hlook.
  destruct (extractTemplate _ sourceFile) as [tr | err]; [| discriminate].
  destruct (extractOptions _ sourceFile) as [opts | err]; [| discriminate].
  injection Hid as Hid. rewrite Hid. unfold translatedTemplate. rewrite Hlook.
  destruct (parseStringAsTemplateLiteral _ _) as [t1 |] eqn:Ht1; [| discriminate].
  apply parseStringAsTemplateLiteral_template in Ht1. cbn [bindR].
  destruct (substituteArguments _ tr opts t1) as [t2 |] eqn:Ht2; [| discriminate].
  apply (substituteArguments_template _ _ _ _ _ Ht1) in Ht2. cbn [bindR].
  unfold finishTemplate.
  assert (isStringLiteral t2 = false) as -> by (destruct t2; try discriminate; reflexivity).
  destruct (flatten t2 _) as [fragments |]; [| discriminate]. cbn [bindR].
  intros [= <-].
  pose proof (makeTemplateLiteral_isTemplateLiteral fragments) as Hmk.
  destruct (resultIsLitTemplate tr).
  - split; [reflexivity |]. right. unfold tagLit. cbn [isLitTemplate].
    rewrite Hmk. reflexivity.
  - split; [| left; exact Hmk].
    destruct (makeTemplateLiteral fragments); try discriminate; reflexivity.
Qed.

(** *** Code that does not use the library *)

Lemma visitRequired_same (visit : Expr -> Result (option Expr)) (e : Expr) :
  visit e = Ok (Some e) -> visitRequired visit e = Ok e.
Proof. intros H. unfold visitRequired. rewrite H. reflexivity. Qed.

Lemma visitList_same (visit : Expr -> Result (option Expr)) (l : list Expr) :
  Forall (fun e => visit e = Ok (Some e)) l -> visitList visit l = Ok l.
Proof.
  unfold visitList. induction 1 as [| e l He _ IH]; [reflexivity |].
  cbn [mapR]. rewrite He. cbn [bindR].
  destruct (mapR visit l) as [rs |]; [| discriminate].
  cbn [bindR] in *. injection IH as IH. cbn [omap list_omap id].
  change (list_omap ?A ?B ?f rs) with (omap f rs). rewrite IH. reflexivity.
Qed.

Lemma visitSpans_same (visit : Expr -> Result (option Expr))
  (spans : list (Expr * string)) :
  Forall (fun span => visit (fst span) = Ok (Some (fst span))) spans ->
  mapR (fun span : Expr * string =>
          try! e := visitRequired visit (fst span) in Ok (e, snd span)) spans
  = Ok spans.
Proof.
  induction 1 as [| [e literal] spans He _ IH]; [reflexivity |].
  cbn [mapR fst snd] in *. rewrite (visitRequired_same visit e He). cbn [bindR].
  rewrite IH. reflexivity.
Qed.

Lemma visitProps_same (visit : Expr -> Result (option Expr))
  (props : list (string * Expr)) :
  Forall (fun prop => visit (snd prop) = Ok (Some (snd prop))) props ->
  mapR (fun prop : string * Expr =>
          try! e := visitRequired visit (snd prop) in Ok (fst prop, e)) props
  = Ok props.
Proof.
  induction 1 as [| [k e] props He _ IH]; [reflexivity |].
  cbn [mapR fst snd] in *. rewrite (visitRequired_same visit e He). cbn [bindR].
  rewrite IH. reflexivity.
Qed.

Lemma list_max_bound {A : Type} (f : A -> nat) (l : list A) (n : nat) :
  list_max (map f l) < n -> Forall (fun a => f a < n) l.
Proof.
  intros H. apply Forall_forall. intros a Ha.
  pose proof (proj1 (list_max_le (map f l) (list_max (map f l))) (le_n _)) as Hle.
  rewrite List.Forall_forall in Hle.
  specialize (Hle (f a) (in_map f l a (proj1 (list_elem_of_In _ _) Ha))). lia.
Qed.

Lemma visitNodeBody_passedOver translations locale sourceFile
  (visit : Expr -> Result (option Expr))
  (flatten : Expr -> bool -> Result (list Fragment)) (node : Expr) :
  passedOver typeProperties isLitLocalizeImport isLocaleStatusEvent node = true ->
  visitNodeBody typeProperties isLitLocalizeImport isLocaleStatusEvent
    extractTemplate extractOptions generateMsgIdFromAstNode
    escapeStringToEmbedInTemplateLiteral createSourceFile
    translations locale sourceFile visit flatten node
  = try! r := visitEachChild visit node in Ok (Some r).
Proof.
  unfold passedOver, visitNodeBody. intros H.
  repeat (apply andb_true_iff in H; destruct H as [H ?]).
  repeat match goal with
         | Hn : negb _ = true |- _ => apply negb_true_iff in Hn
         end.
  rewrite H.
  match goal with Hn : isLitTemplate node = false |- _ => rewrite Hn end.
  match goal with Hn : isLocaleStatusEvent node = false |- _ => rewrite Hn end.
  destruct node as [s | s | head spans | tag t | s | callee args | params body
                   | props | e' | m | kind kids];
    cbv beta iota in *; try reflexivity.
  - match goal with
    | Hn : (_ || _ || _) = false |- _ =>
        apply orb_false_elim in Hn; destruct Hn as [Hn Hlocalized];
        apply orb_false_elim in Hn; destruct Hn as [Htransform Hconfigure];
        rewrite Htransform, Hconfigure, Hlocalized
    end.
    reflexivity.
  - match goal with Hn : isLitLocalizeImport _ = false |- _ => rewrite Hn end.
    reflexivity.
Qed.

Lemma visitNode_plain_step (translations : option (gmap string Message))
  (locale sourceFile : string) (n : nat) (e : Expr) :
  (forall e',
     plain typeProperties isLitLocalizeImport isLocaleStatusEvent e' = true ->
     height e' < n ->
     visitNode'' translations locale sourceFile n e' = Ok (Some e')) ->
  plain typeProperties isLitLocalizeImport isLocaleStatusEvent e = true ->
  height e < S n ->
  visitNode'' translations locale sourceFile (S n) e = Ok (Some e).
Proof.
  intros IH Hplain Hheight.
  rewrite visitNode_S.
  assert (passedOver typeProperties isLitLocalizeImport isLocaleStatusEvent e = true
          /\ match e with
             | TemplateExpression _ spans =>
                 forallb (fun span => plain typeProperties isLitLocalizeImport
                                        isLocaleStatusEvent (fst span)) spans
             | TaggedTemplate tag t =>
                 plain typeProperties isLitLocalizeImport isLocaleStatusEvent tag
                 && plain typeProperties isLitLocalizeImport isLocaleStatusEvent t
             | CallExpression callee args =>
                 plain typeProperties isLitLocalizeImport isLocaleStatusEvent callee
                 && forallb (plain typeProperties isLitLocalizeImport
                               isLocaleStatusEvent) args
             | ArrowFunction _ body =>
                 plain typeProperties isLitLocalizeImport isLocaleStatusEvent body
             | ObjectLiteral props =>
                 forallb (fun prop => plain typeProperties isLitLocalizeImport
                                        isLocaleStatusEvent (snd prop)) props
             | ExpressionStatement e' =>
                 plain typeProperties isLitLocalizeImport isLocaleStatusEvent e'
             | OtherNode _ kids =>
                 forallb (plain typeProperties isLitLocalizeImport
                            isLocaleStatusEvent) kids
             | _ => true
             end = true) as [Hpassed Hkids].
  { destruct e; cbn [plain] in Hplain; apply andb_true_iff in Hplain; exact Hplain. }
  rewrite visitNodeBody_passedOver by exact Hpassed.
  assert (visitEachChild (visitNode'' translations locale sourceFile n) e = Ok e)
    as ->; [| reflexivity].
  clear Hplain Hpassed.
  destruct e as [s | s | head spans | tag t | s | callee args | params body
                | props | e' | m | kind kids];
    cbn [visitEachChild height] in *; try reflexivity.
  - rewrite visitSpans_same; [reflexivity |].
    apply PeanoNat.lt_S_n in Hheight. apply list_max_bound in Hheight.
    rewrite forallb_forall in Hkids. apply Forall_forall. intros span Hin.
    rewrite Forall_forall in Hheight.
    apply IH; [apply Hkids, list_elem_of_In, Hin | apply Hheight, Hin].
  - apply andb_true_iff in Hkids. destruct Hkids as [Htag Ht].
    rewrite (visitRequired_same _ tag) by (apply IH; [exact Htag | lia]).
    cbn [bindR].
    rewrite (visitRequired_same _ t) by (apply IH; [exact Ht | lia]).
    reflexivity.
  - apply andb_true_iff in Hkids. destruct Hkids as [Hcallee Hargs].
    rewrite (visitRequired_same _ callee) by (apply IH; [exact Hcallee | lia]).
    cbn [bindR]. rewrite visitList_same; [reflexivity |].
    assert (list_max (map height args) < n) as Hmax by lia.
    apply list_max_bound in Hmax.
    rewrite forallb_forall in Hargs. apply Forall_forall. intros a Hin.
    rewrite Forall_forall in Hmax.
    apply IH; [apply Hargs, list_elem_of_In, Hin | apply Hmax, Hin].
  - rewrite (visitRequired_same _ body) by (apply IH; [exact Hkids | lia]).
    reflexivity.
  - rewrite visitProps_same; [reflexivity |].
    apply PeanoNat.lt_S_n in Hheight. apply list_max_bound in Hheight.
    rewrite forallb_forall in Hkids. apply Forall_forall. intros prop Hin.
    rewrite Forall_forall in Hheight.
    apply IH; [apply Hkids, list_elem_of_In, Hin | apply Hheight, Hin].
  - rewrite (visitRequired_same _ e') by (apply IH; [exact Hkids | lia]).
    reflexivity.
  - rewrite visitList_same; [reflexivity |].
    apply PeanoNat.lt_S_n in Hheight. apply list_max_bound in Hheight.
    rewrite forallb_forall in Hkids. apply Forall_forall. intros k Hin.
    rewrite Forall_forall in Hheight.
    apply IH; [apply Hkids, list_elem_of_In, Hin | apply Hheight, Hin].
Qed.

(** X5.  Code that nowhere uses the library's functions, its status-event
    constant, its module or an `html` template is left exactly as it is:
    visiting it, with fuel above its depth, returns the same tree, in the
    pass of every locale. *)
Theorem plain_code_unchanged (translations : option (gmap string Message))
  (locale sourceFile : string) (fuel : nat) (e : Expr) :
  plain typeProperties isLitLocalizeImport isLocaleStatusEvent e = true ->
  height e < fuel ->
  visitNode'' translations locale sourceFile fuel e = Ok (Some e).
Proof.
  revert e. induction fuel as [| n IH]; intros e Hplain Hheight.
  - lia.
  - apply visitNode_plain_step; [exact IH | exact Hplain | exact Hheight].
Qed.

Lemma visit_removed_import translations locale sourceFile (fuel : nat) (s : Expr) :
  removedImport isLitLocalizeImport s = true ->
  visitNode'' translations locale sourceFile (S fuel) s = Ok None.
Proof.
  intros Hs. rewrite visitNode_S. unfold visitNodeBody.
  destruct s; try discriminate Hs.
  cbn [isMsgCall isLitTemplate]. cbn [removedImport] in Hs. rewrite Hs.
  reflexivity.
Qed.

(** X6.  In a list of statements, the imports of the localization library are
    removed and the statements that do not use the library stay, in their
    order and unchanged. *)
Theorem library_imports_removed (translations : option (gmap string Message))
  (locale sourceFile : string) (fuel : nat) (kind : string) (stmts : list Expr) :
  passedOver typeProperties isLitLocalizeImport isLocaleStatusEvent
    (OtherNode kind stmts) = true ->
  Forall (fun s =>
            removedImport isLitLocalizeImport s = true
            \/ (plain typeProperties isLitLocalizeImport isLocaleStatusEvent s = true
                /\ height s < S fuel)) stmts ->
  visitNode'' translations locale sourceFile (S (S fuel)) (OtherNode kind stmts)
  = Ok (Some (OtherNode kind
                (List.filter (fun s => negb (removedImport isLitLocalizeImport s))
                             stmts))).
Proof.
  intros Hpassed Hstmts.
  assert (forall n s,
            plain typeProperties isLitLocalizeImport isLocaleStatusEvent s = true ->
            height s < n ->
            visitNode'' translations locale sourceFile n s = Ok (Some s))
    as Hunchanged.
  { induction n as [| n IH]; intros s Hs Hheight; [lia |].
    apply visitNode_plain_step; [exact IH | exact Hs | exact Hheight]. }
  rewrite visitNode_S.
  rewrite visitNodeBody_passedOver by exact Hpassed.
  cbn [visitEachChild]. unfold visitList.
  assert (mapR (visitNode'' translations locale sourceFile (S fuel)) stmts
          = Ok (map (fun s => if removedImport isLitLocalizeImport s
                              then None else Some s) stmts)) as ->.
  { clear Hpassed. induction Hstmts as [| s stmts Hs _ IH]; [reflexivity |].
    cbn [mapR map]. rewrite IH.
    destruct Hs as [Hs | [Hs Hheight]].
    - rewrite (visit_removed_import _ _ _ _ s Hs), Hs. reflexivity.
    - rewrite (Hunchanged _ s Hs Hheight).
      assert (removedImport isLitLocalizeImport s = false) as ->; [| reflexivity].
      destruct s; try reflexivity.
      cbn [removedImport].
      destruct (isLitLocalizeImport _) eqn:Himport; [| reflexivity].
      cbn [plain] in Hs. unfold passedOver in Hs. rewrite Himport in Hs.
      cbn in Hs. discriminate Hs. }
  cbn [bindR]. do 3 f_equal.
  clear. induction stmts as [| s stmts IH]; [reflexivity |].
  cbn [map List.filter].
  destruct (removedImport isLitLocalizeImport s); cbn [negb omap list_omap id];
    change (list_omap ?A ?B ?f ?l) with (omap f l); rewrite IH; reflexivity.
Qed.


(** *** The passes of `transformOutput` *)

(** X9.  `transformOutput` runs one pass per locale, the source locale first
    and then the target locales in their order.  A pass for the source
    locale, or for a target locale that has no bundle or an empty one,
    transforms every node exactly as the pass without translations does: the
    source text is emitted. *)
Theorem untranslated_locale_like_source
  (pathJoin3 : string -> string -> string -> string)
  (writeLocaleCodesModule : string -> list string -> string -> Result unit)
  (translationsByLocale : gmap string (list Message))
  (sourceLocale : string) (targetLocales : list string)
  (localeCodesModule outDir : option string)
  (passes : list TransformOutput.Pass) :
  TransformOutput.transformOutput pathJoin3 writeLocaleCodesModule
    translationsByLocale sourceLocale targetLocales localeCodesModule outDir
  = Ok passes ->
  map TransformOutput.passLocale passes = sourceLocale :: targetLocales
  /\ forall p sourceFile fuel node,
       In p passes ->
       TransformOutput.passLocale p = sourceLocale
       \/ translationsByLocale !! TransformOutput.passLocale p = None
       \/ translationsByLocale !! TransformOutput.passLocale p = Some [] ->
       visitNode'' (TransformOutput.passTranslations p)
         (TransformOutput.passLocale p) sourceFile fuel node
       = visitNode'' None (TransformOutput.passLocale p) sourceFile fuel node.
Proof.
  unfold TransformOutput.transformOutput.
  destruct (match localeCodesModule with Some _ => _ | None => _ end);
    [| discriminate].
  cbn [bindR]. intros [= <-]. split.
  - cbn [map TransformOutput.passLocale]. f_equal.
    induction targetLocales as [| loc rest IH]; cbn [map TransformOutput.passLocale];
      congruence.
  - assert (forall loc sourceFile fuel node,
              loc = sourceLocale
              \/ translationsByLocale !! loc = None
              \/ translationsByLocale !! loc = Some [] ->
              visitNode'' (TransformOutput.translationsFor translationsByLocale
                             sourceLocale loc) loc sourceFile fuel node
              = visitNode'' None loc sourceFile fuel node) as Hloc.
    { intros loc sourceFile fuel node Hcase.
      unfold TransformOutput.translationsFor.
      destruct (String.eqb_spec loc sourceLocale) as [_ | Hne]; [reflexivity |].
      assert (match translationsByLocale !! loc with
              | Some msgs => msgs
              | None => []
              end = []) as ->.
      { destruct Hcase as [Heq | [-> | ->]];
          [contradiction | reflexivity | reflexivity]. }
      apply visit_without_translations. intros k. apply lookup_empty. }
    intros p sourceFile fuel node Hin Hcase.
    destruct Hin as [<- | Hin]; [apply Hloc; exact Hcase |].
    apply in_map_iff in Hin. destruct Hin as (loc & <- & _).
    apply Hloc. exact Hcase.
Qed.


End TransformMoreFacts.

Import TransformMore.

Lemma flatten_keeps_no_literal_witness :
  Forall notLiteral
    (slots [FString "a"; FString "b";
            FExpression (TransformExample.html (NoSubstitutionTemplateLiteral "c"));
            FString EmptyString; FString EmptyString]).
Proof.
  apply (flatten_keeps_no_literal
           TransformExample.typeProperties TransformExample.isLitLocalizeImport
           TransformExample.isLocaleStatusEvent TransformExample.extractTemplate
           TransformExample.extractOptions TransformExample.generateMsgIdFromAstNode
           TransformExample.escapeStringToEmbedInTemplateLiteral
           TransformExample.createSourceFile
           None "en" "src/app.ts" 5 Scenario.nestedTemplate true).
  vm_compute. reflexivity.
Defined.

Lemma translated_call_is_template_witness :
  TransformExample.visitNode
    (Some (buildTranslations [mkMessage "hello" [Str "Hola"]])) "es" "src/app.ts" 3
    (TransformExample.msg (StringLiteral "Hello") "hello" [])
  = Ok (Some (NoSubstitutionTemplateLiteral "Hola"))
  /\ TransformExample.visitNode None "es" "src/app.ts" 3
       (TransformExample.msg (StringLiteral "Hello") "hello" [])
     = Ok (Some (StringLiteral "Hello"))
  /\ isStringLiteral (NoSubstitutionTemplateLiteral "Hola") = false.
Proof.
  split; [vm_compute; reflexivity |]. split; [vm_compute; reflexivity |].
  apply (translated_call_is_template
           TransformExample.extractTemplate TransformExample.extractOptions
           TransformExample.generateMsgIdFromAstNode
           TransformExample.escapeStringToEmbedInTemplateLiteral
           TransformExample.createSourceFile
           (buildTranslations [mkMessage "hello" [Str "Hola"]]) "src/app.ts"
           (TransformExample.recursivelyFlattenTemplate
              (Some (buildTranslations [mkMessage "hello" [Str "Hola"]]))
              "es" "src/app.ts" 2)
           (TransformExample.msg (StringLiteral "Hello") "hello" [])
           "hello" (mkMessage "hello" [Str "Hola"])).
  - reflexivity.
  - unfold buildTranslations. simpl. apply lookup_insert_eq.
  - vm_compute. reflexivity.
Defined.

Lemma plain_code_unchanged_witness :
  TransformExample.visitNode None "es" "src/app.ts" 3
    (CallExpression (Identifier "render")
       [TemplateExpression "Hello " [(Identifier "name", "!")]; Identifier "body"])
  = Ok (Some (CallExpression (Identifier "render")
                [TemplateExpression "Hello " [(Identifier "name", "!")];
                 Identifier "body"])).
Proof.
  apply (plain_code_unchanged
           TransformExample.typeProperties TransformExample.isLitLocalizeImport
           TransformExample.isLocaleStatusEvent TransformExample.extractTemplate
           TransformExample.extractOptions TransformExample.generateMsgIdFromAstNode
           TransformExample.escapeStringToEmbedInTemplateLiteral
           TransformExample.createSourceFile None "es" "src/app.ts" 3).
  - reflexivity.
  - simpl. lia.
Defined.

Lemma library_imports_removed_witness :
  TransformExample.visitNode None "es" "src/app.ts" 4
    (OtherNode "SourceFile"
       [ImportDeclaration "@lit/localize"; ImportDeclaration "lit-html";
        ExpressionStatement (CallExpression (Identifier "render") [Identifier "body"])])
  = Ok (Some (OtherNode "SourceFile"
                [ImportDeclaration "lit-html";
                 ExpressionStatement
                   (CallExpression (Identifier "render") [Identifier "body"])])).
Proof.
  apply (library_imports_removed
           TransformExample.typeProperties TransformExample.isLitLocalizeImport
           TransformExample.isLocaleStatusEvent TransformExample.extractTemplate
           TransformExample.extractOptions TransformExample.generateMsgIdFromAstNode
           TransformExample.escapeStringToEmbedInTemplateLiteral
           TransformExample.createSourceFile None "es" "src/app.ts" 2 "SourceFile").
  - reflexivity.
  - constructor; [left; reflexivity |].
    constructor; [right; split; [reflexivity | simpl; lia] |].
    constructor; [right; split; [reflexivity | simpl; lia] |].
    constructor.
Defined.

(** ** Substituting the arguments of a parameterized template *)

Section SubstitutionFacts.

Lemma setParamValues_other (paramNames : list string) (args : list Expr)
  (i : nat) (acc : gmap string (option Expr)) (p : string) :
  ~ In p paramNames ->
  setParamValues paramNames args i acc !! p = acc !! p.
Proof.
  revert i acc. induction paramNames as [| q rest IH]; intros i acc Hnot;
    [reflexivity |].
  cbn [setParamValues]. rewrite IH by (intros H; apply Hnot; right; exact H).
  apply lookup_insert_ne. intros ->. apply Hnot. left. reflexivity.
Qed.

Lemma setParamValues_at (paramNames : list string) (args : list Expr)
  (i : nat) (acc : gmap string (option Expr)) (p : string) (j : nat) :
  List.NoDup paramNames ->
  nth_error paramNames j = Some p ->
  setParamValues paramNames args i acc !! p = Some (nth_error args (i + j)).
Proof.
  revert i acc j. induction paramNames as [| q rest IH]; intros i acc j Hnodup Hj.
  - destruct j; discriminate.
  - inversion Hnodup as [| ? ? Hq Hrest]; subst. cbn [setParamValues].
    destruct j as [| j].
    + injection Hj as ->. rewrite setParamValues_other by exact Hq.
      rewrite lookup_insert_eq. f_equal. f_equal. lia.
    + cbn [nth_error] in Hj. rewrite (IH _ _ j Hrest Hj). f_equal. f_equal. lia.
Qed.

Lemma substituteSpan_ok (paramNames : list string) (args : list Expr)
  (span : Expr * string) :
  List.NoDup paramNames ->
  hasArgument paramNames args (fst span) ->
  exists span',
    substituteSpan (setParamValues paramNames args 0 ∅) span = Ok span'
    /\ substituted paramNames args span span'.
Proof.
  intros Hnodup (p & j & v & Hp & Hj & Hv). unfold substituteSpan. rewrite Hp.
  rewrite (setParamValues_at _ _ 0 ∅ p j Hnodup Hj). cbn [Nat.add]. rewrite Hv.
  eexists. split; [reflexivity |]. split; [reflexivity |].
  exists p, j. auto.
Qed.

Lemma substituteSpan_throws (paramNames : list string) (args : list Expr)
  (span : Expr * string) :
  List.NoDup paramNames ->
  ~ hasArgument paramNames args (fst span) ->
  substituteSpan (setParamValues paramNames args 0 ∅) span
  = Throw (KnownError "Expected expression to be identifier")
  \/ substituteSpan (setParamValues paramNames args 0 ∅) span
     = Throw (KnownError "No value provided").
Proof.
  intros Hnodup Hnot. unfold substituteSpan.
  destruct (fst span) as [s | s | head spans | tag t | p | callee cargs
                         | params body | props | e' | m | kind kids];
    try (left; reflexivity).
  right.
  destruct (in_dec string_dec p paramNames) as [Hin | Hout].
  - apply In_nth_error in Hin. destruct Hin as [j Hj].
    rewrite (setParamValues_at _ _ 0 ∅ p j Hnodup Hj). cbn [Nat.add].
    destruct (nth_error args j) as [v |] eqn:Hv; [| reflexivity].
    exfalso. apply Hnot. exists p, j, v. auto.
  - rewrite setParamValues_other by exact Hout. rewrite lookup_empty. reflexivity.
Qed.

(** X7.  When the parameter names are distinct and every expression of the
    template is a bare reference to a parameter that has an argument,
    `substituteIdentsInExpressions` succeeds: the head and the text after
    each expression are unchanged and each expression is replaced by the
    argument at the position of its parameter. *)
Theorem substitution_by_position (paramNames : list string) (args : list Expr)
  (head : string) (spans : list (Expr * string)) :
  List.NoDup paramNames ->
  Forall (fun span => hasArgument paramNames args (fst span)) spans ->
  exists spans',
    substituteIdentsInExpressions (TemplateExpression head spans)
      (setParamValues paramNames args 0 ∅)
    = Ok (TemplateExpression head spans')
    /\ Forall2 (substituted paramNames args) spans spans'.
Proof.
  intros Hnodup Hspans. cbn [substituteIdentsInExpressions].
  assert (exists spans',
            mapR (substituteSpan (setParamValues paramNames args 0 ∅)) spans
            = Ok spans'
            /\ Forall2 (substituted paramNames args) spans spans')
    as (spans' & -> & Hsub).
  { induction Hspans as [| span spans Hspan _ IH].
    - exists []. split; [reflexivity | constructor].
    - destruct (substituteSpan_ok _ _ span Hnodup Hspan) as (span' & Hok & Hs).
      destruct IH as (spans' & Hmap & Hall).
      exists (span' :: spans'). cbn [mapR]. rewrite Hok, Hmap.
      split; [reflexivity | constructor; assumption]. }
  exists spans'. split; [reflexivity | exact Hsub].
Qed.

(** X8.  When the parameter names are distinct and some expression of the
    template is not a bare reference to a parameter that has an argument (it
    is another kind of expression, an unknown name, or a parameter beyond the
    arguments supplied), the substitution fails with a user-facing error and
    gives no template. *)
Theorem substitution_failure (paramNames : list string) (args : list Expr)
  (head : string) (spans : list (Expr * string)) (span : Expr * string) :
  List.NoDup paramNames ->
  In span spans ->
  ~ hasArgument paramNames args (fst span) ->
  substituteIdentsInExpressions (TemplateExpression head spans)
    (setParamValues paramNames args 0 ∅)
  = Throw (KnownError "Expected expression to be identifier")
  \/ substituteIdentsInExpressions (TemplateExpression head spans)
       (setParamValues paramNames args 0 ∅)
     = Throw (KnownError "No value provided").
Proof.
  intros Hnodup Hin Hnot. cbn [substituteIdentsInExpressions].
  assert (mapR (substituteSpan (setParamValues paramNames args 0 ∅)) spans
          = Throw (KnownError "Expected expression to be identifier")
          \/ mapR (substituteSpan (setParamValues paramNames args 0 ∅)) spans
             = Throw (KnownError "No value provided")) as [-> | ->];
    [| left; reflexivity | right; reflexivity].
  induction spans as [| s spans IH]; [destruct Hin |].
  cbn [mapR].
  destruct (substituteSpan _ s) as [s' |] eqn:Hs.
  - destruct Hin as [-> | Hin].
    + destruct (substituteSpan_throws _ _ span Hnodup Hnot); congruence.
    + cbn [bindR]. destruct (IH Hin) as [-> | ->]; [left | right]; reflexivity.
  - cbn [bindR]. unfold substituteSpan in Hs.
    destruct (fst s); try (injection Hs as <-; left; reflexivity).
    destruct (_ !! _) as [[v |] |]; try discriminate;
      injection Hs as <-; right; reflexivity.
Qed.

End SubstitutionFacts.

Lemma substitution_by_position_witness :
  substituteIdentsInExpressions
    (TemplateExpression "Hello " [(Identifier "name", ", see "); (Identifier "url", "!")])
    (setParamValues ["url"; "name"]
       [StringLiteral "https://example.org"; StringLiteral "World"] 0 ∅)
  = Ok (TemplateExpression "Hello "
          [(StringLiteral "World", ", see ");
           (StringLiteral "https://example.org", "!")]).
Proof.
  destruct (substitution_by_position ["url"; "name"]
              [StringLiteral "https://example.org"; StringLiteral "World"]
              "Hello " [(Identifier "name", ", see "); (Identifier "url", "!")])
    as (spans' & Hok & Hsub).
  - repeat constructor; simpl; intros H; intuition discriminate.
  - constructor; [exists "name", 1, (StringLiteral "World"); auto |].
    constructor; [exists "url", 0, (StringLiteral "https://example.org"); auto |].
    constructor.
  - rewrite Hok. f_equal. f_equal.
    inversion Hsub as [| s1 s1' l1 l1' H1 Hrest1]; subst.
    inversion Hrest1 as [| s2 s2' l2 l2' H2 Hrest2]; subst.
    inversion Hrest2; subst.
    destruct s1' as [e1 t1], s2' as [e2 t2].
    destruct H1 as [Ht1 (p1 & j1 & Hp1 & Hj1 & Ha1)].
    destruct H2 as [Ht2 (p2 & j2 & Hp2 & Hj2 & Ha2)].
    cbn [fst snd] in *. subst t1 t2.
    injection Hp1 as <-. injection Hp2 as <-.
    destruct j1 as [| [| [| j1]]]; try discriminate Hj1.
    destruct j2 as [| [| [| j2]]]; try discriminate Hj2.
    cbn in Ha1, Ha2. injection Ha1 as <-. injection Ha2 as <-. reflexivity.
Defined.

Lemma substitution_failure_witness :
  substituteIdentsInExpressions
    (TemplateExpression "Hello " [(Identifier "name", "!")])
    (setParamValues ["name"] [] 0 ∅)
  = Throw (KnownError "No value provided").
Proof.
  destruct (substitution_failure ["name"] [] "Hello " [(Identifier "name", "!")]
              (Identifier "name", "!")) as [H | H].
  - repeat constructor. simpl. intros [].
  - left. reflexivity.
  - intros (p & j & v & _ & _ & Hv). destruct j; discriminate Hv.
  - vm_compute in H. discriminate H.
  - exact H.
Defined.

Lemma untranslated_locale_like_source_witness :
  TransformExample.visitNode (Some ∅) "fr" "src/app.ts" 3 Scenario.greetingCall
  = TransformExample.visitNode None "fr" "src/app.ts" 3 Scenario.greetingCall.
Proof.
  destruct (untranslated_locale_like_source
              TransformExample.typeProperties TransformExample.isLitLocalizeImport
              TransformExample.isLocaleStatusEvent TransformExample.extractTemplate
              TransformExample.extractOptions TransformExample.generateMsgIdFromAstNode
              TransformExample.escapeStringToEmbedInTemplateLiteral
              TransformExample.createSourceFile
              (fun a b c => a ++ b ++ c) (fun _ _ _ => Ok tt)
              {["es" := [saludo]]} "en" ["es"; "fr"] None (Some "out")
              [TransformOutput.mkPass "out/en" None "en";
               TransformOutput.mkPass "out/es" (Some (buildTranslations [saludo])) "es";
               TransformOutput.mkPass "out/fr" (Some ∅) "fr"])
    as [_ Hpass].
  - vm_compute. reflexivity.
  - apply (Hpass (TransformOutput.mkPass "out/fr" (Some ∅) "fr") "src/app.ts" 3
             Scenario.greetingCall).
    + right. right. left. reflexivity.
    + right. left. reflexivity.
Defined.

(** ** More of the codecs *)

Section CodecMoreFacts.

Import CodecMore.

Lemma xlb_parseMsg_written (m : ProgramMessage) :
  pname m <> EmptyString ->
  Xlb.parseMsg (Xlb.messageNode m) = Ok (mkMessage (pname m) (pcontents m)).
Proof.
  intros Hname. unfold Xlb.parseMsg, Xlb.messageNode. cbn [children].
  rewrite (nonEmpty_attribute _ _ (pname m)); [| exact Hname | reflexivity].
  cbn [bindR]. rewrite (encodes_parse "msg" _ _ (xlb_encodes (pcontents m))).
  reflexivity.
Qed.

Lemma xliff_parseTransUnit_written (tb : gmap string Message) (m : ProgramMessage) :
  pname m <> EmptyString ->
  Xliff.parseTransUnit (Xliff.transUnitNode tb m)
  = Ok ((fun t => mkMessage (pname m) (contents t)) <$> tb !! pname m).
Proof.
  intros Hname. unfold Xliff.parseTransUnit.
  rewrite xliff_transUnit_targets. unfold Xliff.transUnitNode at 1.
  rewrite (nonEmpty_attribute _ _ (pname m)); [| exact Hname | reflexivity].
  cbn [bindR].
  destruct (tb !! pname m) as [t |]; [| reflexivity].
  cbn [children]. unfold Xliff.encodeContents.
  rewrite (encodes_parse "trans-unit" _ _ (xliff_encodes (contents t) 0)).
  reflexivity.
Qed.

(** X10.  On the documents themselves, before any serialization, reading is
    the exact inverse of writing.  When the locale and the message names are
    not empty, the XLB reader gives back, from the document the writer builds,
    the locale and one message per source message with exactly its name and
    contents; the XLIFF reader gives back the target locale and, for each
    source message that has a translation, the source message's name with
    exactly the translation's contents. *)
Theorem parse_inverts_encode
  (mk : list Message -> gmap string Message)
  (sourceLocale targetLocale : string)
  (sourceMessages : list ProgramMessage) (targetMessages : list Message) :
  sourceLocale <> EmptyString ->
  targetLocale <> EmptyString ->
  Forall (fun m => pname m <> EmptyString) sourceMessages ->
  Xlb.parseXmb (Xlb.writeOutput sourceLocale sourceMessages)
  = Ok (mkBundle sourceLocale
          (map (fun m => mkMessage (pname m) (pcontents m)) sourceMessages))
  /\ Xliff.parseXlif
       (Xliff.encodeLocale mk sourceLocale sourceMessages targetLocale targetMessages)
     = Ok (mkBundle targetLocale
             (omap (fun m => (fun t => mkMessage (pname m) (contents t))
                               <$> mk targetMessages !! pname m)
                   sourceMessages)).
Proof.
  intros Hsrc Htgt Hnames. split.
  - unfold Xlb.parseXmb, getOneElementByTagNameOrThrow.
    destruct (xlb_bundle_elements sourceLocale sourceMessages) as [kids ->].
    cbn [bindR].
    rewrite (nonEmpty_attribute _ _ sourceLocale); [| exact Hsrc | reflexivity].
    cbn [bindR]. rewrite xlb_msg_elements.
    rewrite (mapR_map_ok Xlb.parseMsg _
               (fun m => mkMessage (pname m) (pcontents m))); [reflexivity |].
    eapply Forall_impl; [exact Hnames |].
    intros m Hm. apply xlb_parseMsg_written. exact Hm.
  - unfold Xliff.parseXlif, getOneElementByTagNameOrThrow.
    destruct (xliff_file_elements mk sourceLocale targetLocale sourceMessages
                targetMessages) as (attrs & kids & -> & Hunits).
    cbn [bindR children]. rewrite Hunits.
    rewrite (nonEmpty_attribute _ _ targetLocale); [| exact Htgt | reflexivity].
    cbn [bindR].
    rewrite (mapR_map_ok Xliff.parseTransUnit _
               (fun m => (fun t => mkMessage (pname m) (contents t))
                           <$> mk targetMessages !! pname m)).
    + cbn [bindR]. rewrite omap_id_map. reflexivity.
    + eapply Forall_impl; [exact Hnames |].
      intros m Hm. apply xliff_parseTransUnit_written. exact Hm.
Qed.

Lemma natToString_inj (a b : nat) : natToString a = natToString b -> a = b.
Proof.
  unfold natToString. intros H.
  assert (forall n, Nat.to_uint n <> Decimal.Nil) as Hnonnil.
  { intros n. rewrite <- (DecimalNat.Unsigned.of_to n) at 1.
    rewrite DecimalNat.Unsigned.to_of. unfold Decimal.unorm.
    destruct (Decimal.nzhead (Nat.to_uint n)); discriminate. }
  apply DecimalNat.Unsigned.to_uint_inj.
  pose proof (NilZero.usu _ (Hnonnil a)) as Ha.
  pose proof (NilZero.usu _ (Hnonnil b)) as Hb.
  rewrite H in Ha. congruence.
Qed.

Lemma NoDup_map_injective {A B : Type} (f : A -> B) (l : list A) :
  (forall a b, f a = f b -> a = b) -> List.NoDup l -> List.NoDup (map f l).
Proof.
  intros Hinj Hl. induction Hl as [| x l Hx Hl IH]; cbn [map].
  - apply List.NoDup_nil.
  - apply List.NoDup_cons; [| exact IH].
    rewrite List.in_map_iff. intros (y & Hy & Hin).
    apply Hinj in Hy. subst y. contradiction.
Qed.

(** X11.  In the node list `encodeContents` builds, the `ph` elements carry
    the identifiers 0, 1, 2, ... in their order, one per placeholder, whatever
    text runs lie between them; so within one content sequence no two `ph`
    elements share an identifier. *)
Theorem placeholder_ids_count_up (cs : list Content) :
  phIds (Xliff.encodeContents cs)
  = map (fun i => Some (natToString i)) (seq 0 (length (placeholders cs)))
  /\ List.NoDup (phIds (Xliff.encodeContents cs)).
Proof.
  assert (phIds (Xliff.encodeContents cs)
          = map (fun i => Some (natToString i))
                (seq 0 (length (placeholders cs)))) as Hids.
  { unfold Xliff.encodeContents. generalize 0 as start.
    induction cs as [| [s | u] cs IH]; intros start; [reflexivity | apply IH |].
    cbn [Xliff.encodeContentsFrom phIds placeholders length seq map getAttribute].
    rewrite String.eqb_refl. cbn [getAttribute]. rewrite String.eqb_refl.
    rewrite IH. reflexivity. }
  split; [exact Hids |].
  rewrite Hids.
  apply NoDup_map_injective; [| apply List.seq_NoDup].
  intros a b [= H]. apply natToString_inj. exact H.
Qed.

Lemma attribute_nonEmpty (el : Node) (attr v : string) :
  getNonEmptyAttributeOrThrow el attr = Ok v -> v <> EmptyString.
Proof.
  unfold getNonEmptyAttributeOrThrow.
  destruct el as [x | nm attrs kids | x | x | t d]; try discriminate.
  destruct (getAttribute attr attrs) as [w |]; [| discriminate].
  destruct w; [discriminate |]. intros [= <-]. discriminate.
Qed.

(** X12.  A bundle that either reader returns has a locale that is not empty,
    and every message in it has a name that is not empty. *)
Theorem parsed_bundle_named (doc : Document) (b : Bundle) :
  Xlb.parseXmb doc = Ok b \/ Xliff.parseXlif doc = Ok b ->
  locale b <> EmptyString
  /\ Forall (fun m => name m <> EmptyString) (messages b).
Proof.
  intros [Hparse | Hparse].
  - unfold Xlb.parseXmb in Hparse.
    destruct (getOneElementByTagNameOrThrow doc "localizationbundle") as [el |];
      [| discriminate].
    cbn [bindR] in Hparse.
    destruct (getNonEmptyAttributeOrThrow el "locale") as [loc |] eqn:Hloc;
      [| discriminate].
    cbn [bindR] in Hparse.
    destruct (mapR Xlb.parseMsg _) as [msgs |] eqn:Hmsgs; [| discriminate].
    injection Hparse as <-. cbn [locale messages].
    split; [eapply attribute_nonEmpty; exact Hloc |].
    apply List.Forall_forall. intros m Hin.
    revert m Hin. apply List.Forall_forall.
    cut (List.Forall (fun m => name m <> EmptyString) msgs);
      [intros H; exact H |].
    clear -Hmsgs. revert msgs Hmsgs.
    induction (getElementsByTagName "msg" doc) as [| n l IH]; intros msgs;
      cbn [mapR].
    + intros [= <-]. constructor.
    + unfold Xlb.parseMsg at 1.
      destruct (getNonEmptyAttributeOrThrow n "name") as [nm |] eqn:Hnm;
        [| discriminate].
      cbn [bindR]. destruct (parseContents "msg" (children n)); [| discriminate].
      cbn [bindR]. destruct (mapR Xlb.parseMsg l) as [ms |]; [| discriminate].
      intros [= <-]. constructor; [| apply IH; reflexivity].
      cbn [name]. eapply attribute_nonEmpty. exact Hnm.
  - unfold Xliff.parseXlif in Hparse.
    destruct (getOneElementByTagNameOrThrow doc "file") as [el |]; [| discriminate].
    cbn [bindR] in Hparse.
    destruct (getNonEmptyAttributeOrThrow el "target-language") as [loc |] eqn:Hloc;
      [| discriminate].
    cbn [bindR] in Hparse.
    destruct (mapR Xliff.parseTransUnit _) as [units |] eqn:Hunits; [| discriminate].
    injection Hparse as <-. cbn [locale messages].
    split; [eapply attribute_nonEmpty; exact Hloc |].
    clear -Hunits. revert units Hunits.
    induction (getElementsByTagName "trans-unit" (children el)) as [| n l IH];
      intros units; cbn [mapR].
    + intros [= <-]. constructor.
    + unfold Xliff.parseTransUnit at 1.
      destruct (getNonEmptyAttributeOrThrow n "id") as [nm |] eqn:Hnm;
        [| discriminate].
      cbn [bindR].
      destruct (mapR Xliff.parseTransUnit l) as [us |]; [| 
        destruct (getElementsByTagName "target" (children n)) as [| t [| t' ts]];
        cbn [bindR]; try discriminate;
        destruct (parseContents _ _); discriminate].
      specialize (IH us eq_refl).
      destruct (getElementsByTagName "target" (children n)) as [| t [| t' ts]];
        cbn [bindR]; try discriminate.
      * intros [= <-]. exact IH.
      * destruct (parseContents "trans-unit" (children t)); [| discriminate].
        cbn [bindR]. intros [= <-].
        cbn [omap list_omap id]. change (list_omap ?A ?B ?f us) with (omap f us).
        constructor; [| exact IH].
        cbn [name]. eapply attribute_nonEmpty. exact Hnm.
Qed.

End CodecMoreFacts.

Lemma parse_inverts_encode_witness :
  Xlb.parseXmb (Xlb.writeOutput "en" [greeting])
  = Ok (mkBundle "en" [mkMessage "greeting" (pcontents greeting)])
  /\ Xliff.parseXlif (Xliff.encodeLocale makeMessageIdMap "en" [greeting] "es" [saludo])
     = Ok (mkBundle "es"
             (omap (fun m => (fun t => mkMessage (pname m) (contents t))
                               <$> makeMessageIdMap [saludo] !! pname m)
                   [greeting])).
Proof.
  apply (parse_inverts_encode makeMessageIdMap "en" "es" [greeting] [saludo]).
  - discriminate.
  - discriminate.
  - repeat constructor. discriminate.
Defined.

Lemma parsed_bundle_named_witness :
  locale (mkBundle "es" [saludo]) <> EmptyString
  /\ Forall (fun m => name m <> EmptyString) (messages (mkBundle "es" [saludo])).
Proof.
  apply (parsed_bundle_named
           (Xliff.encodeLocale makeMessageIdMap "en" [greeting] "es" [saludo])).
  right. vm_compute. reflexivity.
Defined.

Section CodecFailureFacts.

Import CodecMore.

Lemma mapR_first_throw {A B : Type} (f : A -> Result B)
  (before after : list A) (x : A) (e : Error) :
  Forall (fun a => exists b, f a = Ok b) before ->
  f x = Throw e ->
  mapR f (before ++ x :: after) = Throw e.
Proof.
  intros Hbefore Hx.
  induction Hbefore as [| a before [b Ha] _ IH]; cbn [app mapR].
  - rewrite Hx. reflexivity.
  - rewrite Ha, IH. reflexivity.
Qed.

(** X13.  In XLIFF a `trans-unit` with two or more `target` elements below
    it, at any depth, makes the whole parse fail with the user-facing error
    that tells how many were found, when the file element, the locale and the
    units before it are read without error: neither the unit's own
    translation nor any unit after it is returned. *)
Theorem xliff_unit_rejected (doc : Document) (file transUnit : Node)
  (loc unitName : string) (before after : list Node) :
  getOneElementByTagNameOrThrow doc "file" = Ok file ->
  getNonEmptyAttributeOrThrow file "target-language" = Ok loc ->
  getElementsByTagName "trans-unit" (children file)
  = (before ++ transUnit :: after)%list ->
  Forall (fun u => exists r, Xliff.parseTransUnit u = Ok r) before ->
  getNonEmptyAttributeOrThrow transUnit "id" = Ok unitName ->
  2 <= length (getElementsByTagName "target" (children transUnit)) ->
  Xliff.parseXlif doc
  = Throw (KnownError
      ("Expected 0 or 1 <target> in <trans-unit>, got "
       ++ natToString (length (getElementsByTagName "target"
                                 (children transUnit))))).
Proof.
  intros Hfile Hloc Hunits Hbefore Hname Hmany.
  unfold Xliff.parseXlif. rewrite Hfile. cbn [bindR]. rewrite Hloc. cbn [bindR].
  rewrite Hunits.
  rewrite (mapR_first_throw Xliff.parseTransUnit before after transUnit
             (KnownError
                ("Expected 0 or 1 <target> in <trans-unit>, got "
                 ++ natToString (length (getElementsByTagName "target"
                                           (children transUnit))))));
    [reflexivity | exact Hbefore |].
  unfold Xliff.parseTransUnit. rewrite Hname. cbn [bindR].
  destruct (getElementsByTagName "target" (children transUnit))
    as [| t [| t' ts]]; cbn [length] in Hmany; [lia | lia | reflexivity].
Qed.

Lemma xliff_transUnit_target_elements (tb : gmap string Message) (m : ProgramMessage) :
  elementsFrom "target" (Xliff.transUnitNode tb m)
  = match tb !! pname m with
    | Some t => [targetNode t]
    | None => []
    end.
Proof.
  rewrite <- xliff_transUnit_targets. reflexivity.
Qed.

(** X14.  The XLIFF document holds one `target` element for each source
    message that has a translation under its name, in the order of the source
    messages, and no other: a translation whose name is not the name of a
    source message is not written. *)
Theorem xliff_targets_written
  (mk : list Message -> gmap string Message)
  (sourceLocale targetLocale : string)
  (sourceMessages : list ProgramMessage) (targetMessages : list Message) :
  getElementsByTagName "target"
    (Xliff.encodeLocale mk sourceLocale sourceMessages targetLocale targetMessages)
  = omap (fun m => targetNode <$> mk targetMessages !! pname m) sourceMessages.
Proof.
  unfold getElementsByTagName, Xliff.encodeLocale.
  cbn [flat_map elementsFrom isElementNamed app Xliff.indent].
  assert (flat_map (elementsFrom "target")
            (flat_map (fun m => [Xliff.transUnitNode (mk targetMessages) m;
                                 Xliff.indent 0]) sourceMessages)
          = omap (fun m => targetNode <$> mk targetMessages !! pname m)
                 sourceMessages) as ->.
  { induction sourceMessages as [| m msgs IH]; [reflexivity |].
    cbn [flat_map app]. rewrite IH, xliff_transUnit_target_elements.
    change (elementsFrom "target" (Xliff.indent 0)) with (@nil Node).
    cbn [omap list_omap].
    change (list_omap ?A ?B ?f msgs) with (omap f msgs).
    destruct (mk targetMessages !! pname m); reflexivity. }
  simpl. rewrite ?app_nil_r. reflexivity.
Qed.

End CodecFailureFacts.

Lemma xliff_unit_rejected_witness :
  Xliff.parseXlif CodecMore.alternativesDocument
  = Throw (KnownError "Expected 0 or 1 <target> in <trans-unit>, got 2").
Proof.
  apply (xliff_unit_rejected CodecMore.alternativesDocument
           (ElementNode "file" [("target-language", "es")]
              [CodecMore.translatedUnit; CodecMore.alternativesUnit;
               CodecMore.translatedUnit])
           CodecMore.alternativesUnit "es" "farewell"
           [CodecMore.translatedUnit] [CodecMore.translatedUnit]).
  - reflexivity.
  - reflexivity.
  - reflexivity.
  - constructor; [| constructor]. eexists. reflexivity.
  - reflexivity.
  - vm_compute. lia.
Defined.

(** ** Writing and reading files *)

Section FileFacts.

Variable ensureDir : string -> option string.
Variable writeFile : string -> string -> option string.
Variable serializeToString : Document -> string.
Variable pathJoin : string -> string -> string.
Variable resolve : string -> string.
Variable mk : list Message -> gmap string Message.

Lemma mapR_writeOne (writes : list (string * string)) :
  (Forall (fun file => writeFile (fst file) (snd file) = None) writes ->
   mapR (XliffWrite.writeOne writeFile) writes = Ok (map (fun _ => tt) writes))
  /\ (forall file,
        In file writes -> writeFile (fst file) (snd file) <> None ->
        exists text, mapR (XliffWrite.writeOne writeFile) writes
                     = Throw (KnownError text)).
Proof.
  induction writes as [| w writes [IHok IHfail]]; split.
  - intros _. reflexivity.
  - intros file [].
  - intros Hall. inversion Hall as [| ? ? Hw Hrest]; subst.
    cbn [mapR map]. unfold XliffWrite.writeOne at 1. rewrite Hw. cbn [bindR].
    rewrite (IHok Hrest). reflexivity.
  - intros file Hin Hfile. cbn [mapR]. unfold XliffWrite.writeOne at 1.
    destruct (writeFile (fst w) (snd w)) as [message |] eqn:Hw; cbn [bindR];
      [eauto |].
    destruct Hin as [-> | Hin]; [contradiction |].
    destruct (IHfail file Hin Hfile) as [text ->]. cbn [bindR]. eauto.
Qed.

(** X15.  `writeOutput` of the XLIFF codec writes nothing when the directory
    cannot be created.  Otherwise it issues one write per target locale, in
    order, whether or not another write fails; it succeeds when every write
    succeeds, and fails with a user-facing error as soon as one does not. *)
Theorem xliff_writes_independent
  (sourceLocale : string) (targetLocales : list string) (xliffDir : string)
  (sourceMessages : list ProgramMessage)
  (translations : gmap string (list Message)) :
  (forall message,
     ensureDir (resolve xliffDir) = Some message ->
     fst (XliffWrite.writeOutput ensureDir writeFile serializeToString pathJoin
            resolve mk sourceLocale targetLocales xliffDir sourceMessages
            translations) = []
     /\ exists text,
          snd (XliffWrite.writeOutput ensureDir writeFile serializeToString
                 pathJoin resolve mk sourceLocale targetLocales xliffDir
                 sourceMessages translations) = Throw (KnownError text))
  /\ (ensureDir (resolve xliffDir) = None ->
      let result :=
        XliffWrite.writeOutput ensureDir writeFile serializeToString pathJoin
          resolve mk sourceLocale targetLocales xliffDir sourceMessages
          translations in
      map fst (fst result)
      = map (fun loc => pathJoin (resolve xliffDir) (loc ++ ".xlf")) targetLocales
      /\ (Forall (fun file => writeFile (fst file) (snd file) = None) (fst result) ->
          snd result = Ok tt)
      /\ (forall file,
            In file (fst result) -> writeFile (fst file) (snd file) <> None ->
            exists text, snd result = Throw (KnownError text))).
Proof.
  split.
  - intros message Hdir. unfold XliffWrite.writeOutput. rewrite Hdir.
    split; [reflexivity | eauto].
  - intros Hdir result. subst result. unfold XliffWrite.writeOutput.
    rewrite Hdir. cbn [fst snd]. split; [| split].
    + rewrite List.map_map. apply map_ext. reflexivity.
    + intros Hall. rewrite (proj1 (mapR_writeOne _) Hall). reflexivity.
    + intros file Hin Hfile.
      destruct (proj2 (mapR_writeOne _) file Hin Hfile) as [text ->].
      cbn [bindR]. eauto.
Qed.

End FileFacts.

Section XlbReadFacts.

Variable glob : string -> string -> Result (list string).
Variable readFile : string -> XliffRead.ReadOutcome.
Variable parseFromString : string -> Document.

(** X16.  The XLB reader gives one bundle per file the pattern matches, in the
    order of the files, each parsed from the text of its file; it fails when
    any of the files cannot be read, a missing file included. *)
Theorem xlb_read_all_or_nothing (translationsGlob baseDir : string)
  (files : list string) :
  glob translationsGlob baseDir = Ok files ->
  (forall bundles,
     XlbRead.readTranslations glob readFile parseFromString translationsGlob baseDir
     = Ok bundles ->
     Forall2 (fun file b =>
                exists xmlStr, readFile file = XliffRead.Contents xmlStr
                               /\ Xlb.parseXmb (parseFromString xmlStr) = Ok b)
             files bundles)
  /\ (forall file code,
        In file files -> readFile file = XliffRead.Rejected code ->
        exists e,
          XlbRead.readTranslations glob readFile parseFromString translationsGlob
            baseDir = Throw e).
Proof.
  intros Hglob. unfold XlbRead.readTranslations. rewrite Hglob. cbn [bindR].
  clear Hglob. split.
  - induction files as [| f files IH]; intros bundles; cbn [mapR].
    + intros [= <-]. constructor.
    + unfold XlbRead.readBundle at 1.
      destruct (readFile f) as [xmlStr | code] eqn:Hf; [| discriminate].
      destruct (Xlb.parseXmb (parseFromString xmlStr)) as [b |] eqn:Hb;
        [| discriminate].
      cbn [bindR].
      destruct (mapR _ files) as [bs |]; [| discriminate].
      cbn [bindR]. intros [= <-].
      constructor; [eauto | apply IH; reflexivity].
  - intros file code Hin Hread.
    apply (mapR_throws _ files file (IOError code) Hin).
    unfold XlbRead.readBundle. rewrite Hread. reflexivity.
Qed.

End XlbReadFacts.

Lemma xliff_writes_independent_witness :
  map fst
    (fst (XliffWrite.writeOutput (fun _ => None) XliffWrite.exampleWriteFile
            (fun doc => "<xml/>") XliffRead.examplePathJoin id makeMessageIdMap
            "en" ["es"; "de"; "fr"] "xliff" [greeting] ∅))
  = ["xliff/es.xlf"; "xliff/de.xlf"; "xliff/fr.xlf"]
  /\ exists text,
       snd (XliffWrite.writeOutput (fun _ => None) XliffWrite.exampleWriteFile
              (fun doc => "<xml/>") XliffRead.examplePathJoin id makeMessageIdMap
              "en" ["es"; "de"; "fr"] "xliff" [greeting] ∅)
       = Throw (KnownError text).
Proof.
  destruct (xliff_writes_independent (fun _ => None) XliffWrite.exampleWriteFile
              (fun doc => "<xml/>") XliffRead.examplePathJoin id makeMessageIdMap
              "en" ["es"; "de"; "fr"] "xliff" [greeting] ∅) as [_ Hok].
  destruct (Hok eq_refl) as (Hpaths & _ & Hfail).
  split; [exact Hpaths |].
  apply (Hfail ("xliff/de.xlf", "<xml/>")).
  - simpl. right. left. reflexivity.
  - discriminate.
Defined.

Lemma xlb_read_all_or_nothing_witness :
  exists e,
    XlbRead.readTranslations XlbRead.exampleGlob XlbRead.exampleFiles
      XlbRead.exampleParser "data/*.xlb" "." = Throw e.
Proof.
  destruct (xlb_read_all_or_nothing XlbRead.exampleGlob XlbRead.exampleFiles
              XlbRead.exampleParser "data/*.xlb" "."
              ["data/es.xlb"; "data/fr.xlb"] eq_refl) as [_ Hfail].
  apply (Hfail "data/fr.xlb" "ENOENT").
  - simpl. right. left. reflexivity.
  - reflexivity.
Defined.

(** ** The `classMap` directive *)


Section ClassMapFacts.

Import ClassMapDirective.

Lemma setHas_In (n : string) (s : list string) : setHas n s = true <-> In n s.
Proof.
  unfold setHas. rewrite existsb_exists. split.
  - intros (x & Hx & E). apply String.eqb_eq in E. subst. exact Hx.
  - intros H. exists n. split; [exact H | apply String.eqb_refl].
Qed.

Lemma setHas_false (n : string) (s : list string) : setHas n s = false <-> ~ In n s.
Proof.
  rewrite <- setHas_In. destruct (setHas n s); split; intros H;
    [discriminate | exfalso; apply H; reflexivity | discriminate | reflexivity].
Qed.

Lemma In_setAdd (n a : string) (s : list string) :
  In n (setAdd a s) <-> n = a \/ In n s.
Proof.
  unfold setAdd. destruct (setHas a s) eqn:Ha.
  - apply setHas_In in Ha. split; [auto | intros [-> | H]; assumption].
  - rewrite in_app_iff. cbn [In]. split; [intros [H | [H | []]]; auto |].
    intros [-> | H]; auto.
Qed.

Lemma In_setDelete (n a : string) (s : list string) :
  In n (setDelete a s) <-> n <> a /\ In n s.
Proof.
  unfold setDelete. rewrite filter_In. split.
  - intros [H E]. split; [| exact H].
    intros ->. rewrite String.eqb_refl in E. discriminate.
  - intros [Hne H]. split; [exact H |].
    destruct (String.eqb_spec a n) as [-> | _]; [contradiction | reflexivity].
Qed.

Lemma setHas_iff (n : string) (s t : list string) :
  (In n s <-> In n t) -> setHas n s = setHas n t.
Proof.
  intros H. destruct (setHas n t) eqn:Ht.
  - apply setHas_In. apply H. apply setHas_In. exact Ht.
  - apply setHas_false. intros Hs. apply setHas_false in Ht. apply Ht, H, Hs.
Qed.

Lemma setHas_cons (n a : string) (s : list string) :
  setHas n (a :: s) = String.eqb n a || setHas n s.
Proof. reflexivity. Qed.

Lemma setHas_setAdd_other (n a : string) (s : list string) :
  n <> a -> setHas n (setAdd a s) = setHas n s.
Proof. intros Hne. apply setHas_iff. rewrite In_setAdd. intuition congruence. Qed.

Lemma setHas_setDelete_other (n a : string) (s : list string) :
  n <> a -> setHas n (setDelete a s) = setHas n s.
Proof. intros Hne. apply setHas_iff. rewrite In_setDelete. intuition congruence. Qed.

(** *** What `for...in` visits *)

Lemma In_distinctNames (n : string) (seen names : list string) :
  In n (distinctNames seen names) <-> In n names /\ ~ In n seen.
Proof.
  revert seen. induction names as [| a names IH]; intros seen;
    cbn [distinctNames In]; [tauto |].
  destruct (setHas a seen) eqn:Ha.
  - apply setHas_In in Ha. rewrite IH.
    split; [tauto |]. intros [[-> | Hin] Hseen]; [contradiction | tauto].
  - apply setHas_false in Ha. cbn [In]. rewrite IH. cbn [In].
    split.
    + intros [-> | [Hin Hseen]]; [tauto |]. split; [tauto |].
      intros H. apply Hseen. right. exact H.
    + intros [[-> | Hin] Hseen]; [left; reflexivity |].
      destruct (string_dec a n) as [-> | Hne]; [left; reflexivity |].
      right. split; [exact Hin |]. intros [H | H]; [congruence | contradiction].
Qed.

Lemma NoDup_distinctNames (seen names : list string) :
  List.NoDup (distinctNames seen names).
Proof.
  revert seen. induction names as [| a names IH]; intros seen;
    cbn [distinctNames]; [apply List.NoDup_nil |].
  destruct (setHas a seen); [apply IH |].
  apply List.NoDup_cons; [| apply IH].
  rewrite In_distinctNames. intros [_ H]. apply H. left. reflexivity.
Qed.

Lemma distinctNames_NoDup (seen names : list string) :
  List.NoDup names -> (forall n, In n names -> ~ In n seen) ->
  distinctNames seen names = names.
Proof.
  intros Hnodup. revert seen.
  induction Hnodup as [| a names Ha _ IH]; intros seen Hseen; [reflexivity |].
  cbn [distinctNames].
  rewrite (proj2 (setHas_false a seen)) by (apply Hseen; left; reflexivity).
  rewrite IH; [reflexivity |].
  intros n Hn [<- | H]; [contradiction |].
  apply (Hseen n); [right; exact Hn | exact H].
Qed.

Lemma In_forIn (n : string) (classInfo : ClassInfo) :
  In n (forIn classInfo) <->
  existsb (fun entry => String.eqb n (fst entry)) (enumerable classInfo) = true.
Proof.
  unfold forIn. rewrite In_distinctNames, existsb_exists, in_map_iff. split.
  - intros [(entry & <- & Hin) _]. exists entry.
    split; [exact Hin | apply String.eqb_refl].
  - intros (entry & Hin & E). apply String.eqb_eq in E.
    split; [exists entry; split; [symmetry; exact E | exact Hin] | intros []].
Qed.

Lemma truthy_forIn (n : string) (classInfo : ClassInfo) :
  truthy classInfo n = true -> In n (forIn classInfo).
Proof.
  unfold truthy. intros H. apply In_forIn, existsb_exists.
  destruct (find _ (enumerable classInfo)) as [entry |] eqn:Hfind;
    [| discriminate].
  apply find_some in Hfind. exists entry. exact Hfind.
Qed.

Lemma filter_truthy_add (p : string -> bool) (names acc : list string) :
  List.NoDup names -> (forall n, In n names -> ~ In n acc) ->
  fold_left (fun (prev : list string) (name : string) =>
               if p name then setAdd name prev else prev) names acc
  = (acc ++ List.filter p names)%list.
Proof.
  intros Hnodup. revert acc.
  induction Hnodup as [| a names Ha _ IH]; intros acc Hacc.
  - cbn. rewrite app_nil_r. reflexivity.
  - cbn [fold_left List.filter]. destruct (p a).
    + assert (setAdd a acc = (acc ++ [a])%list) as ->.
      { unfold setAdd.
        rewrite (proj2 (setHas_false a acc)); [reflexivity |].
        apply Hacc. left. reflexivity. }
      rewrite IH.
      * rewrite <- app_assoc. reflexivity.
      * intros n Hn Hin. apply in_app_iff in Hin.
        destruct Hin as [Hin | [<- | []]].
        -- apply (Hacc n); [right; exact Hn | exact Hin].
        -- apply Ha. exact Hn.
    + apply IH. intros n Hn. apply Hacc. right. exact Hn.
Qed.

(** X17.  On the first update, `classMap` leaves the element's class list
    alone.  It returns what `render` returns, the own keys whose value is
    truthy joined by single spaces, and it remembers the names with a truthy
    value among all those `for...in` visits, the inherited enumerable ones
    included: every name it returns is remembered, and for an object that
    inherits no enumerable property the names remembered are exactly the
    names returned, in the order of the keys. *)
Theorem classMap_first_update (nonEnumerable : string -> bool)
  (classList : list string) (classInfo : ClassInfo) :
  List.NoDup (keys classInfo) ->
  update nonEnumerable None classList classInfo
  = (Some (List.filter (truthy classInfo) (forIn classInfo)), classList,
     Rendered (join " " (List.filter (truthy classInfo) (keys classInfo))))
  /\ (forall n,
        In n (List.filter (truthy classInfo) (keys classInfo)) ->
        In n (List.filter (truthy classInfo) (forIn classInfo)))
  /\ (inheritedProperties classInfo = [] ->
      List.filter (truthy classInfo) (forIn classInfo)
      = List.filter (truthy classInfo) (keys classInfo)).
Proof.
  intros Hnodup. split; [| split].
  - unfold update, render.
    rewrite filter_truthy_add;
      [reflexivity | apply NoDup_distinctNames | intros n _ []].
  - intros n Hn. apply filter_In in Hn. destruct Hn as [_ Htruthy].
    apply filter_In. split; [apply truthy_forIn |]; exact Htruthy.
  - intros Hown. f_equal. unfold forIn, enumerable, keys in *.
    rewrite Hown, app_nil_r.
    apply distinctNames_NoDup; [exact Hnodup | intros n _ []].
Qed.

(** *** The two loops of a later update *)

Lemma filter_all {A : Type} (f : A -> bool) (l : list A) :
  (forall x, f x = true) -> List.filter f l = l.
Proof.
  intros Hf. induction l as [| x l IH]; [reflexivity |].
  cbn [List.filter]. rewrite Hf, IH. reflexivity.
Qed.

Lemma filter_twice {A : Type} (f g : A -> bool) (l : list A) :
  List.filter f (List.filter g l) = List.filter (fun x => g x && f x) l.
Proof.
  induction l as [| x l IH]; [reflexivity |].
  cbn [List.filter]. destruct (g x); cbn [List.filter andb]; rewrite IH;
    reflexivity.
Qed.

Lemma removeOld_forEach (nonEnumerable : string -> bool) (classInfo : ClassInfo)
  (names : list string) (state : list string * list string) :
  Forall (fun n => validateToken n = None) names ->
  forEach (removeOld nonEnumerable classInfo) names state
  = ((List.filter (fun n => negb (setHas n names
                                  && negb (inClassInfo nonEnumerable n classInfo)))
                  (fst state),
      List.filter (fun n => negb (setHas n names
                                  && negb (inClassInfo nonEnumerable n classInfo)))
                  (snd state)),
     None).
Proof.
  intros Hvalid. revert state.
  induction Hvalid as [| a names Ha _ IH]; intros [p c].
  - cbn [forEach fst snd]. rewrite !filter_all by reflexivity. reflexivity.
  - cbn [forEach]. unfold removeOld at 1, classListRemove. rewrite Ha.
    destruct (inClassInfo nonEnumerable a classInfo) eqn:Hin; cbn [negb fst snd];
      rewrite IH; cbn [fst snd].
    + assert (forall n,
                negb (setHas n names
                      && negb (inClassInfo nonEnumerable n classInfo))
                = negb (setHas n (a :: names)
                        && negb (inClassInfo nonEnumerable n classInfo))) as Hsame.
      { intros n. unfold setHas. cbn [existsb].
        destruct (String.eqb_spec n a) as [-> | _]; cbn [orb]; [| reflexivity].
        rewrite Hin. cbn. rewrite andb_false_r. reflexivity. }
      do 2 f_equal; apply List.filter_ext; exact Hsame.
    + unfold setDelete. rewrite !filter_twice.
      assert (forall n,
                negb (String.eqb a n)
                && negb (setHas n names
                         && negb (inClassInfo nonEnumerable n classInfo))
                = negb (setHas n (a :: names)
                        && negb (inClassInfo nonEnumerable n classInfo))) as Hsame.
      { intros n. unfold setHas. cbn [existsb]. rewrite (String.eqb_sym a n).
        destruct (String.eqb_spec n a) as [-> | _]; cbn [orb negb andb];
          [rewrite Hin |]; reflexivity. }
      do 2 f_equal; apply List.filter_ext; exact Hsame.
Qed.

Lemma applyEntry_other (classInfo : ClassInfo) (state state' : list string * list string)
  (a n : string) :
  n <> a -> applyEntry classInfo state a = inl state' ->
  setHas n (fst state') = setHas n (fst state)
  /\ (In n (snd state') <-> In n (snd state)).
Proof.
  intros Hne. unfold applyEntry, classListAdd, classListRemove.
  destruct (negb (Bool.eqb (truthy classInfo a) (setHas a (fst state))));
    [| intros [= <-]; split; reflexivity].
  destruct (validateToken a); [destruct (truthy classInfo a); discriminate |].
  destruct (truthy classInfo a); intros [= <-]; cbn [fst snd].
  - split; [apply setHas_setAdd_other; exact Hne |].
    rewrite In_setAdd. intuition congruence.
  - split; [apply setHas_setDelete_other; exact Hne |].
    rewrite In_setDelete. intuition congruence.
Qed.

Lemma applyEntry_forEach (classInfo : ClassInfo) (names : list string)
  (state : list string * list string) (n : string) :
  List.NoDup names ->
  Forall (fun a => validateToken a = None) names ->
  exists state',
    forEach (applyEntry classInfo) names state = (state', None)
    /\ setHas n (fst state')
       = (if setHas n names then truthy classInfo n else setHas n (fst state))
    /\ (In n (snd state') <->
        if setHas n names
        then if Bool.eqb (truthy classInfo n) (setHas n (fst state))
             then In n (snd state) else truthy classInfo n = true
        else In n (snd state)).
Proof.
  intros Hnodup. revert state.
  induction Hnodup as [| a names Ha _ IH]; intros state Hvalid.
  - exists state. cbn. split; [reflexivity | split; reflexivity].
  - inversion Hvalid as [| ? ? Hvalid_a Hvalid_rest]; subst.
    assert (exists state1, applyEntry classInfo state a = inl state1)
      as [state1 Hstep].
    { unfold applyEntry, classListAdd, classListRemove. rewrite Hvalid_a.
      destruct (negb _); [destruct (truthy classInfo a) |]; eexists; reflexivity. }
    cbn [forEach]. rewrite Hstep.
    destruct (IH state1 Hvalid_rest) as (state' & Hrun & Hhas & Hin).
    exists state'. split; [exact Hrun |].
    rewrite Hhas, Hin. clear Hrun Hhas Hin.
    rewrite !setHas_cons.
    destruct (String.eqb_spec n a) as [-> | Hne]; cbn [orb].
    + rewrite (proj2 (setHas_false a names) Ha).
      revert Hstep. unfold applyEntry, classListAdd, classListRemove.
      rewrite Hvalid_a.
      destruct (Bool.eqb (truthy classInfo a) (setHas a (fst state))) eqn:E;
        cbn [negb].
      * intros [= <-]. apply Bool.eqb_prop in E.
        split; [symmetry; exact E | reflexivity].
      * destruct (truthy classInfo a); intros [= <-]; cbn [fst snd].
        -- split; [apply setHas_In, In_setAdd; left; reflexivity |].
           rewrite In_setAdd. split; [reflexivity | left; reflexivity].
        -- split; [apply setHas_false; rewrite In_setDelete;
                   intros [H _]; congruence |].
           rewrite In_setDelete. split; [intros [H _]; congruence | discriminate].
    + destruct (applyEntry_other classInfo state state1 a n Hne Hstep)
        as [Hp Hc].
      rewrite Hp. destruct (setHas n names).
      * split; [reflexivity |].
        destruct (Bool.eqb (truthy classInfo n) (setHas n (fst state)));
          [exact Hc | reflexivity].
      * split; [reflexivity | exact Hc].
Qed.

(** X18.  On a later update, when every name involved is a token the class
    list accepts (not empty, no white space) and no remembered name is a
    non-enumerable property of the object, `classMap` returns `noChange`,
    remembers exactly the names whose value is truthy, and leaves in the
    class list: a truthy name, unless it was already remembered and has been
    taken out of the class list meanwhile; any other name only if it is
    there and was not remembered, so that classes the directive never set
    are not touched and classes it set that no longer apply are removed. *)
Theorem classMap_later_update (nonEnumerable : string -> bool)
  (prev classList : list string) (classInfo : ClassInfo) :
  Forall (fun n => validateToken n = None) prev ->
  Forall (fun n => validateToken n = None) (forIn classInfo) ->
  Forall (fun n => nonEnumerable n = false) prev ->
  exists prev' classList',
    update nonEnumerable (Some prev) classList classInfo
    = (Some prev', classList', NoChange)
    /\ (forall n, setHas n prev' = true <-> truthy classInfo n = true)
    /\ (forall n,
          truthy classInfo n = true ->
          (In n classList' <-> setHas n prev = false \/ In n classList))
    /\ (forall n,
          truthy classInfo n = false ->
          (In n classList' <-> setHas n prev = false /\ In n classList)).
Proof.
  intros Hvalid_prev Hvalid_names Hprev. unfold update.
  rewrite removeOld_forEach by exact Hvalid_prev. cbn [fst snd].
  set (keep := fun n => negb (setHas n prev
                              && negb (inClassInfo nonEnumerable n classInfo))).
  assert (forall n, setHas n (forIn classInfo) = true -> keep n = true)
    as Hkeep_key.
  { intros n Hn. unfold keep, inClassInfo.
    apply setHas_In, In_forIn in Hn. rewrite Hn. cbn.
    rewrite andb_false_r. reflexivity. }
  assert (forall n, setHas n (forIn classInfo) = false ->
                    keep n = negb (setHas n prev)) as Hkeep_other.
  { intros n Hn. unfold keep, inClassInfo.
    destruct (existsb _ (enumerable classInfo)) eqn:E.
    - apply In_forIn, setHas_In in E. congruence.
    - destruct (setHas n prev) eqn:Hhas; [| reflexivity].
      apply setHas_In in Hhas. rewrite Forall_forall in Hprev.
      rewrite (Hprev n (proj2 (list_elem_of_In _ _) Hhas)). reflexivity. }
  assert (forall n, setHas n (forIn classInfo) = false -> truthy classInfo n = false)
    as Hfalsy.
  { intros n Hn. destruct (truthy classInfo n) eqn:Htruthy; [| reflexivity].
    apply truthy_forIn, setHas_In in Htruthy. congruence. }
  assert (forall n, setHas n (List.filter keep prev) = keep n && setHas n prev)
    as Hhas1.
  { intros n. destruct (keep n && setHas n prev) eqn:E.
    - apply andb_true_iff in E. destruct E as [Hk Hh].
      apply setHas_In, filter_In. split; [apply setHas_In; exact Hh | exact Hk].
    - apply setHas_false. rewrite filter_In. intros [Hin Hk].
      apply setHas_In in Hin. rewrite Hin, Hk in E. discriminate. }
  assert (forall n, exists state',
            forEach (applyEntry classInfo) (forIn classInfo)
              (List.filter keep prev, List.filter keep classList)
            = (state', None)
            /\ setHas n (fst state')
               = (if setHas n (forIn classInfo) then truthy classInfo n
                  else keep n && setHas n prev)
            /\ (In n (snd state') <->
                if setHas n (forIn classInfo)
                then if Bool.eqb (truthy classInfo n) (keep n && setHas n prev)
                     then In n (List.filter keep classList)
                     else truthy classInfo n = true
                else In n (List.filter keep classList))) as Hloop.
  { intros n.
    destruct (applyEntry_forEach classInfo (forIn classInfo)
                (List.filter keep prev, List.filter keep classList) n
                (NoDup_distinctNames _ _) Hvalid_names)
      as (state' & Hrun & Hhas & Hin).
    exists state'. cbn [fst snd] in Hhas, Hin. rewrite Hhas1 in Hhas, Hin.
    split; [exact Hrun | split; [exact Hhas | exact Hin]]. }
  destruct (Hloop EmptyString) as (state' & Hrun & _).
  rewrite Hrun. exists (fst state'), (snd state').
  split; [reflexivity |].
  split; [| split]; intros n.
  - destruct (Hloop n) as (state2 & Hrun2 & Hhas & _).
    rewrite Hrun in Hrun2. injection Hrun2 as <-. rewrite Hhas.
    destruct (setHas n (forIn classInfo)) eqn:Hkey; [reflexivity |].
    rewrite (Hfalsy n Hkey), (Hkeep_other n Hkey).
    destruct (setHas n prev); cbn; split; discriminate.
  - intros Htruthy.
    destruct (Hloop n) as (state2 & Hrun2 & _ & Hin).
    rewrite Hrun in Hrun2. injection Hrun2 as <-. rewrite Hin.
    assert (setHas n (forIn classInfo) = true) as Hkey
      by (apply setHas_In, truthy_forIn; exact Htruthy).
    rewrite Hkey, Htruthy, (Hkeep_key n Hkey). cbn [andb].
    destruct (setHas n prev); cbn [Bool.eqb].
    + rewrite filter_In, (Hkeep_key n Hkey). intuition congruence.
    + intuition congruence.
  - intros Hfalse.
    destruct (Hloop n) as (state2 & Hrun2 & _ & Hin).
    rewrite Hrun in Hrun2. injection Hrun2 as <-. rewrite Hin.
    rewrite Hfalse.
    destruct (setHas n (forIn classInfo)) eqn:Hkey.
    + rewrite (Hkeep_key n Hkey). cbn [andb].
      destruct (setHas n prev); cbn [Bool.eqb].
      * intuition congruence.
      * rewrite filter_In, (Hkeep_key n Hkey). intuition congruence.
    + rewrite filter_In, (Hkeep_other n Hkey).
      destruct (setHas n prev); cbn [negb]; intuition congruence.
Qed.

Lemma forEach_invariant {A S : Type} (P : S -> Prop)
  (body : S -> A -> S + DOMException) (items : list A) (state : S) :
  P state ->
  (forall s a s', In a items -> P s -> body s a = inl s' -> P s') ->
  P (fst (forEach body items state)).
Proof.
  revert state. induction items as [| a items IH]; intros state Hstate Hbody.
  - exact Hstate.
  - cbn [forEach]. destruct (body state a) as [state' | exception] eqn:Hstep.
    + apply IH.
      * apply (Hbody state a); [left; reflexivity | exact Hstate | exact Hstep].
      * intros s b s' Hb. apply Hbody. right. exact Hb.
    + exact Hstate.
Qed.

Lemma applyEntry_throws (classInfo : ClassInfo) (names : list string)
  (state : list string * list string) (n : string) (exception : DOMException) :
  In n names ->
  validateToken n = Some exception ->
  truthy classInfo n = negb (setHas n (fst state)) ->
  exists state' exception',
    forEach (applyEntry classInfo) names state = (state', Some exception')
    /\ setHas n (fst state') = setHas n (fst state).
Proof.
  intros Hin Hinvalid. revert state.
  induction names as [| a names IH]; intros state Hvalue; [destruct Hin |].
  cbn [forEach].
  destruct (applyEntry classInfo state a) as [state1 | exception1] eqn:Hstep.
  - destruct (string_dec n a) as [-> | Hne].
    + exfalso. revert Hstep.
      unfold applyEntry, classListAdd, classListRemove.
      rewrite Hvalue, Hinvalid.
      destruct (setHas a (fst state)); cbn; discriminate.
    + destruct Hin as [Ha | Hin]; [congruence |].
      destruct (applyEntry_other classInfo state state1 a n Hne Hstep) as [Hp _].
      destruct (IH Hin state1) as (state' & exception' & Hrun & Hhas);
        [rewrite Hp; exact Hvalue |].
      exists state', exception'. split; [exact Hrun | congruence].
  - exists state, exception1. split; reflexivity.
Qed.

(** X21.  A later update throws when the object has an enumerable name that
    the class list does not accept as a token (it is empty or has white
    space in it) and whose truthiness differs from what is remembered: the
    exception is the class list's, and what is remembered about the name is
    left as it was, so that the same update throws again. *)
Theorem classMap_invalid_token (nonEnumerable : string -> bool)
  (prev classList : list string) (classInfo : ClassInfo)
  (n : string) (exception : DOMException) :
  In n (forIn classInfo) ->
  validateToken n = Some exception ->
  truthy classInfo n = negb (setHas n prev) ->
  exists prev' classList' exception',
    update nonEnumerable (Some prev) classList classInfo
    = (Some prev', classList', Threw exception')
    /\ setHas n prev' = setHas n prev.
Proof.
  intros Hin Hinvalid Hvalue. unfold update.
  pose proof (forEach_invariant
                (fun s : list string * list string =>
                   setHas n (fst s) = setHas n prev)
                (removeOld nonEnumerable classInfo) prev (prev, classList)
                eq_refl) as Hfirst.
  destruct (forEach (removeOld nonEnumerable classInfo) prev (prev, classList))
    as [state [exception1 |]].
  - exists (fst state), (snd state), exception1.
    split; [reflexivity |]. apply Hfirst.
    intros s a s' _ Hs. unfold removeOld, classListRemove.
    destruct (inClassInfo nonEnumerable a classInfo) eqn:Ha; cbn [negb];
      [intros [= <-]; exact Hs |].
    destruct (validateToken a); [discriminate |].
    intros [= <-]. cbn [fst]. rewrite <- Hs.
    apply setHas_setDelete_other. intros ->.
    unfold inClassInfo in Ha. apply In_forIn in Hin. rewrite Hin in Ha.
    discriminate Ha.
  - assert (setHas n (fst state) = setHas n prev) as Hstate.
    { apply Hfirst.
      intros s a s' _ Hs. unfold removeOld, classListRemove.
      destruct (inClassInfo nonEnumerable a classInfo) eqn:Ha; cbn [negb];
        [intros [= <-]; exact Hs |].
      destruct (validateToken a); [discriminate |].
      intros [= <-]. cbn [fst]. rewrite <- Hs.
      apply setHas_setDelete_other. intros ->.
      unfold inClassInfo in Ha. apply In_forIn in Hin. rewrite Hin in Ha.
      discriminate Ha. }
    destruct (applyEntry_throws classInfo (forIn classInfo) state n exception
                Hin Hinvalid) as (state' & exception' & Hrun & Hhas);
      [rewrite Hstate; exact Hvalue |].
    rewrite Hrun. exists (fst state'), (snd state'), exception'.
    split; [reflexivity | congruence].
Qed.

End ClassMapFacts.

Lemma classMap_first_update_witness :
  ClassMapDirective.update ClassMapDirective.inheritedFromObject None ["button"]
    ClassMapDirective.themedClasses
  = (Some ["active"; "themed"], ["button"], ClassMapDirective.Rendered "active").
Proof.
  destruct (classMap_first_update ClassMapDirective.inheritedFromObject ["button"]
              ClassMapDirective.themedClasses) as [Hupdate _].
  - repeat constructor; simpl; intuition discriminate.
  - rewrite Hupdate. reflexivity.
Defined.

Lemma classMap_later_update_witness :
  exists prev' classList',
    ClassMapDirective.update ClassMapDirective.inheritedFromObject
      (Some ["active"; "large"]) ["button"; "active"; "large"]
      (ClassMapDirective.mkClassInfo [("active", false); ("wide", true)] [])
    = (Some prev', classList', ClassMapDirective.NoChange)
    /\ (In "button" classList' /\ In "wide" classList'
        /\ ~ In "active" classList' /\ ~ In "large" classList').
Proof.
  destruct (classMap_later_update ClassMapDirective.inheritedFromObject
              ["active"; "large"] ["button"; "active"; "large"]
              (ClassMapDirective.mkClassInfo [("active", false); ("wide", true)] []))
    as (prev' & classList' & Hupdate & _ & Htruthy & Hother).
  - repeat constructor.
  - repeat constructor.
  - repeat constructor.
  - exists prev', classList'. split; [exact Hupdate |].
    split; [| split; [| split]].
    + apply (Hother "button"); [reflexivity |].
      split; [reflexivity | left; reflexivity].
    + apply (Htruthy "wide"); [reflexivity |]. left. reflexivity.
    + intros H. apply (Hother "active") in H; [| reflexivity].
      destruct H as [H _]. discriminate H.
    + intros H. apply (Hother "large") in H; [| reflexivity].
      destruct H as [H _]. discriminate H.
Defined.

Lemma classMap_invalid_token_witness :
  exists prev' classList' exception',
    ClassMapDirective.update ClassMapDirective.inheritedFromObject
      (Some ["a"; "b c"]) ["a"; "b"; "c"]
      (ClassMapDirective.mkClassInfo [("a", true); ("b c", false)] [])
    = (Some prev', classList', ClassMapDirective.Threw exception')
    /\ ClassMapDirective.setHas "b c" prev' = true.
Proof.
  apply (classMap_invalid_token ClassMapDirective.inheritedFromObject
           ["a"; "b c"] ["a"; "b"; "c"]
           (ClassMapDirective.mkClassInfo [("a", true); ("b c", false)] [])
           "b c" ClassMapDirective.InvalidCharacterError).
  - simpl. right. left. reflexivity.
  - reflexivity.
  - reflexivity.
Defined.

(** ** Generated names *)

Section TestHelperFacts.

Import TestHelpers.

Lemma numberToString_inj (a b : N) : numberToString a = numberToString b -> a = b.
Proof.
  unfold numberToString. intros H.
  assert (forall n, N.to_uint n <> Decimal.Nil) as Hnonnil.
  { intros n. rewrite <- (DecimalN.Unsigned.of_to n) at 1.
    rewrite DecimalN.Unsigned.to_of. unfold Decimal.unorm.
    destruct (Decimal.nzhead (N.to_uint n)); discriminate. }
  apply DecimalN.Unsigned.to_uint_inj.
  pose proof (NilZero.usu _ (Hnonnil a)) as Ha.
  pose proof (NilZero.usu _ (Hnonnil b)) as Hb.
  rewrite H in Ha. congruence.
Qed.

Lemma increment_le (count : N) : (count <= increment count)%N.
Proof. unfold increment. destruct (count <? maxCount)%N; lia. Qed.

Lemma generateElementNames_S (k : nat) (count : N) :
  generateElementNames (S k) count
  = ("x-" ++ numberToString count) :: generateElementNames k (increment count).
Proof. reflexivity. Qed.

Lemma generateElementNames_from (k : nat) (count : N) (name : string) :
  In name (generateElementNames k count) ->
  exists j, (count <= j)%N /\ name = "x-" ++ numberToString j.
Proof.
  revert count. induction k as [| k IH]; intros count; [intros [] |].
  rewrite generateElementNames_S. intros [<- | Hin].
  - exists count. split; [lia | reflexivity].
  - destruct (IH _ Hin) as (j & Hj & ->).
    exists j. split; [| reflexivity].
    pose proof (increment_le count). lia.
Qed.

(** X19.  Successive calls of `generateElementName` return pairwise distinct
    names as long as the counter has not reached 2^53; from there on every
    call returns the same name. *)
Theorem generated_names_distinct (k : nat) (count : N) :
  (count + N.of_nat k <= maxCount + 1)%N ->
  List.NoDup (generateElementNames k count)
  /\ (forall j,
        generateElementNames j maxCount
        = repeat (fst (generateElementName maxCount)) j).
Proof.
  intros Hbound. split.
  - revert count Hbound. induction k as [| k IH]; intros count Hbound;
      [apply List.NoDup_nil |].
    rewrite generateElementNames_S.
    destruct k as [| k]; [apply List.NoDup_cons; [intros [] | apply List.NoDup_nil] |].
    assert (increment count = (count + 1)%N) as Hnext.
    { unfold increment.
      destruct (N.ltb_spec count maxCount) as [_ | Hmax]; [reflexivity | lia]. }
    rewrite Hnext. apply List.NoDup_cons.
    + intros Hin. apply generateElementNames_from in Hin.
      destruct Hin as (j & Hj & Hname).
      cbn in Hname. injection Hname as Hname.
      apply numberToString_inj in Hname. lia.
    + apply IH. lia.
  - assert (increment maxCount = maxCount) as Hmax by reflexivity.
    induction j as [| j IH]; [reflexivity |].
    rewrite generateElementNames_S, Hmax, IH. reflexivity.
Qed.

End TestHelperFacts.

Lemma generated_names_distinct_witness :
  List.NoDup (TestHelpers.generateElementNames 3 0).
Proof.
  apply (generated_names_distinct 3 0).
  unfold TestHelpers.maxCount. lia.
Defined.

(** ** The cached `query` getter *)

Section QueryFacts.

Import QueryDecorator.


End QueryFacts.

